(** * basic-ray-casting: a shallow embedding of [src/main.cpp]

    The program is a Win32 first-person ray caster with a small combat
    simulation.  This development embeds the constructor [Game::Game] and
    the simulation step ([Game::update], [Game::movePlayer],
    [Enemy::update], [Game::shootWeapon], [Player::rotate]), the wall pass
    of [Game::renderScene] (the DDA walk, the depth buffer, the texture
    column, the pixels), the sprite pass [Game::renderSprites], the
    head-up display [Game::renderHUD] and their sequence in
    [Game::render], and states the properties of the specification, and
    further properties of the code, over them.

    Conventions.
    - [float] is IEEE-754 binary32 and [double] binary64, both taken from
      the Standard Library's executable specification [SpecFloat]; every
      C++ operator is one correctly rounded operation (round to nearest
      even, no fused multiply-add, no excess precision).
    - [int] is a mathematical integer; an operation whose C++ behaviour is
      undefined (a conversion from a float that does not fit, an array
      index out of its bounds, a division by zero, a signed overflow of
      the frame counter, of a health or of a cell index of the DDA walk)
      yields [None].  The remaining [int] arithmetic stays far inside the
      32-bit range for the values the conversions let through, except the
      sum of a sprite's half width and its screen position, which is
      taken as it is.
    - The C library's [sin], [cos] and [acos] are not modelled: the code
      is parametrised by them ([Libm]). *)

From Stdlib Require Import ZArith Bool List Lia.
From Stdlib Require Import Floats.SpecFloat.
From stdpp Require Import base option list.

Open Scope Z_scope.

(** ** Machine numbers *)

Abbreviation float := spec_float.

(** [int]: 32-bit two's complement range. *)
Definition INT_MIN : Z := - 2 ^ 31.
Definition INT_MAX : Z := 2 ^ 31 - 1.

Definition in_int (z : Z) : bool := (INT_MIN <=? z) && (z <=? INT_MAX).

Definition as_int (z : Z) : option Z := if in_int z then Some z else None.

(** Integer part of a finite float, rounding toward zero. *)
Definition trunc (f : float) : option Z :=
  match f with
  | S754_zero _ => Some 0
  | S754_finite s m e =>
      Some (cond_Zopp s (if 0 <=? e then Z.shiftl (Zpos m) e
                         else Z.shiftr (Zpos m) (- e)))
  | _ => None
  end.

(** C++ [int(f)]: truncation, undefined when the value does not fit. *)
Definition to_int (f : float) : option Z := trunc f ≫= as_int.

(** binary32 *)
Module F32.
Definition prec : Z := 24.
Definition emax : Z := 128.

Definition add : float → float → float := SFadd prec emax.
Definition sub : float → float → float := SFsub prec emax.
Definition mul : float → float → float := SFmul prec emax.
Definition div : float → float → float := SFdiv prec emax.
Definition sqrt : float → float := SFsqrt prec emax.
Definition neg : float → float := SFopp.
Definition abs : float → float := SFabs.
Definition ltb : float → float → bool := SFltb.
Definition leb : float → float → bool := SFleb.
Definition eqb : float → float → bool := SFeqb.
Definition gtb (a b : float) : bool := SFltb b a.

(** Conversion from an integer, and from any finite value [m * 2^e]. *)
Definition of_Z (z : Z) : float := binary_normalize prec emax z 0 false.

Definition round (f : float) : float :=
  match f with
  | S754_finite s m e => binary_round prec emax s m e
  | _ => f
  end.

(** The decimal literal [n/d], for [n] and [d] below [2^24]: the float
    nearest to the quotient. *)
Definition lit (n d : Z) : float := div (of_Z n) (of_Z d).

(** [std::floor]. *)
Definition floor (f : float) : float :=
  match f with
  | S754_finite s m e =>
      if 0 <=? e then f
      else
        let q := Z.shiftr (Zpos m) (- e) in
        let exact := Z.shiftl q (- e) =? Zpos m in
        let z := if s then (if exact then - q else - q - 1) else q in
        binary_normalize prec emax z 0 s
  | _ => f
  end.

(** [std::max(a, b)], which is [(a < b) ? b : a]. *)
Definition max (a b : float) : float := if ltb a b then b else a.

(** [std::numeric_limits<float>::max()]. *)
Definition FLT_MAX : float := SFmax_float prec emax.

Definition zero : float := S754_zero false.
Definition one : float := of_Z 1.
End F32.

(** binary64, used where the source mixes in the [double] constant [M_PI]. *)
Module F64.
Definition prec : Z := 53.
Definition emax : Z := 1024.

Definition mul : float → float → float := SFmul prec emax.
Definition div : float → float → float := SFdiv prec emax.
Definition of_Z (z : Z) : float := binary_normalize prec emax z 0 false.

(** Widening a binary32 value: exact, renormalised to 53 bits. *)
Definition of_F32 (f : float) : float :=
  match f with
  | S754_finite s m e => binary_round prec emax s m e
  | _ => f
  end.

(** [M_PI = 3.14159265358979323846], bit pattern 0x400921FB54442D18. *)
Definition M_PI : float := S754_finite false 7074237752028440 (- 51).
End F64.

(** C++ integer division truncates toward zero; a zero divisor is undefined. *)
Definition int_div (a b : Z) : option Z :=
  if b =? 0 then None else Some (Z.quot a b).

(** ** Constants *)

Definition SCREEN_WIDTH : Z := 800.
Definition SCREEN_HEIGHT : Z := 600.
Definition MAP_WIDTH : Z := 24.
Definition MAP_HEIGHT : Z := 24.
Definition CELL_SIZE : Z := 64.
Definition RAY_WIDTH : Z := Z.quot SCREEN_WIDTH 4.
Definition RAY_SCALE : float := F32.div (F32.of_Z SCREEN_WIDTH) (F32.of_Z RAY_WIDTH).
Definition ANGLE_TABLE_SIZE : Z := 1024.

(** Float literals of the source. *)
Definition f0_5 : float := F32.lit 1 2.
Definition f0_0001 : float := F32.lit 1 10000.
Definition f0_03 : float := F32.lit 3 100.
Definition f0_1 : float := F32.lit 1 10.
Definition f0_66 : float := F32.lit 66 100.
Definition f0_05 : float := F32.lit 5 100.
Definition f0_26 : float := F32.lit 26 100.
Definition f0_01 : float := F32.lit 1 100.
Definition f8_0 : float := F32.of_Z 8.
Definition f400_0 : float := F32.of_Z 400.
Definition f1e30 : float := F32.of_Z (10 ^ 30).

(** The C library, as far as the program calls it on [float] arguments. *)
Record Libm := {
  sinf : float → float;
  cosf : float → float;
  acosf : float → float
}.

(** ** Data model *)

Module Vec2.
Record t := mk { x : float; y : float }.

(** [Vec2::length]. *)
Definition length (v : t) : float :=
  F32.sqrt (F32.add (F32.mul (x v) (x v)) (F32.mul (y v) (y v))).

(** [Vec2::normalize]. *)
Definition normalize (v : t) : t :=
  let len := length v in
  if F32.gtb len f0_0001 then mk (F32.div (x v) len) (F32.div (y v) len)
  else mk F32.zero F32.zero.
End Vec2.

(** The grid: [int worldMap[MAP_WIDTH][MAP_HEIGHT]], indexed [x] then [y]. *)
Definition Grid := list (list Z).

(** [worldMap[i][j]]; an index outside the array is undefined behaviour. *)
Definition cell (worldMap : Grid) (i j : Z) : option Z :=
  if (0 <=? i) && (i <? MAP_WIDTH) && (0 <=? j) && (j <? MAP_HEIGHT)
  then row ← worldMap !! Z.to_nat i; row !! Z.to_nat j
  else None.

(** [worldMap[int(fx)][int(fy)] == 0]. *)
Definition passable (worldMap : Grid) (fx fy : float) : option bool :=
  i ← to_int fx; j ← to_int fy; c ← cell worldMap i j; Some (c =? 0).

(** ** Trigonometric tables *)

(** The quantised table index of [fastSin] and [fastCos]:
    [int(angle * ANGLE_TABLE_SIZE / (2.0f * M_PI)) % ANGLE_TABLE_SIZE],
    made non-negative.  The product is a [float], the quotient a [double]. *)
Definition angle_index (angle : float) : option Z :=
  let scaled := F32.mul angle (F32.of_Z ANGLE_TABLE_SIZE) in
  let two_pi := F64.mul (F64.of_F32 (F32.of_Z 2)) F64.M_PI in
  q ← to_int (F64.div (F64.of_F32 scaled) two_pi);
  let index := Z.rem q ANGLE_TABLE_SIZE in
  Some (if index <? 0 then index + ANGLE_TABLE_SIZE else index).

Definition fastSin (sinTable : list float) (angle : float) : option float :=
  index ← angle_index angle; sinTable !! Z.to_nat index.

Definition fastCos (cosTable : list float) (angle : float) : option float :=
  index ← angle_index angle; cosTable !! Z.to_nat index.

(** The angle of table slot [i], [2.0f * M_PI * i / ANGLE_TABLE_SIZE],
    computed in [double] and stored in a [float]. *)
Definition table_angle (i : Z) : float :=
  let two_pi := F64.mul (F64.of_F32 (F32.of_Z 2)) F64.M_PI in
  F32.round (F64.div (F64.mul two_pi (F64.of_Z i)) (F64.of_Z ANGLE_TABLE_SIZE)).

(** [initTrigTables]: the sine and the cosine table. *)
Definition initTrigTables (L : Libm) : list float * list float :=
  let slots := Z.of_nat <$> seq 0 (Z.to_nat ANGLE_TABLE_SIZE) in
  ((λ i, sinf L (table_angle i)) <$> slots,
   (λ i, cosf L (table_angle i)) <$> slots).

(** The arithmetic of one rotation: the two assignments of
    [Player::rotate] to one vector, over the operations given. *)
Section Rotation.
Context {F : Type} (fadd fsub fmul : F → F → F).

Definition rotate_xy (cosAngle sinAngle : F) (v : F * F) : F * F :=
  (fsub (fmul v.1 cosAngle) (fmul v.2 sinAngle),
   fadd (fmul v.1 sinAngle) (fmul v.2 cosAngle)).
End Rotation.

Module Player.
Record t := mk {
  position : Vec2.t;
  direction : Vec2.t;
  plane : Vec2.t;
  moveSpeed : float;
  rotSpeed : float;
  health : Z;
  hasWeapon : bool
}.

(** [Player::Player]. *)
Definition init : t :=
  mk (Vec2.mk (F32.of_Z 5) (F32.of_Z 5))
     (Vec2.mk (F32.of_Z (-1)) F32.zero)
     (Vec2.mk F32.zero f0_66)
     f0_1 (F32.lit 5 100) 100 true.

Definition set_position (p : t) (v : Vec2.t) : t :=
  mk v (direction p) (plane p) (moveSpeed p) (rotSpeed p) (health p) (hasWeapon p).

Definition set_health (p : t) (h : Z) : t :=
  mk (position p) (direction p) (plane p) (moveSpeed p) (rotSpeed p) h (hasWeapon p).

Definition rotate_vec (cosAngle sinAngle : float) (v : Vec2.t) : Vec2.t :=
  let r := rotate_xy F32.add F32.sub F32.mul cosAngle sinAngle (Vec2.x v, Vec2.y v) in
  Vec2.mk r.1 r.2.

(** [Player::rotate]. *)
Definition rotate (sinTable cosTable : list float) (angle : float) (p : t) : option t :=
  cosAngle ← fastCos cosTable angle;
  sinAngle ← fastSin sinTable angle;
  Some (mk (position p)
           (rotate_vec cosAngle sinAngle (direction p))
           (rotate_vec cosAngle sinAngle (plane p))
           (moveSpeed p) (rotSpeed p) (health p) (hasWeapon p)).
End Player.

Module Enemy.
Record t := mk {
  position : Vec2.t;
  speed : float;
  health : Z;
  isDead : bool
}.

(** [Enemy::Enemy(x, y)]. *)
Definition new (x y : float) : t := mk (Vec2.mk x y) f0_03 50 false.

Definition set_position (e : t) (v : Vec2.t) : t :=
  mk v (speed e) (health e) (isDead e).

(** [Enemy::update]. *)
Definition update (player : Player.t) (worldMap : Grid) (e : t) : option t :=
  if isDead e then Some e
  else
    let pp := Player.position player in
    let toPlayer := Vec2.mk (F32.sub (Vec2.x pp) (Vec2.x (position e)))
                            (F32.sub (Vec2.y pp) (Vec2.y (position e))) in
    let distance := Vec2.length toPlayer in
    if F32.gtb distance f0_5 then
      let moveDir := Vec2.normalize toPlayer in
      let newPos := Vec2.mk
        (F32.add (Vec2.x (position e)) (F32.mul (Vec2.x moveDir) (speed e)))
        (F32.add (Vec2.y (position e)) (F32.mul (Vec2.y moveDir) (speed e))) in
      okx ← passable worldMap (Vec2.x newPos) (Vec2.y (position e));
      let e1 := if (okx : bool)
                then set_position e (Vec2.mk (Vec2.x newPos) (Vec2.y (position e)))
                else e in
      oky ← passable worldMap (Vec2.x (position e1)) (Vec2.y newPos);
      Some (if (oky : bool)
            then set_position e1 (Vec2.mk (Vec2.x (position e1)) (Vec2.y newPos))
            else e1)
    else Some e.
End Enemy.

(** ** The simulation *)

Module Game.
(** The members of [Game] the simulation reads or writes, the static
    [frameCount] of [Game::update], and the two global trigonometric tables. *)
Record t := mk {
  player : Player.t;
  enemies : list Enemy.t;
  worldMap : Grid;
  lastMousePos : Z * Z;
  mouseCaptured : bool;
  gameOver : bool;
  frameCount : Z;
  sinTable : list float;
  cosTable : list float
}.
End Game.

(** What one call of [Game::update] reads from the operating system:
    [GetAsyncKeyState] for the five keys and [GetCursorPos]. *)
Record Input := {
  keyW : bool;
  keyS : bool;
  keyA : bool;
  keyD : bool;
  lbutton : bool;
  cursor : Z * Z
}.

(** [Game::movePlayer]. *)
Definition movePlayer (worldMap : Grid) (forward strafe : float) (p : Player.t)
  : option Player.t :=
  let pos := Player.position p in
  let dir := Player.direction p in
  let ms := Player.moveSpeed p in
  let newPos := pos in
  let newPos :=
    if negb (F32.eqb forward F32.zero) then
      Vec2.mk (F32.add (Vec2.x newPos) (F32.mul (F32.mul (Vec2.x dir) forward) ms))
              (F32.add (Vec2.y newPos) (F32.mul (F32.mul (Vec2.y dir) forward) ms))
    else newPos in
  let newPos :=
    if negb (F32.eqb strafe F32.zero) then
      Vec2.mk (F32.add (Vec2.x newPos) (F32.mul (F32.mul (Vec2.y dir) strafe) ms))
              (F32.add (Vec2.y newPos)
                       (F32.mul (F32.mul (F32.neg (Vec2.x dir)) strafe) ms))
    else newPos in
  let wallBuffer := f0_1 in
  let offset := if F32.gtb forward F32.zero then wallBuffer else F32.neg wallBuffer in
  okx ← passable worldMap (F32.add (Vec2.x newPos) offset) (Vec2.y pos);
  let p1 := if (okx : bool)
            then Player.set_position p (Vec2.mk (Vec2.x newPos) (Vec2.y pos))
            else p in
  oky ← passable worldMap (Vec2.x (Player.position p1)) (F32.add (Vec2.y newPos) offset);
  Some (if (oky : bool)
        then Player.set_position p1 (Vec2.mk (Vec2.x (Player.position p1)) (Vec2.y newPos))
        else p1).

(** The test of [Game::shootWeapon] on one living enemy: inside the firing
    cone and in range. *)
Definition in_sights (L : Libm) (p : Player.t) (e : Enemy.t) : bool :=
  let pp := Player.position p in
  let toEnemy := Vec2.mk (F32.sub (Vec2.x (Enemy.position e)) (Vec2.x pp))
                         (F32.sub (Vec2.y (Enemy.position e)) (Vec2.y pp)) in
  let enemyDist := Vec2.length toEnemy in
  let toEnemy := Vec2.mk (F32.div (Vec2.x toEnemy) enemyDist)
                         (F32.div (Vec2.y toEnemy) enemyDist) in
  let dotProduct := F32.add (F32.mul (Vec2.x (Player.direction p)) (Vec2.x toEnemy))
                            (F32.mul (Vec2.y (Player.direction p)) (Vec2.y toEnemy)) in
  let angle := acosf L dotProduct in
  F32.ltb angle f0_26 && F32.ltb enemyDist f8_0.

(** What [Game::shootWeapon] computes for one enemy before its test: the
    distance [enemyDist] and the dot product [dotProduct] of the facing
    direction with the normalised vector to the enemy. *)
Definition aim (p : Player.t) (e : Enemy.t) : float * float :=
  let pp := Player.position p in
  let toEnemy := Vec2.mk (F32.sub (Vec2.x (Enemy.position e)) (Vec2.x pp))
                         (F32.sub (Vec2.y (Enemy.position e)) (Vec2.y pp)) in
  let enemyDist := Vec2.length toEnemy in
  let toEnemy := Vec2.mk (F32.div (Vec2.x toEnemy) enemyDist)
                         (F32.div (Vec2.y toEnemy) enemyDist) in
  let dotProduct := F32.add (F32.mul (Vec2.x (Player.direction p)) (Vec2.x toEnemy))
                            (F32.mul (Vec2.y (Player.direction p)) (Vec2.y toEnemy)) in
  (enemyDist, dotProduct).

(** The body of the branch taken on a hit: [enemy.health -= 10] and the
    death test. *)
Definition damage (e : Enemy.t) : option Enemy.t :=
  h ← as_int (Enemy.health e - 10);
  Some (Enemy.mk (Enemy.position e) (Enemy.speed e) h
                 (if h <=? 0 then true else Enemy.isDead e)).

(** [Game::shootWeapon]: the loop over [enemies], left at the first hit. *)
Fixpoint shootWeapon (L : Libm) (p : Player.t) (es : list Enemy.t)
  : option (list Enemy.t) :=
  match es with
  | [] => Some []
  | e :: rest =>
      if Enemy.isDead e then cons e <$> shootWeapon L p rest
      else if in_sights L p e then e' ← damage e; Some (e' :: rest)
      else cons e <$> shootWeapon L p rest
  end.

(** The contact test of [Game::update] after an enemy has moved. *)
Definition in_contact (p : Player.t) (e : Enemy.t) : bool :=
  let pp := Player.position p in
  let dist := Vec2.length
    (Vec2.mk (F32.sub (Vec2.x pp) (Vec2.x (Enemy.position e)))
             (F32.sub (Vec2.y pp) (Vec2.y (Enemy.position e)))) in
  F32.ltb dist f0_5 && negb (Enemy.isDead e).

(** The enemy loop of [Game::update]: each enemy moves, then damages the
    player on contact. *)
Fixpoint update_enemies (worldMap : Grid) (p : Player.t) (es : list Enemy.t)
  : option (Player.t * list Enemy.t) :=
  match es with
  | [] => Some (p, [])
  | e :: rest =>
      e' ← Enemy.update p worldMap e;
      p' ← (if in_contact p e'
            then Player.set_health p <$> as_int (Player.health p - 1)
            else Some p);
      r ← update_enemies worldMap p' rest;
      Some (r.1, e' :: r.2)
  end.

(** A guarded call: [if (c) p = f(p)]. *)
Definition when {A : Type} (c : bool) (f : A → option A) (a : A) : option A :=
  if c then f a else Some a.

(** [Game::update]. *)
Definition update (L : Libm) (inp : Input) (g : Game.t) : option Game.t :=
  if Game.gameOver g then Some g
  else
    let wm := Game.worldMap g in
    let p := Game.player g in
    p ← when (keyW inp) (movePlayer wm F32.one F32.zero) p;
    p ← when (keyS inp) (movePlayer wm (F32.of_Z (-1)) F32.zero) p;
    p ← when (keyA inp) (movePlayer wm F32.zero (F32.of_Z (-1))) p;
    p ← when (keyD inp) (movePlayer wm F32.zero F32.one) p;
    p ← when (Game.mouseCaptured g)
          (λ p, dxi ← as_int ((cursor inp).1 - (Game.lastMousePos g).1);
                let dx := F32.of_Z dxi in
                Player.rotate (Game.sinTable g) (Game.cosTable g)
                              (F32.mul (F32.neg dx) f0_01) p) p;
    fc ← as_int (Game.frameCount g + 1);
    pes ← (if Z.rem fc 2 =? 0 then update_enemies wm p (Game.enemies g)
           else Some (p, Game.enemies g));
    let p := pes.1 in
    es ← (if lbutton inp && Player.hasWeapon p then shootWeapon L p pes.2
          else Some pes.2);
    Some (Game.mk p es wm (Game.lastMousePos g) (Game.mouseCaptured g)
                  (if Player.health p <=? 0 then true else Game.gameOver g)
                  fc (Game.sinTable g) (Game.cosTable g)).

(** *** World generation: [Game::Game] *)

(** The grid with solid borders and an empty interior. *)
Definition border_cell (x y : Z) : Z :=
  if (x =? 0) || (y =? 0) || (x =? MAP_WIDTH - 1) || (y =? MAP_HEIGHT - 1)
  then 1 else 0.

Definition border_map : Grid :=
  (λ x, (λ y, border_cell (Z.of_nat x) (Z.of_nat y)) <$> seq 0 (Z.to_nat MAP_HEIGHT))
    <$> seq 0 (Z.to_nat MAP_WIDTH).

(** [worldMap[x][y] = v]. *)
Definition set_cell (worldMap : Grid) (x y v : Z) : Grid :=
  alter (λ row, <[Z.to_nat y := v]> row) (Z.to_nat x) worldMap.

(** [abs(c - player.position.c) > r] for an [int] or integral [float] [c]. *)
Definition away (c : Z) (pc : float) (r : Z) : bool :=
  F32.gtb (F32.abs (F32.sub (F32.of_Z c) pc)) (F32.of_Z r).

(** The interior walls: [n] draws of a cell from the sequence [rnd] of
    [rand()] results, starting at its index [k]. *)
Fixpoint place_walls (rnd : nat → Z) (p : Player.t) (k n : nat) (worldMap : Grid) : Grid :=
  match n with
  | O => worldMap
  | S n' =>
      let x := Z.rem (rnd k) (MAP_WIDTH - 2) + 1 in
      let y := Z.rem (rnd (S k)) (MAP_HEIGHT - 2) + 1 in
      let pp := Player.position p in
      place_walls rnd p (S (S k)) n'
        (if away x (Vec2.x pp) 3 || away y (Vec2.y pp) 3
         then set_cell worldMap x y 1 else worldMap)
  end.

(** The enemies: [n] draws, each kept when far enough from the player. *)
Fixpoint place_enemies (rnd : nat → Z) (p : Player.t) (k n : nat) : list Enemy.t :=
  match n with
  | O => []
  | S n' =>
      let x := Z.rem (rnd k) (MAP_WIDTH - 4) + 2 in
      let y := Z.rem (rnd (S k)) (MAP_HEIGHT - 4) + 2 in
      let pp := Player.position p in
      (if away x (Vec2.x pp) 5 || away y (Vec2.y pp) 5
       then [Enemy.new (F32.of_Z x) (F32.of_Z y)] else [])
      ++ place_enemies rnd p (S (S k)) n'
  end.

(** [Game::Game], for the sequence [rnd] of values [rand()] returns.  The
    constructor leaves [lastMousePos] unset; it is read only after a left
    click has stored the cursor position in it. *)
Definition new_game (L : Libm) (rnd : nat → Z) : Game.t :=
  let p := Player.init in
  let tables := initTrigTables L in
  Game.mk p (place_enemies rnd p 100 5) (place_walls rnd p 0 50 border_map)
          (0, 0) false false 0 tables.1 tables.2.

(** The window procedure's two mouse messages. *)
Definition on_lbuttondown (cursorPos : Z * Z) (g : Game.t) : Game.t :=
  if Game.mouseCaptured g then g
  else Game.mk (Game.player g) (Game.enemies g) (Game.worldMap g) cursorPos true
               (Game.gameOver g) (Game.frameCount g) (Game.sinTable g) (Game.cosTable g).

Definition on_rbuttondown (g : Game.t) : Game.t :=
  Game.mk (Game.player g) (Game.enemies g) (Game.worldMap g) (Game.lastMousePos g) false
          (Game.gameOver g) (Game.frameCount g) (Game.sinTable g) (Game.cosTable g).

(** ** The wall pass of [Game::renderScene] *)

(** The variables of the DDA loop.  [deltaDistX], [deltaDistY], [stepX] and
    [stepY] are fixed before the loop and travel with the state. *)
Record Dda := {
  mapX : Z;
  mapY : Z;
  sideDistX : float;
  sideDistY : float;
  side : Z;
  deltaDistX : float;
  deltaDistY : float;
  stepX : Z;
  stepY : Z
}.

(** "Jump to next map square": the first statement of the loop body. *)
Definition dda_jump (d : Dda) : option Dda :=
  if F32.ltb (sideDistX d) (sideDistY d) then
    mx ← as_int (mapX d + stepX d);
    Some {| mapX := mx; mapY := mapY d;
            sideDistX := F32.add (sideDistX d) (deltaDistX d);
            sideDistY := sideDistY d; side := 0;
            deltaDistX := deltaDistX d; deltaDistY := deltaDistY d;
            stepX := stepX d; stepY := stepY d |}
  else
    my ← as_int (mapY d + stepY d);
    Some {| mapX := mapX d; mapY := my;
            sideDistX := sideDistX d;
            sideDistY := F32.add (sideDistY d) (deltaDistY d); side := 1;
            deltaDistX := deltaDistX d; deltaDistY := deltaDistY d;
            stepX := stepX d; stepY := stepY d |}.

(** "Check if ray hit a wall": the guarded read of [worldMap]. *)
Definition dda_hit (worldMap : Grid) (d : Dda) : option bool :=
  if (0 <=? mapX d) && (0 <=? mapY d) && (mapX d <? MAP_WIDTH) && (mapY d <? MAP_HEIGHT)
  then c ← cell worldMap (mapX d) (mapY d); Some (0 <? c)
  else Some false.

(** How a run of the loop [while (hit == 0)] ends within a number of
    iterations: with a hit, still running, or in undefined behaviour. *)
Inductive Walk :=
| Hit (d : Dda)
| Running
| Undefined.

Fixpoint dda_walk (fuel : nat) (worldMap : Grid) (d : Dda) : Walk :=
  match fuel with
  | O => Running
  | S fuel' =>
      match dda_jump d with
      | None => Undefined
      | Some d' =>
          match dda_hit worldMap d' with
          | None => Undefined
          | Some true => Hit d'
          | Some false => dda_walk fuel' worldMap d'
          end
      end
  end.

(** The ray of view column [x] and the loop's initial state. *)
Definition rayDir (p : Player.t) (x : Z) : Vec2.t :=
  let cameraX := F32.sub (F32.div (F32.mul (F32.of_Z 2) (F32.of_Z x)) (F32.of_Z RAY_WIDTH))
                         F32.one in
  Vec2.mk (F32.add (Vec2.x (Player.direction p)) (F32.mul (Vec2.x (Player.plane p)) cameraX))
          (F32.add (Vec2.y (Player.direction p)) (F32.mul (Vec2.y (Player.plane p)) cameraX)).

Definition deltaDist (r : float) : float :=
  if F32.eqb r F32.zero then f1e30 else F32.abs (F32.div F32.one r).

Definition dda_init (p : Player.t) (x : Z) : option Dda :=
  let pos := Player.position p in
  let ray := rayDir p x in
  mx ← to_int (Vec2.x pos);
  my ← to_int (Vec2.y pos);
  let ddx := deltaDist (Vec2.x ray) in
  let ddy := deltaDist (Vec2.y ray) in
  let negx := F32.ltb (Vec2.x ray) F32.zero in
  let negy := F32.ltb (Vec2.y ray) F32.zero in
  Some {| mapX := mx; mapY := my;
          sideDistX :=
            if negx then F32.mul (F32.sub (Vec2.x pos) (F32.of_Z mx)) ddx
            else F32.mul (F32.sub (F32.add (F32.of_Z mx) F32.one) (Vec2.x pos)) ddx;
          sideDistY :=
            if negy then F32.mul (F32.sub (Vec2.y pos) (F32.of_Z my)) ddy
            else F32.mul (F32.sub (F32.add (F32.of_Z my) F32.one) (Vec2.y pos)) ddy;
          side := 0;
          deltaDistX := ddx; deltaDistY := ddy;
          stepX := if negx then -1 else 1;
          stepY := if negy then -1 else 1 |}.

(** What the wall pass computes for one view column. *)
Record Slice := {
  perpWallDist : float;
  hitSide : Z;
  lineHeight : Z;
  drawStart : Z;
  drawEnd : Z;
  texX : Z
}.

(** The distance to the wall before and after the minimum-distance clamp. *)
Definition raw_perp (d : Dda) : float :=
  if side d =? 0 then F32.sub (sideDistX d) (deltaDistX d)
  else F32.sub (sideDistY d) (deltaDistY d).

Definition clamp_perp (d : Dda) : float := F32.max (raw_perp d) f0_05.

(** "X coordinate in the texture", before the two mirroring statements. *)
Definition texX_raw (p : Player.t) (ray : Vec2.t) (d : Dda) : option Z :=
  let perp := clamp_perp d in
  let wallX := if side d =? 0
               then F32.add (Vec2.y (Player.position p)) (F32.mul perp (Vec2.y ray))
               else F32.add (Vec2.x (Player.position p)) (F32.mul perp (Vec2.x ray)) in
  let wallX := F32.sub wallX (F32.floor wallX) in
  to_int (F32.mul wallX (F32.of_Z CELL_SIZE)).

(** The two mirroring statements. *)
Definition mirror_texX (ray : Vec2.t) (d : Dda) (tx : Z) : Z :=
  let tx := if (side d =? 0) && F32.gtb (Vec2.x ray) F32.zero
            then CELL_SIZE - tx - 1 else tx in
  if (side d =? 1) && F32.ltb (Vec2.y ray) F32.zero
  then CELL_SIZE - tx - 1 else tx.

(** Everything after the loop, up to the texture column. *)
Definition slice_of (p : Player.t) (x : Z) (d : Dda) : option Slice :=
  let ray := rayDir p x in
  let perp := clamp_perp d in
  lh ← to_int (F32.div (F32.of_Z SCREEN_HEIGHT) perp);
  let lh := Z.min lh (SCREEN_HEIGHT * 10) in
  let ds := Z.quot (- lh) 2 + Z.quot SCREEN_HEIGHT 2 in
  let ds := if ds <? 0 then 0 else ds in
  let de := Z.quot lh 2 + Z.quot SCREEN_HEIGHT 2 in
  let de := if SCREEN_HEIGHT <=? de then SCREEN_HEIGHT - 1 else de in
  tx ← texX_raw p ray d;
  Some {| perpWallDist := perp; hitSide := side d; lineHeight := lh;
          drawStart := ds; drawEnd := de; texX := mirror_texX ray d tx |}.

(** The ray cast of view column [x], given [fuel] iterations of the loop.
    [None] stands for undefined behaviour and for a loop that is still
    running after [fuel] iterations. *)
Definition castRay (fuel : nat) (worldMap : Grid) (p : Player.t) (x : Z) : option Slice :=
  d0 ← dda_init p x;
  match dda_walk fuel worldMap d0 with
  | Hit d => slice_of p x d
  | _ => None
  end.

(** [zBuffer[screenX] = v] on the 800-slot buffer. *)
Definition zwrite (zBuffer : list float) (screenX : Z) (v : float) : option (list float) :=
  if (0 <=? screenX) && (Z.to_nat screenX <? length zBuffer)%nat
  then Some (<[Z.to_nat screenX := v]> zBuffer) else None.

(** The loop "for each scaled ray", from [screenX] on, as far as it stores
    depths; [n] bounds the iterations left.  The wall, ceiling and floor
    pixels it paints are those of [paint_span]. *)
Fixpoint store_depth (n : nat) (limit perp : float) (screenX : Z) (zBuffer : list float)
  : option (list float) :=
  match n with
  | O => Some zBuffer
  | S n' =>
      if F32.ltb (F32.of_Z screenX) limit then
        if SCREEN_WIDTH <=? screenX then Some zBuffer
        else zb ← zwrite zBuffer screenX perp;
             store_depth n' limit perp (screenX + 1) zb
      else Some zBuffer
  end.

(** The body of the loop over view columns. *)
Definition render_column (fuel : nat) (worldMap : Grid) (p : Player.t) (x : Z)
  (zBuffer : list float) : option (list float) :=
  s ← castRay fuel worldMap p x;
  first ← to_int (F32.mul (F32.of_Z x) RAY_SCALE);
  store_depth (Z.to_nat SCREEN_WIDTH)
              (F32.mul (F32.of_Z (x + 1)) RAY_SCALE) (perpWallDist s) first zBuffer.

(** "Clear Z-buffer". *)
Definition clear_zBuffer : list float :=
  replicate (Z.to_nat SCREEN_WIDTH) F32.FLT_MAX.

(** The loop over the view columns [x], [x+1], ... ([n] of them). *)
Fixpoint render_columns (fuel : nat) (worldMap : Grid) (p : Player.t) (n : nat) (x : Z)
  (zBuffer : list float) : option (list float) :=
  match n with
  | O => Some zBuffer
  | S n' =>
      zb ← render_column fuel worldMap p x zBuffer;
      render_columns fuel worldMap p n' (x + 1) zb
  end.

(** The wall pass: the depth buffer it leaves for the sprite pass. *)
Definition wall_pass (fuel : nat) (g : Game.t) : option (list float) :=
  render_columns fuel (Game.worldMap g) (Game.player g) (Z.to_nat RAY_WIDTH) 0 clear_zBuffer.

(** ** The sprite pass: [Game::renderSprites] *)

(** The enemy texture of [Game::createTextures], at texture cell [(x, y)]. *)
Definition enemy_texel (x y : Z) : Z :=
  let dx := F32.of_Z (x - Z.quot CELL_SIZE 2) in
  let dy := F32.of_Z (y - Z.quot CELL_SIZE 2) in
  let dist := F32.sqrt (F32.add (F32.mul dx dx) (F32.mul dy dy)) in
  if F32.ltb dist (F32.of_Z (Z.quot CELL_SIZE 3)) then 0xFFFF0000
  else if F32.ltb dist (F32.of_Z (Z.quot CELL_SIZE 2)) then 0x88FF0000
  else 0.

(** [textureEnemy], laid out as [textureEnemy[y * CELL_SIZE + x]]. *)
Definition textureEnemy : list Z :=
  Eval vm_compute in
    (λ i, enemy_texel (Z.of_nat i mod CELL_SIZE) (Z.of_nat i / CELL_SIZE))
      <$> seq 0 (Z.to_nat (CELL_SIZE * CELL_SIZE)).

(** [textureEnemy[i]]. *)
Definition texture_at (i : Z) : option Z :=
  if 0 <=? i then textureEnemy !! Z.to_nat i else None.

(** One store [renderBuffer[index] = texel]. *)
Record Store := { index : Z; texel : Z }.

(** The screen column of a frame-buffer index. *)
Definition column (i : Z) : Z := i mod SCREEN_WIDTH.

(** What is fixed for one sprite before its pixel loops. *)
Record Sprite := {
  transformY : float;
  spriteWidth : Z;
  spriteHeight : Z;
  spriteScreenX : Z;
  drawStartX : Z;
  drawEndX : Z;
  drawStartY : Z;
  drawEndY : Z;
  step : Z
}.

(** The stores of one sampled pixel: the pixel, and with the coarse step the
    three neighbours that fill the gaps. *)
Definition pixel_stores (s : Sprite) (x y tx : Z) : option (list Store) :=
  ty ← int_div ((y - drawStartY s) * CELL_SIZE) (spriteHeight s);
  t ← texture_at (ty * CELL_SIZE + tx);
  if Z.land t 0xFF000000 =? 0 then Some []
  else
    Some ([ {| index := y * SCREEN_WIDTH + x; texel := t |} ]
          ++ (if 1 <? step s then
                (if (x + 1 <? drawEndX s) && (x + 1 <? SCREEN_WIDTH)
                 then [ {| index := y * SCREEN_WIDTH + x + 1; texel := t |} ] else [])
                ++ (if (y + 1 <? drawEndY s) && (y + 1 <? SCREEN_HEIGHT)
                    then [ {| index := (y + 1) * SCREEN_WIDTH + x; texel := t |} ] else [])
                ++ (if (x + 1 <? drawEndX s) && (y + 1 <? drawEndY s)
                       && (x + 1 <? SCREEN_WIDTH) && (y + 1 <? SCREEN_HEIGHT)
                    then [ {| index := (y + 1) * SCREEN_WIDTH + x + 1; texel := t |} ]
                    else [])
              else [])).

(** The inner loop over [y], from [y] on; [n] bounds the iterations left
    (the step is at least 1, so [drawEndY - drawStartY] of them suffice). *)
Fixpoint column_stores (n : nat) (s : Sprite) (x tx y : Z) : option (list Store) :=
  match n with
  | O => Some []
  | S n' =>
      if y <? drawEndY s then
        here ← (if (y <? 0) || (SCREEN_HEIGHT <=? y) then Some []
                else pixel_stores s x y tx);
        rest ← column_stores n' s x tx (y + step s);
        Some (here ++ rest)
      else Some []
  end.

(** The body of the outer loop for column [x]. *)
Definition sprite_column (zBuffer : list float) (s : Sprite) (x : Z) : option (list Store) :=
  if (x <? 0) || (SCREEN_WIDTH <=? x) then Some []
  else
    depth ← zBuffer !! Z.to_nat x;
    if F32.gtb (transformY s) depth then Some []
    else
      tx ← int_div ((x - (Z.quot (- spriteWidth s) 2 + spriteScreenX s)) * CELL_SIZE)
                   (spriteWidth s);
      column_stores (Z.to_nat (drawEndY s - drawStartY s)) s x tx (drawStartY s).

(** The outer loop over [x], from [x] on. *)
Fixpoint sprite_stores (n : nat) (zBuffer : list float) (s : Sprite) (x : Z)
  : option (list Store) :=
  match n with
  | O => Some []
  | S n' =>
      if x <? drawEndX s then
        here ← sprite_column zBuffer s x;
        rest ← sprite_stores n' zBuffer s (x + step s);
        Some (here ++ rest)
      else Some []
  end.

(** The projection of one enemy: [None] inside [Some] when the sprite is
    skipped (behind the camera or off screen). *)
Definition project (p : Player.t) (e : Enemy.t) : option (option Sprite) :=
  let pos := Player.position p in
  let dir := Player.direction p in
  let pl := Player.plane p in
  let spriteX := F32.sub (Vec2.x (Enemy.position e)) (Vec2.x pos) in
  let spriteY := F32.sub (Vec2.y (Enemy.position e)) (Vec2.y pos) in
  let invDet := F32.div F32.one
    (F32.sub (F32.mul (Vec2.x pl) (Vec2.y dir)) (F32.mul (Vec2.x dir) (Vec2.y pl))) in
  let transformX := F32.mul invDet
    (F32.sub (F32.mul (Vec2.y dir) spriteX) (F32.mul (Vec2.x dir) spriteY)) in
  let tY := F32.mul invDet
    (F32.add (F32.mul (F32.neg (Vec2.y pl)) spriteX) (F32.mul (Vec2.x pl) spriteY)) in
  if F32.leb tY f0_1 then Some None
  else
    ssx ← to_int (F32.mul (F32.of_Z (Z.quot SCREEN_WIDTH 2))
                          (F32.add F32.one (F32.div transformX tY)));
    size ← to_int (F32.div (F32.of_Z SCREEN_HEIGHT) tY);
    let sh := Z.abs size in
    let sw := Z.abs size in
    let sh := if SCREEN_HEIGHT * 2 <? sh then SCREEN_HEIGHT * 2 else sh in
    let sw := if SCREEN_WIDTH * 2 <? sw then SCREEN_WIDTH * 2 else sw in
    let dsy := Z.quot (- sh) 2 + Z.quot SCREEN_HEIGHT 2 in
    let dsy := if dsy <? 0 then 0 else dsy in
    let dey := Z.quot sh 2 + Z.quot SCREEN_HEIGHT 2 in
    let dey := if SCREEN_HEIGHT <=? dey then SCREEN_HEIGHT - 1 else dey in
    let dsx := Z.quot (- sw) 2 + ssx in
    let dsx := if dsx <? 0 then 0 else dsx in
    let dex := Z.quot sw 2 + ssx in
    let dex := if SCREEN_WIDTH <=? dex then SCREEN_WIDTH - 1 else dex in
    if (dex <? 0) || (SCREEN_WIDTH <=? dsx) then Some None
    else
      Some (Some {| transformY := tY; spriteWidth := sw; spriteHeight := sh;
                    spriteScreenX := ssx;
                    drawStartX := dsx; drawEndX := dex;
                    drawStartY := dsy; drawEndY := dey;
                    step := if Z.quot SCREEN_HEIGHT 2 <? sh then 2 else 1 |}).

(** The body of the loop "draw sprites from furthest to nearest" for one
    enemy: the stores it makes into [renderBuffer], in order. *)
Definition draw_sprite (zBuffer : list float) (p : Player.t) (e : Enemy.t)
  : option (list Store) :=
  if Enemy.isDead e then Some []
  else
    ps ← project p e;
    match ps with
    | None => Some []
    | Some s => sprite_stores (Z.to_nat (drawEndX s - drawStartX s)) zBuffer s (drawStartX s)
    end.

(** The squared distance [renderSprites] culls and sorts by. *)
Definition sprite_dist (p : Player.t) (e : Enemy.t) : float :=
  let dx := F32.sub (Vec2.x (Enemy.position e)) (Vec2.x (Player.position p)) in
  let dy := F32.sub (Vec2.y (Enemy.position e)) (Vec2.y (Player.position p)) in
  F32.add (F32.mul dx dx) (F32.mul dy dy).

(** [spriteOrder]: the enemies kept by the cull, with their distances. *)
Definition spriteOrder (p : Player.t) (es : list Enemy.t) : list (float * Enemy.t) :=
  omap (λ e, let dist := sprite_dist p e in
             if F32.gtb dist f400_0 || Enemy.isDead e then None else Some (dist, e)) es.

(** The sort "from far to near".  [std::sort] leaves the order of equal keys
    open; on ranges as short as this one it is commonly an insertion sort,
    which keeps equal keys in list order, and so does this one: an element
    goes behind the elements that are strictly farther, and before the
    rest. *)
Fixpoint insert_far (a : float * Enemy.t) (l : list (float * Enemy.t))
  : list (float * Enemy.t) :=
  match l with
  | [] => [a]
  | b :: l' => if F32.gtb b.1 a.1 then b :: insert_far a l' else a :: l
  end.

Definition sort_far (l : list (float * Enemy.t)) : list (float * Enemy.t) :=
  foldr insert_far [] l.

(** [Game::renderSprites]: every store into [renderBuffer], in order. *)
Definition renderSprites (zBuffer : list float) (g : Game.t) : option (list Store) :=
  (λ stores, concat stores) <$> mapM (λ a, draw_sprite zBuffer (Game.player g) a.2)
                  (sort_far (spriteOrder (Game.player g) (Game.enemies g))).

(** [Game::renderScene]: the wall pass, then [renderSprites] on its depth
    buffer.  The result is the depth buffer and the sprite stores. *)
Definition renderScene (fuel : nat) (g : Game.t) : option (list float * list Store) :=
  zBuffer ← wall_pass fuel g;
  stores ← renderSprites zBuffer g;
  Some (zBuffer, stores).

(** Whether a list of stores touches screen column [c]. *)
Definition drawn_at (stores : list Store) (c : Z) : bool :=
  existsb (λ w, column (index w) =? c) stores.

(** For the frame of a game with one enemy: whether the wall at column [c]
    is nearer than the sprite ([transformY > zBuffer[c]]), and whether the
    sprite pass stores into column [c]. *)
Definition occlusion_report (c : Z) (g : Game.t) : option (bool * bool) :=
  r ← renderScene 50 g;
  e ← Game.enemies g !! 0%nat;
  ps ← project (Game.player g) e;
  s ← ps;
  depth ← r.1 !! Z.to_nat c;
  Some (F32.gtb (transformY s) depth, drawn_at r.2 c).

(** ** The pixels of the wall pass *)

(** The wall texture of [Game::createTextures], at texture cell [(x, y)]. *)
Definition wall_texel (x y : Z) : Z :=
  let pattern := Z.rem (Z.quot x 8 + Z.quot y 8) 2 in
  if pattern =? 0 then 0xFF888888 else 0xFF0000FF.

(** [textureWall], laid out as [textureWall[y * CELL_SIZE + x]]. *)
Definition textureWall : list Z :=
  Eval vm_compute in
    (λ i, wall_texel (Z.of_nat i mod CELL_SIZE) (Z.of_nat i / CELL_SIZE))
      <$> seq 0 (Z.to_nat (CELL_SIZE * CELL_SIZE)).

(** [textureWall[i]]. *)
Definition wall_texture_at (i : Z) : option Z :=
  if 0 <=? i then textureWall !! Z.to_nat i else None.

(** [unsigned int]: arithmetic modulo [2^32], and the conversion from a
    [double], undefined when the truncated value does not fit. *)
Definition u32 (z : Z) : Z := z mod 2 ^ 32.

Definition to_uint (f : float) : option Z :=
  z ← trunc f; if (0 <=? z) && (z <? 2 ^ 32) then Some z else None.

(** The [double] literal [0.7]. *)
Definition d0_7 : float := F64.div (F64.of_Z 7) (F64.of_Z 10).

(** [c = c * 0.7] on an [unsigned int] colour channel. *)
Definition dim (c : Z) : option Z := to_uint (F64.mul (F64.of_Z c) d0_7).

(** "Darken one side for 3D effect". *)
Definition darken (t : Z) : option Z :=
  r ← dim (Z.land (Z.shiftr t 16) 0xFF);
  g ← dim (Z.land (Z.shiftr t 8) 0xFF);
  b ← dim (Z.land t 0xFF);
  Some (Z.lor (Z.lor (Z.lor (u32 (Z.shiftl 0xFF 24)) (u32 (Z.shiftl r 16)))
                     (u32 (Z.shiftl g 8))) b).

Definition ceilingColor : Z := 0xFF333333.
Definition floorColor : Z := 0xFF444444.

(** The body of the loop "draw the wall slice" for row [y]. *)
Definition wall_pixel (s : Slice) (screenX y : Z) : option Store :=
  texY ← to_int (F32.mul (F32.div (F32.of_Z (y - drawStart s)) (F32.of_Z (lineHeight s)))
                         (F32.of_Z CELL_SIZE));
  t ← wall_texture_at (texY * CELL_SIZE + texX s);
  t ← (if hitSide s =? 1 then darken t else Some t);
  Some {| index := y * SCREEN_WIDTH + screenX; texel := t |}.

(** The three loops over [y] for screen column [screenX]: the wall rows
    [drawStart .. drawEnd - 1], the ceiling rows [0 .. drawStart - 1] and the
    floor rows [drawEnd + 1 .. SCREEN_HEIGHT - 1]. *)
Definition paint_column (s : Slice) (screenX : Z) : option (list Store) :=
  wall ← mapM (wall_pixel s screenX) (seqZ (drawStart s) (drawEnd s - drawStart s));
  let ceiling := (λ y, {| index := y * SCREEN_WIDTH + screenX; texel := ceilingColor |})
                   <$> seqZ 0 (drawStart s) in
  let floor := (λ y, {| index := y * SCREEN_WIDTH + screenX; texel := floorColor |})
                 <$> seqZ (drawEnd s + 1) (SCREEN_HEIGHT - (drawEnd s + 1)) in
  Some (wall ++ ceiling ++ floor).

(** The loop "for each scaled ray", from [screenX] on, as far as it stores
    pixels; [n] bounds the iterations left.  A negative [screenX] is an
    index outside [zBuffer]. *)
Fixpoint paint_span (n : nat) (limit : float) (s : Slice) (screenX : Z)
  : option (list Store) :=
  match n with
  | O => Some []
  | S n' =>
      if F32.ltb (F32.of_Z screenX) limit then
        if SCREEN_WIDTH <=? screenX then Some []
        else if screenX <? 0 then None
        else
          here ← paint_column s screenX;
          rest ← paint_span n' limit s (screenX + 1);
          Some (here ++ rest)
      else Some []
  end.

(** The stores into [renderBuffer] of the loop body for view column [x]. *)
Definition paint_view_column (fuel : nat) (worldMap : Grid) (p : Player.t) (x : Z)
  : option (list Store) :=
  s ← castRay fuel worldMap p x;
  first ← to_int (F32.mul (F32.of_Z x) RAY_SCALE);
  paint_span (Z.to_nat SCREEN_WIDTH) (F32.mul (F32.of_Z (x + 1)) RAY_SCALE) s first.

(** ** The head-up display: [Game::renderHUD] *)

(** Two nested loops that fill the rectangle [x0 <= x < x1], [y0 <= y < y1]
    row by row. *)
Definition fill_rect (x0 x1 y0 y1 color : Z) : list Store :=
  y ← seqZ y0 (y1 - y0);
  x ← seqZ x0 (x1 - x0);
  [ {| index := y * SCREEN_WIDTH + x; texel := color |} ].

(** The crosshair: a horizontal and a vertical line through the centre. *)
Definition crosshair : list Store :=
  let crosshairSize := 10 in
  let centerX := Z.quot SCREEN_WIDTH 2 in
  let centerY := Z.quot SCREEN_HEIGHT 2 in
  (x ← seqZ (centerX - crosshairSize) (2 * crosshairSize + 1);
   if (0 <=? x) && (x <? SCREEN_WIDTH)
   then [ {| index := centerY * SCREEN_WIDTH + x; texel := 0xFFFFFFFF |} ] else [])
  ++ (y ← seqZ (centerY - crosshairSize) (2 * crosshairSize + 1);
      if (0 <=? y) && (y <? SCREEN_HEIGHT)
      then [ {| index := y * SCREEN_WIDTH + centerX; texel := 0xFFFFFFFF |} ] else []).

(** [Game::renderHUD]: every store into [renderBuffer], in order.  The
    product [player.health * healthBarWidth] is an [int]. *)
Definition renderHUD (g : Game.t) : option (list Store) :=
  let healthBarWidth := 200 in
  let healthBarHeight := 20 in
  let healthBarX := 20 in
  let healthBarY := SCREEN_HEIGHT - 40 in
  let background :=
    fill_rect healthBarX (healthBarX + healthBarWidth)
              healthBarY (healthBarY + healthBarHeight) 0xFF222222 in
  scaled ← as_int (Player.health (Game.player g) * healthBarWidth);
  let fillWidth := Z.quot scaled 100 in
  let fill :=
    fill_rect healthBarX (healthBarX + fillWidth)
              healthBarY (healthBarY + healthBarHeight) 0xFF00FF00 in
  let banner :=
    if Game.gameOver g then
      let textWidth := 9 * 20 in
      let textX := Z.quot (SCREEN_WIDTH - textWidth) 2 in
      let textY := Z.quot SCREEN_HEIGHT 2 in
      fill_rect textX (textX + textWidth) textY (textY + 40) 0xFFFF0000
    else [] in
  Some (background ++ fill
        ++ (if Player.hasWeapon (Game.player g) then crosshair else [])
        ++ banner).

(** The colour a list of stores leaves in [renderBuffer[i]]: that of the
    last store to [i], if there is one. *)
Fixpoint shown (stores : list Store) (i : Z) : option Z :=
  match stores with
  | [] => None
  | w :: rest =>
      match shown rest i with
      | Some t => Some t
      | None => if index w =? i then Some (texel w) else None
      end
  end.

(** ** A frame: [Game::render] *)

(** The pixels of the wall pass, view column after view column. *)
Definition paint_walls (fuel : nat) (g : Game.t) : option (list Store) :=
  (λ columns, concat columns)
    <$> mapM (paint_view_column fuel (Game.worldMap g) (Game.player g)) (seqZ 0 RAY_WIDTH).

(** [Game::render], up to the blit: every store into [renderBuffer], in
    order: the walls, the sprites, the head-up display. *)
Definition render (fuel : nat) (g : Game.t) : option (list Store) :=
  walls ← paint_walls fuel g;
  scene ← renderScene fuel g;
  hud ← renderHUD g;
  Some (walls ++ scene.2 ++ hud).

(** ** Runs of the program *)

(** What reaches the game between two frames: the tick of the game loop
    with the input it polls, and the two mouse messages of the window
    procedure. *)
Inductive Event :=
| Tick (i : Input)
| LButtonDown (cursorPos : Z * Z)
| RButtonDown.

Definition dispatch (L : Libm) (ev : Event) (g : Game.t) : option Game.t :=
  match ev with
  | Tick i => update L i g
  | LButtonDown c => Some (on_lbuttondown c g)
  | RButtonDown => Some (on_rbuttondown g)
  end.

Fixpoint run (L : Libm) (evs : list Event) (g : Game.t) : option Game.t :=
  match evs with
  | [] => Some g
  | ev :: evs' => g' ← dispatch L ev g; run L evs' g'
  end.

(** [rand()] returns a value between 0 and [RAND_MAX]. *)
Definition rand_ok (rnd : nat → Z) : Prop := ∀ k, 0 <= rnd k.

(** What [f] shows of the game after the events [evs], started in the world
    drawn from [rnd]. *)
Definition observe {A : Type} (f : Game.t → A) (L : Libm) (rnd : nat → Z)
  (evs : list Event) : option A :=
  f <$> run L evs (new_game L rnd).

(** The part of the game the renderer reads besides the enemies. *)
Definition camera (g : Game.t) : Player.t * Grid := (Game.player g, Game.worldMap g).

(** The states the program can be in at the end of a frame. *)
Definition reachable (L : Libm) (g : Game.t) : Prop :=
  ∃ rnd evs, rand_ok rnd ∧ run L evs (new_game L rnd) = Some g.

(** The grid cell a position lies in. *)
Definition cell_of (v : Vec2.t) : option (Z * Z) :=
  i ← to_int (Vec2.x v); j ← to_int (Vec2.y v); Some (i, j).

Definition player_cell (g : Game.t) : option (Z * Z) :=
  cell_of (Player.position (Game.player g)).

(** [g] with another list of enemies. *)
Definition set_enemies (g : Game.t) (es : list Enemy.t) : Game.t :=
  Game.mk (Game.player g) es (Game.worldMap g) (Game.lastMousePos g)
          (Game.mouseCaptured g) (Game.gameOver g) (Game.frameCount g)
          (Game.sinTable g) (Game.cosTable g).

(** The enemy [Game::shootWeapon] looks for: alive, in the cone, in range. *)
Definition is_target (L : Libm) (p : Player.t) (e : Enemy.t) : bool :=
  negb (Enemy.isDead e) && in_sights L p e.

(** A grid of the declared size whose border cells are all solid. *)
Definition bordered (worldMap : Grid) : Prop :=
  ∀ i j, 0 <= i < MAP_WIDTH → 0 <= j < MAP_HEIGHT →
    ∃ c, cell worldMap i j = Some c ∧
         (i = 0 ∨ j = 0 ∨ i = MAP_WIDTH - 1 ∨ j = MAP_HEIGHT - 1 → 0 < c).

(** [bordered], as a test. *)
Definition bordered_b (worldMap : Grid) : bool :=
  forallb (λ i, forallb (λ j,
    match cell worldMap i j with
    | Some c => (0 <? c) || negb ((i =? 0) || (j =? 0) || (i =? MAP_WIDTH - 1)
                                  || (j =? MAP_HEIGHT - 1))
    | None => false
    end) (Z.of_nat <$> seq 0 (Z.to_nat MAP_HEIGHT)))
  (Z.of_nat <$> seq 0 (Z.to_nat MAP_WIDTH)).

(** A walk standing on a cell off the border, with unit steps. *)
Definition interior (d : Dda) : Prop :=
  1 <= mapX d <= MAP_WIDTH - 2 ∧ 1 <= mapY d <= MAP_HEIGHT - 2
  ∧ (stepX d = 1 ∨ stepX d = -1) ∧ (stepY d = 1 ∨ stepY d = -1).

(** The number of cells a walk can still cross before it meets the border
    row or column it is heading for. *)
Definition to_border (d : Dda) : Z :=
  (if stepX d =? 1 then MAP_WIDTH - 1 - mapX d else mapX d)
  + (if stepY d =? 1 then MAP_HEIGHT - 1 - mapY d else mapY d).

(** The player fields that movement and rotation leave alone. *)
Definition same_vitals (p p' : Player.t) : Prop :=
  Player.health p' = Player.health p ∧ Player.hasWeapon p' = Player.hasWeapon p.

(** The invariant behind the bounds on the player's health. *)
Definition health_inv (g : Game.t) : Prop :=
  (length (Game.enemies g) <= 5)%nat
  ∧ -4 <= Player.health (Game.player g) <= 100
  ∧ (Game.gameOver g = false → 1 <= Player.health (Game.player g)).

(** The float arithmetic of the loop "for each scaled ray" on view column
    [x]: it starts at screen column [4x] and runs while below [4x + 4]. *)
Definition span_ok (x : Z) : bool :=
  let limit := F32.mul (F32.of_Z (x + 1)) RAY_SCALE in
  match to_int (F32.mul (F32.of_Z x) RAY_SCALE) with
  | Some first =>
      (first =? 4 * x)
      && forallb (λ k, F32.ltb (F32.of_Z (4 * x + k)) limit) [0; 1; 2; 3]
      && negb (F32.ltb (F32.of_Z (4 * x + 4)) limit)
  | None => false
  end.

(** The depth buffer after the four stores of view column [x]. *)
Definition span_written (x : Z) (v : float) (zBuffer : list float) : list float :=
  <[Z.to_nat (4 * x + 3) := v]>
    (<[Z.to_nat (4 * x + 2) := v]>
      (<[Z.to_nat (4 * x + 1) := v]>
        (<[Z.to_nat (4 * x) := v]> zBuffer))).

(** Where a store into screen column [c] comes from: a sampled column [x],
    or with the coarse step the gap filling to its right. *)
Definition store_from (s : Sprite) (x c : Z) : Prop :=
  c = x ∨ (1 < step s ∧ c = x + 1).

(** The value of a finite float times [2^k], when that is an integer. *)
Definition scaled (k : Z) (f : float) : option Z :=
  match f with
  | S754_zero _ => Some 0
  | S754_finite s m e =>
      if 0 <=? e + k then Some (cond_Zopp s (Z.shiftl (Zpos m) (e + k))) else None
  | _ => None
  end.

(** The bearing of an enemy in exact arithmetic, on the coordinates read as
    the rational numbers they are: whether the enemy is in front of the
    player, off the facing direction by an angle whose tangent is below
    1/1000, and nearer than 8. *)
Definition dead_ahead (p : Player.t) (e : Enemy.t) : option bool :=
  dx ← scaled 30 (Vec2.x (Player.direction p));
  dy ← scaled 30 (Vec2.y (Player.direction p));
  px ← scaled 30 (Vec2.x (Player.position p));
  py ← scaled 30 (Vec2.y (Player.position p));
  ex ← scaled 30 (Vec2.x (Enemy.position e));
  ey ← scaled 30 (Vec2.y (Enemy.position e));
  let vx := ex - px in
  let vy := ey - py in
  let dot := dx * vx + dy * vy in
  let cross := dx * vy - dy * vx in
  Some ((0 <? dot) && (1000000 * (cross * cross) <? dot * dot)
        && (vx * vx + vy * vy <? 64 * 2 ^ 60)).

(** *** What the constructor and the ticks maintain *)

(** What [Game::Game] guarantees of one cell of the grid: it holds 0 or 1,
    1 on the border and 0 within three cells of the player's spawn cell. *)
Definition cell_ok (i j c : Z) : Prop :=
  (c = 0 ∨ c = 1)
  ∧ (i = 0 ∨ j = 0 ∨ i = MAP_WIDTH - 1 ∨ j = MAP_HEIGHT - 1 → c = 1)
  ∧ (2 <= i <= 8 → 2 <= j <= 8 → c = 0).

Definition grid_ok (worldMap : Grid) : Prop :=
  ∀ i j, 0 <= i < MAP_WIDTH → 0 <= j < MAP_HEIGHT →
    ∃ c, cell worldMap i j = Some c ∧ cell_ok i j c.

(** An enemy as the constructor places it: on an integer cell off the two
    outer rings, more than five cells from the player along one axis. *)
Definition spawned (e : Enemy.t) : Prop :=
  ∃ x y, 2 <= x <= MAP_WIDTH - 3 ∧ 2 <= y <= MAP_HEIGHT - 3 ∧ (11 <= x ∨ 11 <= y)
    ∧ e = Enemy.new (F32.of_Z x) (F32.of_Z y).

(** The enemy fields under the control of [Game::shootWeapon]. *)
Definition enemy_ok (e : Enemy.t) : Prop :=
  Enemy.speed e = f0_03
  ∧ (∃ k, 0 <= k <= 5 ∧ Enemy.health e = 10 * k)
  ∧ Enemy.isDead e = (Enemy.health e <=? 0).

(** A position in a cell off the border of the grid. *)
Definition inside (v : Vec2.t) : Prop :=
  ∃ i j, cell_of v = Some (i, j) ∧ 1 <= i <= MAP_WIDTH - 2 ∧ 1 <= j <= MAP_HEIGHT - 2.

(** The living enemies of [es] within reach of the player. *)
Definition contacts (p : Player.t) (es : list Enemy.t) : Z :=
  Z.of_nat (length (List.filter (in_contact p) es)).

(** The player fields that only [Player::rotate] writes. *)
Definition same_heading (p p' : Player.t) : Prop :=
  Player.direction p' = Player.direction p ∧ Player.plane p' = Player.plane p.

(** The player fields no part of [Game::update] writes. *)
Definition same_kit (p p' : Player.t) : Prop :=
  Player.moveSpeed p' = Player.moveSpeed p ∧ Player.rotSpeed p' = Player.rotSpeed p
  ∧ Player.hasWeapon p' = Player.hasWeapon p.

(** In a game that has run, the game is over exactly when the health is
    used up, and the weapon is never lost. *)
Definition hud_inv (g : Game.t) : Prop :=
  Game.gameOver g = (Player.health (Game.player g) <=? 0)
  ∧ Player.hasWeapon (Game.player g) = true.

(** *** What the renderer maintains *)

(** A store that lands on a pixel of the 800 x 600 frame buffer. *)
Definition on_screen (w : Store) : Prop :=
  ∃ x y, 0 <= x < SCREEN_WIDTH ∧ 0 <= y < SCREEN_HEIGHT ∧ index w = y * SCREEN_WIDTH + x.

(** A texel with a non-zero alpha byte. *)
Definition opaque (t : Z) : Prop := Z.land t 0xFF000000 ≠ 0.

(** The enemies [renderSprites] keeps: alive, and with a squared distance
    from the player that is not above 400. *)
Definition visible (p : Player.t) (e : Enemy.t) : bool :=
  negb (F32.gtb (sprite_dist p e) f400_0 || Enemy.isDead e).

(** A float that is not NaN and whose sign bit is clear. *)
Definition positive_sign (f : float) : Prop :=
  match f with
  | S754_zero s | S754_infinity s | S754_finite s _ _ => s = false
  | S754_nan => False
  end.

(** What [project] guarantees of the sprite it hands to the pixel loops:
    the loops advance, the columns drawn lie within the sprite's width from
    its left edge, and the rows drawn within its height. *)
Definition sprite_ok (s : Sprite) : Prop :=
  1 <= step s
  ∧ Z.quot (- spriteWidth s) 2 + spriteScreenX s <= drawStartX s
  ∧ drawEndX s - (Z.quot (- spriteWidth s) 2 + spriteScreenX s) <= spriteWidth s
  ∧ 0 <= drawStartY s
  ∧ drawEndY s - drawStartY s <= spriteHeight s.

(** What the wall pass stores into screen column [c] for the slice [s]: one
    pixel in a row other than [drawEnd], with the ceiling colour above the
    slice and the floor colour below it. *)
Definition painted (s : Slice) (c : Z) (w : Store) : Prop :=
  ∃ y, 0 <= y < SCREEN_HEIGHT ∧ y ≠ drawEnd s ∧ index w = y * SCREEN_WIDTH + c
    ∧ (y < drawStart s → texel w = ceilingColor)
    ∧ (drawEnd s < y → texel w = floorColor).

(** *** Inputs and worlds used as examples *)

Definition idle : Input := Build_Input false false false false false (0, 0).
Definition holdW : Input := Build_Input true false false false false (0, 0).
Definition holdD : Input := Build_Input false false false true false (0, 0).
Definition fire : Input := Build_Input false false false false true (0, 0).

(** Every wall draw gives cell (1, 1) and every enemy draw the cell (2, 2),
    which is too close to the player: the bordered map without enemies. *)
Definition rnd_plain : nat → Z := λ _, 0.

(** Wall draws as in [rnd_plain]; three enemies are drawn at (11, 5), the
    last two draws fall on the player's cell and are dropped. *)
Definition rnd_three (k : nat) : Z :=
  if (k <? 100)%nat then 0
  else if (k <? 106)%nat then (if Nat.even k then 9 else 3)
  else 3.

(** Every wall draw gives cell (4, 10); one enemy is drawn at (2, 11), the
    other draws fall on the player's cell. *)
Definition rnd_wall (k : nat) : Z :=
  if (k <? 100)%nat then (if Nat.even k then 3 else 9)
  else if (k =? 100)%nat then 0
  else if (k =? 101)%nat then 9
  else 3.

(** The player strafes right for 45 ticks, then stands for 41. *)
Definition strafe_then_wait : list Event :=
  replicate 45 (Tick holdD) ++ replicate 41 (Tick idle).

(** One tick from the end: health 1, an enemy 0.4 away, and the enemies due
    to move on the next tick. *)
Definition brink : Game.t :=
  Game.mk (Player.set_health Player.init 1)
          [Enemy.new (F32.lit 54 10) (F32.of_Z 5)]
          border_map (0, 0) false false 1 [] [].

(** [brink] after one idle tick. *)
Definition brink_over : Game.t :=
  Game.mk (Player.set_health Player.init 0)
          [Enemy.new (F32.lit 54 10) (F32.of_Z 5)]
          border_map (0, 0) false true 2 [] [].

(** A game with a dead enemy between two living ones. *)
Definition with_corpse : Game.t :=
  Game.mk Player.init
          [Enemy.new (F32.of_Z 3) (F32.of_Z 5);
           Enemy.mk (Vec2.mk (F32.lit 54 10) (F32.of_Z 5)) f0_03 0 true;
           Enemy.new (F32.of_Z 2) (F32.of_Z 5)]
          border_map (0, 0) false false 1 [] [].

(** A player looking west along the row [y = 5] from [x = 20], an enemy
    18 cells ahead, and a depth buffer with the walls 19 away. *)
Definition far_player : Player.t :=
  Player.set_position Player.init (Vec2.mk (F32.of_Z 20) (F32.of_Z 5)).

Definition far_enemy : Enemy.t := Enemy.new (F32.of_Z 2) (F32.of_Z 5).

Definition far_walls : list float := replicate (Z.to_nat SCREEN_WIDTH) (F32.of_Z 19).

(** A C library that agrees with [acos] at 1 ([acos(1.0f)] is [+0.0f]) and
    answers NaN elsewhere. *)
Definition libm_at_one : Libm :=
  {| sinf := λ _, S754_nan;
     cosf := λ _, S754_nan;
     acosf := λ v, if F32.eqb v F32.one then F32.zero else S754_nan |}.

(** A C library that answers with the floats nearest to the sine and the
    cosine at the angle of table slot 446, with 0 for [acos(1)] and with NaN,
    the domain error of [acos], above 1; it answers NaN elsewhere. *)
Definition libm_slot446 : Libm :=
  {| sinf := λ v, if F32.eqb v (table_angle 446) then S754_finite false 13220182 (-25)
                  else S754_nan;
     cosf := λ v, if F32.eqb v (table_angle 446) then S754_finite true 15420171 (-24)
                  else S754_nan;
     acosf := λ v, if F32.eqb v F32.one then F32.zero else S754_nan |}.

(** Every wall draw gives cell (1, 1); one enemy is drawn at (12, 2), the
    other draws fall on the player's cell. *)
Definition rnd_flank (k : nat) : Z :=
  if (k =? 100)%nat then 10 else if (k <? 102)%nat then 0 else 3.

(** The mouse is captured at (0, 0), one tick sees it at (355, 0), which
    turns the camera by table slot 446, and the capture is released; after
    twelve idle ticks the player fires. *)
Definition aim_then_fire : list Event :=
  [LButtonDown (0, 0);
   Tick (Build_Input false false false false false (355, 0));
   RButtonDown]
  ++ replicate 12 (Tick idle) ++ [Tick fire].

(** A C library that agrees with [acos] at the four arguments the enemies
    of [lined_up] give it: 1, -1, and the cosines of about 9.5 and 63
    degrees. *)
Definition libm_acos : Libm :=
  {| sinf := λ _, S754_nan;
     cosf := λ _, S754_nan;
     acosf := λ v,
       if F32.eqb v F32.one then F32.zero
       else if F32.eqb v (F32.of_Z (-1)) then S754_finite false 13176795 (-22)
       else if F32.eqb v (S754_finite false 16548943 (-24))
            then S754_finite false 11082963 (-26)
       else if F32.eqb v (S754_finite false 15005998 (-25))
            then S754_finite false 9287437 (-23)
       else S754_nan |}.

(** Seen from the spawn pose: an enemy behind the player, one 63 degrees off
    the facing direction, one straight ahead but 9 away, a dead one straight
    ahead, a living one 9.5 degrees off and 3 away, and a living one
    straight ahead. *)
Definition lined_up : list Enemy.t :=
  [Enemy.new (F32.of_Z 8) (F32.of_Z 5);
   Enemy.new (F32.of_Z 4) (F32.of_Z 7);
   Enemy.new (F32.of_Z (-4)) (F32.of_Z 5);
   Enemy.mk (Vec2.mk (F32.of_Z 3) (F32.of_Z 5)) f0_03 0 true;
   Enemy.new (F32.of_Z 2) (F32.lit 11 2);
   Enemy.new (F32.of_Z 3) (F32.of_Z 5)].

(** A C library that answers as at the angle 0 everywhere: no rotation
    turns the camera and every enemy is in the firing cone. *)
Definition libm_zero : Libm :=
  {| sinf := λ _, F32.zero; cosf := λ _, F32.one; acosf := λ _, F32.zero |}.

(** The game of [far_player] and [far_enemy]. *)
Definition far_game : Game.t :=
  Game.mk far_player [far_enemy] border_map (0, 0) false false 0 [] [].

(** The player backs away from the wall ahead for 150 ticks, then strafes
    for 70: to the cell (20, 12), far from every wall. *)
Definition back_and_aside : list Event :=
  replicate 150 (Tick (Build_Input false true false false false (0, 0)))
  ++ replicate 70 (Tick holdD).

(** * Properties *)

(** ** Integers and guarded steps *)

Lemma as_int_Some z z' : as_int z = Some z' → z' = z ∧ INT_MIN <= z <= INT_MAX.
Proof.
  unfold as_int, in_int. destruct (_ && _) eqn:E; [|discriminate].
  intros [= <-]. apply andb_true_iff in E as [?%Z.leb_le ?%Z.leb_le]. auto.
Qed.

Lemma as_int_small z : -100 <= z <= 100 → as_int z = Some z.
Proof.
  intros H. unfold as_int, in_int.
  replace (INT_MIN <=? z) with true by (symmetry; apply Z.leb_le; unfold INT_MIN; lia).
  replace (z <=? INT_MAX) with true by (symmetry; apply Z.leb_le; unfold INT_MAX; lia).
  reflexivity.
Qed.

Lemma when_Some {A} (c : bool) (f : A → option A) a a' (P : A → A → Prop) :
  (∀ x, P x x) → (∀ x y, f x = Some y → P x y) → when c f a = Some a' → P a a'.
Proof. intros Hr Hf. destruct c; simpl; [apply Hf|intros [= <-]; apply Hr]. Qed.

(** ** The simulation step *)

Lemma same_vitals_refl p : same_vitals p p.
Proof. split; reflexivity. Qed.

Lemma same_vitals_trans p q r : same_vitals p q → same_vitals q r → same_vitals p r.
Proof. intros [? ?] [? ?]. split; congruence. Qed.

Lemma movePlayer_vitals wm f s p p' :
  movePlayer wm f s p = Some p' → same_vitals p p'.
Proof.
  unfold movePlayer. intros H.
  apply bind_Some in H as (okx & _ & H). apply bind_Some in H as (oky & _ & [= <-]).
  destruct okx, oky; split; reflexivity.
Qed.

Lemma rotate_vitals st ct a p p' :
  Player.rotate st ct a p = Some p' → same_vitals p p'.
Proof.
  unfold Player.rotate. intros H.
  apply bind_Some in H as (c & _ & H). apply bind_Some in H as (s & _ & [= <-]).
  split; reflexivity.
Qed.

(** The enemy loop keeps the number of enemies and lowers the health by at
    most one per enemy. *)
Lemma update_enemies_bounds wm es : ∀ p p' es',
  update_enemies wm p es = Some (p', es') →
  length es' = length es ∧
  Player.health p - Z.of_nat (length es) <= Player.health p' <= Player.health p.
Proof.
  induction es as [|e es IH]; simpl; intros p p' es' H.
  - injection H as <- <-. simpl. lia.
  - apply bind_Some in H as (e' & He' & H). apply bind_Some in H as (q & Hq & H).
    apply bind_Some in H as ([q' qs] & Hr & H). simpl in H. injection H as <- <-.
    apply IH in Hr as [Hl Hh]. simpl. rewrite Hl. split; [reflexivity|].
    destruct (in_contact p e').
    + apply fmap_Some in Hq as (h & Hh' & ->).
      apply as_int_Some in Hh' as [-> _]. simpl in Hh. lia.
    + injection Hq as <-. lia.
Qed.

Lemma shootWeapon_length L p es : ∀ es',
  shootWeapon L p es = Some es' → length es' = length es.
Proof.
  induction es as [|e es IH]; simpl; intros es' H.
  - injection H as <-. reflexivity.
  - destruct (Enemy.isDead e).
    + apply fmap_Some in H as (r & Hr & ->). simpl. f_equal. auto.
    + destruct (in_sights L p e).
      * apply bind_Some in H as (e' & _ & [= <-]). reflexivity.
      * apply fmap_Some in H as (r & Hr & ->). simpl. f_equal. auto.
Qed.

(** What [update] does to a game that is not over: the player moves and
    turns, the enemies move on even frames, the weapon fires, and the game
    is over exactly when the health is used up. *)
Lemma update_running L i g g' :
  Game.gameOver g = false → update L i g = Some g' →
  ∃ p pes es,
    same_vitals (Game.player g) p ∧
    (pes = (p, Game.enemies g)
     ∨ update_enemies (Game.worldMap g) p (Game.enemies g) = Some pes) ∧
    (es = pes.2 ∨ shootWeapon L pes.1 pes.2 = Some es) ∧
    g' = Game.mk pes.1 es (Game.worldMap g) (Game.lastMousePos g) (Game.mouseCaptured g)
                 (Player.health pes.1 <=? 0) (Game.frameCount g + 1)
                 (Game.sinTable g) (Game.cosTable g).
Proof.
  intros Hrun. unfold update. rewrite Hrun. intros H.
  apply bind_Some in H as (p1 & H1 & H). apply bind_Some in H as (p2 & H2 & H).
  apply bind_Some in H as (p3 & H3 & H). apply bind_Some in H as (p4 & H4 & H).
  apply bind_Some in H as (p5 & H5 & H). apply bind_Some in H as (fc & Hfc & H).
  apply bind_Some in H as (pes & Hpes & H). apply bind_Some in H as (es & Hes & H).
  injection H as <-. apply as_int_Some in Hfc as [-> _].
  assert (Hm : ∀ c f s a a', when c (movePlayer (Game.worldMap g) f s) a = Some a' →
                same_vitals a a').
  { intros c f s a a'. apply when_Some; [apply same_vitals_refl|apply movePlayer_vitals]. }
  apply Hm in H1, H2, H3, H4.
  assert (H5' : same_vitals p4 p5).
  { revert H5. apply when_Some; [apply same_vitals_refl|].
    intros x y Hxy. apply bind_Some in Hxy as (dx & _ & Hxy).
    eapply rotate_vitals; eauto. }
  exists p5, pes, es. split; [|split; [|split]].
  - eauto using same_vitals_trans.
  - destruct (Z.rem _ 2 =? 0); [right; assumption|left; congruence].
  - destruct (_ && _); [right; assumption|left; congruence].
  - f_equal. destruct (Player.health pes.1 <=? 0); reflexivity.
Qed.

Lemma update_over L i g : Game.gameOver g = true → update L i g = Some g.
Proof. intros H. unfold update. rewrite H. reflexivity. Qed.

Lemma run_ticks_over L inputs : ∀ g,
  Game.gameOver g = true → run L (Tick <$> inputs) g = Some g.
Proof.
  induction inputs as [|i inputs IH]; intros g H; simpl; [reflexivity|].
  rewrite update_over by assumption. simpl. auto.
Qed.

(** C6.  A tick of a running game that ends with the player's health at or
    below zero ends with the game over, and from then on every tick, whatever
    its input, leaves the whole game state as it is (player pose, health,
    enemies, frame counter); a tick that ends with health 1 or more leaves
    the game running. *)
Theorem game_over_is_terminal L i g g' :
  Game.gameOver g = false → update L i g = Some g' →
  (Player.health (Game.player g') <= 0 →
     Game.gameOver g' = true ∧ ∀ inputs, run L (Tick <$> inputs) g' = Some g')
  ∧ (1 <= Player.health (Game.player g') → Game.gameOver g' = false).
Proof.
  intros Hrun Hup.
  destruct (update_running L i g g' Hrun Hup) as (p & pes & es & _ & _ & _ & ->).
  simpl. split; intros Hh.
  - assert (Hover : (Player.health pes.1 <=? 0) = true) by (apply Z.leb_le; lia).
    split; [assumption|]. intros inputs. apply run_ticks_over. assumption.
  - apply Z.leb_gt. lia.
Qed.

Lemma game_over_is_terminal_witness :
  update libm_at_one idle brink = Some brink_over
  ∧ Player.health (Game.player brink_over) = 0
  ∧ Game.gameOver brink_over = true
  ∧ ∀ inputs, run libm_at_one (Tick <$> inputs) brink_over = Some brink_over.
Proof.
  assert (H : update libm_at_one idle brink = Some brink_over)
    by (vm_compute; reflexivity).
  split; [exact H|]. split; [reflexivity|].
  apply (proj1 (game_over_is_terminal libm_at_one idle brink brink_over eq_refl H)).
  vm_compute. discriminate.
Defined.

(** *** Health *)

Lemma place_enemies_length rnd p n : ∀ k, (length (place_enemies rnd p k n) <= n)%nat.
Proof.
  induction n as [|n IH]; intros k; simpl; [lia|].
  rewrite length_app. specialize (IH (S (S k))).
  destruct (_ || _); simpl; lia.
Qed.

Lemma health_inv_new L rnd : health_inv (new_game L rnd).
Proof.
  split; [exact (place_enemies_length rnd Player.init 5 100)|].
  change (Player.health (Game.player (new_game L rnd))) with 100. lia.
Qed.

Lemma health_inv_update L i g g' :
  health_inv g → update L i g = Some g' → health_inv g'.
Proof.
  intros (Hn & Hh & Hlive) Hup.
  destruct (Game.gameOver g) eqn:Hover.
  - rewrite update_over in Hup by assumption. injection Hup as <-.
    unfold health_inv. rewrite Hover. auto.
  - specialize (Hlive eq_refl).
    destruct (update_running L i g g' Hover Hup)
      as (p & pes & es & [Hp _] & Hpes & Hes & ->).
    assert (Hb : length pes.2 = length (Game.enemies g) ∧
                 Player.health p - Z.of_nat (length (Game.enemies g))
                   <= Player.health pes.1 <= Player.health p).
    { destruct Hpes as [-> | Hpes]; simpl; [lia|].
      destruct pes as [q qs]. apply update_enemies_bounds in Hpes. exact Hpes. }
    destruct Hb as [Hl Hb].
    assert (Hl' : length es = length (Game.enemies g)).
    { destruct Hes as [-> | Hes]; [assumption|].
      apply shootWeapon_length in Hes. congruence. }
    unfold health_inv. simpl. rewrite Hl'. split; [assumption|]. split; [lia|].
    intros Hgt%Z.leb_gt. lia.
Qed.

Lemma health_inv_dispatch L ev g g' :
  health_inv g → dispatch L ev g = Some g' → health_inv g'.
Proof.
  destruct ev as [i|c|]; simpl.
  - apply health_inv_update.
  - intros H [= <-]. unfold on_lbuttondown. destruct (Game.mouseCaptured g); exact H.
  - intros H [= <-]. exact H.
Qed.

Lemma health_inv_run L evs : ∀ g g',
  health_inv g → run L evs g = Some g' → health_inv g'.
Proof.
  induction evs as [|ev evs IH]; simpl; intros g g' Hg H.
  - injection H as <-. assumption.
  - apply bind_Some in H as (g1 & H1 & H). eauto using health_inv_dispatch.
Qed.

Lemma rnd_three_ok : rand_ok rnd_three.
Proof.
  intros k. unfold rnd_three.
  destruct (k <? 100)%nat; [lia|]. destruct (k <? 106)%nat; [|lia].
  destruct (Nat.even k); lia.
Qed.

Lemma rnd_plain_ok : rand_ok rnd_plain.
Proof. intros k. unfold rnd_plain. lia. Qed.

(** C8, as the code has it.  In every state the program can reach, the
    player's health is at most 100 and at least -4, and it is at least 1 as
    long as the game is not over: the health only falls below 1 on the tick
    that ends the game, where each of the at most five enemies takes one
    point. *)
Theorem health_bounds L g :
  reachable L g →
  -4 <= Player.health (Game.player g) <= 100
  ∧ (Game.gameOver g = false → 1 <= Player.health (Game.player g)).
Proof.
  intros (rnd & evs & _ & Hrun).
  apply (health_inv_run L evs _ _ (health_inv_new L rnd)) in Hrun as (_ & ? & ?). auto.
Qed.

Lemma health_bounds_witness :
  reachable libm_at_one (new_game libm_at_one rnd_plain)
  ∧ -4 <= Player.health (Game.player (new_game libm_at_one rnd_plain)) <= 100.
Proof.
  assert (H : reachable libm_at_one (new_game libm_at_one rnd_plain)).
  { exists rnd_plain, []. split; [exact rnd_plain_ok|reflexivity]. }
  split; [exact H|]. exact (proj1 (health_bounds _ _ H)).
Defined.

(** C8, as the specification has it, fails: with three enemies drawn on one
    cell and the player standing still, the health is -2 after 434 ticks. *)
Lemma health_negative :
  rand_ok rnd_three ∧
  ∀ L, observe (λ g, (Player.health (Game.player g), Game.gameOver g))
               L rnd_three (replicate 434 (Tick idle))
       = Some (-2, true).
Proof. split; [exact rnd_three_ok|]. intros L. vm_compute. reflexivity. Qed.

(** *** Dead enemies *)

Lemma update_enemies_dead wm e post : Enemy.isDead e = true → ∀ pre p r,
  update_enemies wm p (pre ++ e :: post) = Some r →
  ∃ pre' post', r.2 = pre' ++ e :: post' ∧ length pre' = length pre ∧
    update_enemies wm p (pre ++ post) = Some (r.1, pre' ++ post').
Proof.
  intros Hdead. induction pre as [|a pre IH]; simpl; intros p r H.
  - unfold Enemy.update in H. rewrite Hdead in H. simpl in H.
    unfold in_contact in H. rewrite Hdead, andb_false_r in H. simpl in H.
    apply bind_Some in H as ([q qs] & Hr & [= <-]). simpl.
    exists [], qs. simpl. auto.
  - apply bind_Some in H as (a' & Ha & H). apply bind_Some in H as (q & Hq & H).
    apply bind_Some in H as (r' & Hr & [= <-]).
    apply IH in Hr as (pre' & post' & Hr2 & Hl & Hr). simpl.
    exists (a' :: pre'), post'. rewrite Hr2. simpl. split; [reflexivity|].
    split; [congruence|]. rewrite Ha. simpl. rewrite Hq. simpl. rewrite Hr. reflexivity.
Qed.

Lemma shootWeapon_dead L p e post : Enemy.isDead e = true → ∀ pre es',
  shootWeapon L p (pre ++ e :: post) = Some es' →
  ∃ pre' post', es' = pre' ++ e :: post' ∧ length pre' = length pre ∧
    shootWeapon L p (pre ++ post) = Some (pre' ++ post').
Proof.
  intros Hdead. induction pre as [|a pre IH]; simpl; intros es' H.
  - rewrite Hdead in H. apply fmap_Some in H as (r & Hr & ->).
    exists [], r. simpl. auto.
  - destruct (Enemy.isDead a); [|destruct (in_sights L p a)].
    + apply fmap_Some in H as (r & Hr & ->).
      apply IH in Hr as (pre' & post' & -> & Hl & Hr).
      exists (a :: pre'), post'. simpl. rewrite Hr. auto.
    + apply bind_Some in H as (a' & Ha & [= <-]).
      exists (a' :: pre), post. rewrite Ha. simpl. auto.
    + apply fmap_Some in H as (r & Hr & ->).
      apply IH in Hr as (pre' & post' & -> & Hl & Hr).
      exists (a :: pre'), post'. simpl. rewrite Hr. auto.
Qed.

Lemma update_dead L i g g' pre e post :
  Game.enemies g = pre ++ e :: post → Enemy.isDead e = true →
  update L i g = Some g' →
  ∃ pre' post', Game.enemies g' = pre' ++ e :: post' ∧ length pre' = length pre ∧
    update L i (set_enemies g (pre ++ post)) = Some (set_enemies g' (pre' ++ post')).
Proof.
  intros Hes Hdead Hup. unfold update in *.
  change (Game.gameOver (set_enemies g (pre ++ post))) with (Game.gameOver g).
  change (Game.worldMap (set_enemies g (pre ++ post))) with (Game.worldMap g).
  change (Game.player (set_enemies g (pre ++ post))) with (Game.player g).
  change (Game.mouseCaptured (set_enemies g (pre ++ post))) with (Game.mouseCaptured g).
  change (Game.lastMousePos (set_enemies g (pre ++ post))) with (Game.lastMousePos g).
  change (Game.frameCount (set_enemies g (pre ++ post))) with (Game.frameCount g).
  change (Game.sinTable (set_enemies g (pre ++ post))) with (Game.sinTable g).
  change (Game.cosTable (set_enemies g (pre ++ post))) with (Game.cosTable g).
  change (Game.enemies (set_enemies g (pre ++ post))) with (pre ++ post).
  destruct (Game.gameOver g) eqn:Hover.
  - injection Hup as <-. exists pre, post. auto.
  - apply bind_Some in Hup as (p1 & H1 & H). rewrite H1. cbn [mbind option_bind].
    apply bind_Some in H as (p2 & H2 & H). rewrite H2. cbn [mbind option_bind].
    apply bind_Some in H as (p3 & H3 & H). rewrite H3. cbn [mbind option_bind].
    apply bind_Some in H as (p4 & H4 & H). rewrite H4. cbn [mbind option_bind].
    apply bind_Some in H as (p5 & H5 & H). rewrite H5. cbn [mbind option_bind].
    apply bind_Some in H as (fc & Hfc & H). rewrite Hfc. cbn [mbind option_bind].
    apply bind_Some in H as (pes & Hpes & H).
    apply bind_Some in H as (es & Hes' & [= <-]).
    rewrite Hes in Hpes.
    assert (Hloop : ∃ pre1 post1, pes.2 = pre1 ++ e :: post1 ∧ length pre1 = length pre ∧
              (if Z.rem fc 2 =? 0 then update_enemies (Game.worldMap g) p5 (pre ++ post)
               else Some (p5, pre ++ post)) = Some (pes.1, pre1 ++ post1)).
    { destruct (Z.rem fc 2 =? 0).
      - apply update_enemies_dead in Hpes; assumption.
      - injection Hpes as <-. exists pre, post. auto. }
    destruct Hloop as (pre1 & post1 & Hpes2 & Hl1 & ->). cbn [mbind option_bind fst snd].
    rewrite Hpes2 in Hes'.
    assert (Hfire : ∃ pre2 post2, es = pre2 ++ e :: post2 ∧ length pre2 = length pre1 ∧
              (if lbutton i && Player.hasWeapon pes.1
               then shootWeapon L pes.1 (pre1 ++ post1)
               else Some (pre1 ++ post1)) = Some (pre2 ++ post2)).
    { destruct (lbutton i && Player.hasWeapon pes.1).
      - apply shootWeapon_dead in Hes'; assumption.
      - injection Hes' as <-. exists pre1, post1. auto. }
    destruct Hfire as (pre2 & post2 & -> & Hl2 & ->). cbn [mbind option_bind Game.enemies].
    exists pre2, post2. split; [reflexivity|]. split; [congruence|]. reflexivity.
Qed.

Lemma dispatch_dead L ev g g' pre e post :
  Game.enemies g = pre ++ e :: post → Enemy.isDead e = true →
  dispatch L ev g = Some g' →
  ∃ pre' post', Game.enemies g' = pre' ++ e :: post' ∧ length pre' = length pre ∧
    dispatch L ev (set_enemies g (pre ++ post)) = Some (set_enemies g' (pre' ++ post')).
Proof.
  intros Hes Hdead. destruct ev as [i|c|]; simpl.
  - apply update_dead; assumption.
  - intros [= <-]. exists pre, post. unfold on_lbuttondown. simpl.
    destruct (Game.mouseCaptured g); simpl; auto.
  - intros [= <-]. exists pre, post. simpl. auto.
Qed.

(** C10.  Over any sequence of ticks (with or without fire) and mouse
    messages, an enemy whose dead flag is set keeps its place in the
    collection and its whole state, the flag included; and the rest of the
    game evolves exactly as it would without that enemy, so the dead enemy
    deals no contact damage and takes no shot. *)
Theorem dead_enemy_is_frozen L evs : ∀ g g' pre e post,
  Game.enemies g = pre ++ e :: post → Enemy.isDead e = true →
  run L evs g = Some g' →
  ∃ pre' post', Game.enemies g' = pre' ++ e :: post' ∧ length pre' = length pre ∧
    run L evs (set_enemies g (pre ++ post)) = Some (set_enemies g' (pre' ++ post')).
Proof.
  induction evs as [|ev evs IH]; simpl; intros g g' pre e post Hes Hdead H.
  - injection H as <-. exists pre, post. auto.
  - apply bind_Some in H as (g1 & H1 & H).
    destruct (dispatch_dead L ev g g1 pre e post Hes Hdead H1)
      as (pre1 & post1 & Hes1 & Hl1 & ->). simpl.
    destruct (IH g1 g' pre1 e post1 Hes1 Hdead H) as (pre2 & post2 & Hes2 & Hl2 & Hrun).
    exists pre2, post2. split; [assumption|]. split; [congruence|].
    rewrite <- Hrun. f_equal.
Qed.

Lemma dead_enemy_is_frozen_witness :
  ∃ g', run libm_at_one [Tick fire; Tick idle; Tick fire] with_corpse = Some g'
    ∧ ∃ pre' post',
        Game.enemies g' =
          pre' ++ Enemy.mk (Vec2.mk (F32.lit 54 10) (F32.of_Z 5)) f0_03 0 true :: post'
        ∧ length pre' = 1%nat
        ∧ Player.health (Game.player g') = 100.
Proof.
  eexists. split; [vm_compute; reflexivity|].
  match goal with |- context [Game.enemies ?g'] =>
    destruct (dead_enemy_is_frozen libm_at_one [Tick fire; Tick idle; Tick fire]
                with_corpse g'
                [Enemy.new (F32.of_Z 3) (F32.of_Z 5)]
                (Enemy.mk (Vec2.mk (F32.lit 54 10) (F32.of_Z 5)) f0_03 0 true)
                [Enemy.new (F32.of_Z 2) (F32.of_Z 5)]
                eq_refl eq_refl)
      as (pre' & post' & Hes & Hl & _)
  end.
  - vm_compute. reflexivity.
  - exists pre', post'. split; [exact Hes|]. split; [exact Hl|]. vm_compute. reflexivity.
Defined.

(** *** Weapon fire *)

Lemma shootWeapon_no_target L p es :
  Forall (λ a, is_target L p a = false) es → shootWeapon L p es = Some es.
Proof.
  induction 1 as [|a es Ha _ IH]; simpl; [reflexivity|].
  unfold is_target in Ha. destruct (Enemy.isDead a); simpl in Ha.
  - rewrite IH. reflexivity.
  - rewrite Ha, IH. reflexivity.
Qed.

Lemma in_sights_aim L p e :
  in_sights L p e = F32.ltb (acosf L (aim p e).2) f0_26 && F32.ltb (aim p e).1 f8_0.
Proof. reflexivity. Qed.

Lemma is_target_aim L p e :
  is_target L p e
  = negb (Enemy.isDead e)
    && (F32.ltb (acosf L (aim p e).2) f0_26 && F32.ltb (aim p e).1 f8_0).
Proof. reflexivity. Qed.

Lemma shootWeapon_first_target L p pre e post :
  Forall (λ a, is_target L p a = false) pre →
  is_target L p e = true →
  in_int (Enemy.health e - 10) = true →
  shootWeapon L p (pre ++ e :: post) =
    Some (pre ++ Enemy.mk (Enemy.position e) (Enemy.speed e)
                          (Enemy.health e - 10) (Enemy.health e - 10 <=? 0)
              :: post).
Proof.
  intros Hpre He Hint.
  induction Hpre as [|a pre Ha _ IH]; simpl.
  - unfold is_target in He. apply andb_true_iff in He as [Halive ->].
    apply negb_true_iff in Halive. rewrite Halive.
    unfold damage, as_int. rewrite Hint. simpl. rewrite Halive.
    destruct (Enemy.health e - 10 <=? 0); reflexivity.
  - unfold is_target in Ha. destruct (Enemy.isDead a); simpl in Ha.
    + rewrite IH. reflexivity.
    + rewrite Ha, IH. reflexivity.
Qed.

(** C5 fails on the code.  The C library here rounds the sine and the
    cosine of table slot 446 to the nearest float.  A mouse movement of 355
    pixels turns the camera to face (0.91911, -0.39399), and after twelve
    more ticks the player fires.  A living enemy then stands in front of
    the player, 7.4058 away, which is below 8.0, and off the facing
    direction by an angle whose tangent is below 1/1000, far inside 0.26
    rad.  The float dot product of the facing direction with the normalised
    vector to the enemy is [1 + 2^-23], above 1, where [acos] answers NaN;
    the test [angle < 0.26f] is false, and the enemy keeps its health of
    50. *)
Theorem enemy_dead_ahead_is_missed :
  rand_ok rnd_flank
  ∧ ∃ p e,
      observe (λ g, (Game.player g, Game.enemies g)) libm_slot446 rnd_flank aim_then_fire
      = Some (p, [e])
      ∧ Player.hasWeapon p = true ∧ Enemy.isDead e = false ∧ Enemy.health e = 50
      ∧ dead_ahead p e = Some true
      ∧ aim p e = (S754_finite false 15531028 (-21), S754_finite false 8388609 (-23))
      ∧ F32.ltb (aim p e).1 f8_0 = true
      ∧ F32.gtb (aim p e).2 F32.one = true
      ∧ acosf libm_slot446 (aim p e).2 = S754_nan
      ∧ shootWeapon libm_slot446 p [e] = Some [e].
Proof.
  split.
  { intros k. unfold rnd_flank. destruct (k =? 100)%nat; [lia|].
    destruct (k <? 102)%nat; lia. }
  eexists. eexists.
  do 9 (split; [vm_compute; reflexivity|]). vm_compute. reflexivity.
Qed.

(** X22.  [Game::shootWeapon] with its test written out: an enemy passes
    when it is alive, the [acos] of the binary32 dot product of the facing
    direction with the normalised vector to it is below [0.26f], and its
    binary32 distance is below [8.0f].  When no enemy passes, the enemies
    are left as they are; otherwise the first enemy of the collection that
    passes loses 10 health, as far as that fits an [int], and is marked
    dead when its health is then zero or less, and the enemies before and
    after it are left as they are. *)
Theorem shootWeapon_hits_first_in_cone L p es :
  let in_cone e :=
    negb (Enemy.isDead e)
    && (F32.ltb (acosf L (aim p e).2) f0_26 && F32.ltb (aim p e).1 f8_0) in
  (Forall (λ a, in_cone a = false) es → shootWeapon L p es = Some es)
  ∧ (∀ pre e post,
       es = pre ++ e :: post →
       Forall (λ a, in_cone a = false) pre →
       in_cone e = true →
       in_int (Enemy.health e - 10) = true →
       shootWeapon L p es =
         Some (pre ++ Enemy.mk (Enemy.position e) (Enemy.speed e)
                               (Enemy.health e - 10) (Enemy.health e - 10 <=? 0)
                   :: post)).
Proof.
  cbv zeta. split.
  - intros H. apply shootWeapon_no_target.
    eapply Forall_impl; [exact H|]. cbn. intros a Ha. rewrite is_target_aim. exact Ha.
  - intros pre e post -> Hpre He Hint.
    apply shootWeapon_first_target; [|rewrite is_target_aim; exact He|exact Hint].
    eapply Forall_impl; [exact Hpre|]. cbn. intros a Ha. rewrite is_target_aim. exact Ha.
Qed.

Lemma shootWeapon_hits_first_in_cone_witness :
  (aim Player.init <$> lined_up).*1 = [F32.of_Z 3; S754_finite false 9378749 (-22);
                                       F32.of_Z 9; F32.of_Z 2;
                                       S754_finite false 12756478 (-22); F32.of_Z 2]
  ∧ shootWeapon libm_acos Player.init lined_up
    = Some [Enemy.new (F32.of_Z 8) (F32.of_Z 5);
            Enemy.new (F32.of_Z 4) (F32.of_Z 7);
            Enemy.new (F32.of_Z (-4)) (F32.of_Z 5);
            Enemy.mk (Vec2.mk (F32.of_Z 3) (F32.of_Z 5)) f0_03 0 true;
            Enemy.mk (Vec2.mk (F32.of_Z 2) (F32.lit 11 2)) f0_03 40 false;
            Enemy.new (F32.of_Z 3) (F32.of_Z 5)].
Proof.
  split; [vm_compute; reflexivity|].
  refine (proj2 (shootWeapon_hits_first_in_cone libm_acos Player.init lined_up)
            [Enemy.new (F32.of_Z 8) (F32.of_Z 5); Enemy.new (F32.of_Z 4) (F32.of_Z 7);
             Enemy.new (F32.of_Z (-4)) (F32.of_Z 5);
             Enemy.mk (Vec2.mk (F32.of_Z 3) (F32.of_Z 5)) f0_03 0 true]
            (Enemy.new (F32.of_Z 2) (F32.lit 11 2))
            [Enemy.new (F32.of_Z 3) (F32.of_Z 5)] eq_refl _ _ eq_refl).
  - repeat (apply List.Forall_cons; [vm_compute; reflexivity|]). apply List.Forall_nil.
  - vm_compute. reflexivity.
Defined.

(** *** Movement against the grid *)

(** C2, on the player's side, fails: from the spawn pose, facing west with
    [W] held, the player stands in cell (1, 5) after 40 ticks, and the next
    tick moves it into the border wall cell (0, 5): the wall buffer is added
    towards the east ([forward > 0]) while the player travels west. *)
Theorem player_walks_into_wall L :
  observe player_cell L rnd_plain (replicate 40 (Tick holdW)) = Some (Some (1, 5))
  ∧ observe (λ g, (player_cell g, cell (Game.worldMap g) 0 5)) L rnd_plain
            (replicate 41 (Tick holdW)) = Some (Some (0, 5), Some 1).
Proof. split; vm_compute; reflexivity. Qed.

(** X2.  An enemy that [Enemy::update] moves ends in a cell of the grid that
    is passable: the enemies never enter a solid cell. *)
Theorem enemy_moves_to_passable_cell p wm e e' :
  Enemy.update p wm e = Some e' →
  Enemy.position e' ≠ Enemy.position e →
  passable wm (Vec2.x (Enemy.position e')) (Vec2.y (Enemy.position e')) = Some true.
Proof.
  unfold Enemy.update. destruct (Enemy.isDead e); [intros [= <-] Hne; contradiction|].
  destruct (F32.gtb _ f0_5); [|intros [= <-] Hne; contradiction].
  generalize (F32.add (Vec2.x (Enemy.position e))
                (F32.mul (Vec2.x (Vec2.normalize
                   (Vec2.mk (F32.sub (Vec2.x (Player.position p)) (Vec2.x (Enemy.position e)))
                            (F32.sub (Vec2.y (Player.position p)) (Vec2.y (Enemy.position e))))))
                   (Enemy.speed e))) as nx.
  generalize (F32.add (Vec2.y (Enemy.position e))
                (F32.mul (Vec2.y (Vec2.normalize
                   (Vec2.mk (F32.sub (Vec2.x (Player.position p)) (Vec2.x (Enemy.position e)))
                            (F32.sub (Vec2.y (Player.position p)) (Vec2.y (Enemy.position e))))))
                   (Enemy.speed e))) as ny.
  intros ny nx. cbn [Vec2.x Vec2.y].
  intros H Hne. apply bind_Some in H as (okx & Hx & H).
  apply bind_Some in H as (oky & Hy & H). injection H as H. subst e'.
  destruct okx, oky; cbn [Enemy.position Enemy.set_position Vec2.x Vec2.y] in *;
    try assumption.
  contradiction.
Qed.

Lemma enemy_moves_to_passable_cell_witness :
  ∃ e', Enemy.update Player.init border_map (Enemy.new (F32.of_Z 11) (F32.of_Z 5)) = Some e'
    ∧ Enemy.position e' ≠ Vec2.mk (F32.of_Z 11) (F32.of_Z 5)
    ∧ passable border_map (Vec2.x (Enemy.position e')) (Vec2.y (Enemy.position e'))
      = Some true.
Proof.
  eexists. split; [vm_compute; reflexivity|].
  split; [vm_compute; discriminate|].
  apply (enemy_moves_to_passable_cell Player.init border_map
           (Enemy.new (F32.of_Z 11) (F32.of_Z 5)));
    [vm_compute; reflexivity|vm_compute; discriminate].
Defined.

(** ** The DDA walk *)

Lemma bordered_b_sound wm : bordered_b wm = true → bordered wm.
Proof.
  unfold bordered_b, bordered. rewrite forallb_forall. intros H i j Hi Hj.
  assert (Hin : ∀ k n, 0 <= k < Z.of_nat n → In k (Z.of_nat <$> seq 0 n)).
  { intros k n Hk. apply in_map_iff. exists (Z.to_nat k). split; [lia|].
    apply in_seq. lia. }
  specialize (H i (Hin i (Z.to_nat MAP_WIDTH) ltac:(unfold MAP_WIDTH in *; lia))).
  rewrite forallb_forall in H.
  specialize (H j (Hin j (Z.to_nat MAP_HEIGHT) ltac:(unfold MAP_HEIGHT in *; lia))).
  destruct (cell wm i j) as [c|]; [|discriminate]. exists c. split; [reflexivity|].
  intros Hb. apply orb_true_iff in H as [H|H]; [apply Z.ltb_lt; assumption|].
  apply negb_true_iff in H. repeat (apply orb_false_iff in H as [H ?]).
  unfold MAP_WIDTH, MAP_HEIGHT in *. lia.
Qed.

(** One iteration from an interior cell stays on the grid; it ends the walk
    on a solid cell, and otherwise it leaves the walk on an interior cell,
    one cell nearer to the border. *)
Lemma dda_walk_reaches wm : bordered wm → ∀ n d,
  interior d → to_border d <= Z.of_nat n + 1 →
  ∃ d', dda_walk n wm d = Hit d' ∧
        ∃ c, cell wm (mapX d') (mapY d') = Some c ∧ 0 < c.
Proof.
  intros Hwm. unfold interior, to_border, MAP_WIDTH, MAP_HEIGHT.
  induction n as [|n IH]; intros d (Hx & Hy & Hsx & Hsy) Hb.
  - exfalso. destruct Hsx as [Hs | Hs], Hsy as [Hs' | Hs'];
      rewrite Hs, Hs' in Hb; simpl in Hb; lia.
  - cbn [dda_walk]. unfold dda_jump.
    destruct (F32.ltb (sideDistX d) (sideDistY d)).
    + rewrite as_int_small by (destruct Hsx as [Hs | Hs]; rewrite Hs; lia).
      cbn [mbind option_bind].
      set (d1 := Build_Dda _ _ _ _ _ _ _ _ _).
      destruct (Hwm (mapX d1) (mapY d1)) as (c & Hc & Hborder);
        [subst d1; simpl; unfold MAP_WIDTH; destruct Hsx as [Hs | Hs]; rewrite Hs; lia
        |subst d1; simpl; unfold MAP_HEIGHT; lia|].
      unfold dda_hit. rewrite Hc.
      replace ((0 <=? mapX d1) && (0 <=? mapY d1) && (mapX d1 <? MAP_WIDTH)
               && (mapY d1 <? MAP_HEIGHT)) with true.
      2:{ symmetry. rewrite !andb_true_iff, !Z.leb_le, !Z.ltb_lt.
          subst d1; simpl; unfold MAP_WIDTH, MAP_HEIGHT;
            destruct Hsx as [Hs | Hs]; rewrite Hs; lia. }
      cbn [mbind option_bind]. destruct (0 <? c) eqn:Hpos.
      * exists d1. split; [reflexivity|]. exists c. apply Z.ltb_lt in Hpos. auto.
      * apply Z.ltb_ge in Hpos. apply IH.
        -- subst d1; simpl in *. unfold MAP_WIDTH, MAP_HEIGHT in Hborder.
           repeat split; try lia; try assumption;
             destruct Hsx as [Hs | Hs]; rewrite Hs in *; lia.
        -- subst d1; simpl in *.
           destruct Hsx as [Hs | Hs], Hsy as [Hs' | Hs']; rewrite Hs, Hs' in *;
             simpl in *; lia.
    + rewrite as_int_small by (destruct Hsy as [Hs | Hs]; rewrite Hs; lia).
      cbn [mbind option_bind].
      set (d1 := Build_Dda _ _ _ _ _ _ _ _ _).
      destruct (Hwm (mapX d1) (mapY d1)) as (c & Hc & Hborder);
        [subst d1; simpl; unfold MAP_WIDTH; lia
        |subst d1; simpl; unfold MAP_HEIGHT; destruct Hsy as [Hs | Hs]; rewrite Hs; lia|].
      unfold dda_hit. rewrite Hc.
      replace ((0 <=? mapX d1) && (0 <=? mapY d1) && (mapX d1 <? MAP_WIDTH)
               && (mapY d1 <? MAP_HEIGHT)) with true.
      2:{ symmetry. rewrite !andb_true_iff, !Z.leb_le, !Z.ltb_lt.
          subst d1; simpl; unfold MAP_WIDTH, MAP_HEIGHT;
            destruct Hsy as [Hs | Hs]; rewrite Hs; lia. }
      cbn [mbind option_bind]. destruct (0 <? c) eqn:Hpos.
      * exists d1. split; [reflexivity|]. exists c. apply Z.ltb_lt in Hpos. auto.
      * apply Z.ltb_ge in Hpos. apply IH.
        -- subst d1; simpl in *. unfold MAP_WIDTH, MAP_HEIGHT in Hborder.
           repeat split; try lia; try assumption;
             destruct Hsy as [Hs | Hs]; rewrite Hs in *; lia.
        -- subst d1; simpl in *.
           destruct Hsx as [Hs | Hs], Hsy as [Hs' | Hs']; rewrite Hs, Hs' in *;
             simpl in *; lia.
Qed.

Lemma dda_init_steps p x d0 :
  dda_init p x = Some d0 →
  cell_of (Player.position p) = Some (mapX d0, mapY d0)
  ∧ (stepX d0 = 1 ∨ stepX d0 = -1) ∧ (stepY d0 = 1 ∨ stepY d0 = -1).
Proof.
  unfold dda_init, cell_of. intros H.
  apply bind_Some in H as (mx & Hmx & H). apply bind_Some in H as (my & Hmy & [= <-]).
  rewrite Hmx, Hmy. cbn [mbind option_bind mapX mapY stepX stepY].
  split; [reflexivity|].
  split; match goal with |- (if ?b then _ else _) = _ ∨ _ => destruct b; auto end.
Qed.

(** A hit does not depend on the iterations left over. *)
Lemma dda_walk_more_fuel wm n : ∀ d d' m d'',
  dda_walk n wm d = Hit d' → dda_walk m wm d = Hit d'' → d' = d''.
Proof.
  induction n as [|n IH]; intros d d' m d'' Hn Hm; [discriminate|].
  destruct m as [|m]; [discriminate|]. cbn [dda_walk] in *.
  destruct (dda_jump d) as [d1|]; [|discriminate].
  destruct (dda_hit wm d1) as [[|]|]; [congruence| |discriminate].
  eapply IH; eassumption.
Qed.

(** X1.  On a grid with solid borders, the walk of any ray cast from a
    position in a cell off the border ends with a hit, on a solid cell of
    the grid, within 43 iterations. *)
Theorem dda_walk_terminates wm p x i j :
  bordered wm →
  cell_of (Player.position p) = Some (i, j) →
  1 <= i <= MAP_WIDTH - 2 → 1 <= j <= MAP_HEIGHT - 2 →
  ∃ d0 d, dda_init p x = Some d0 ∧
    (∀ fuel, (43 <= fuel)%nat → dda_walk fuel wm d0 = Hit d) ∧
    ∃ c, cell wm (mapX d) (mapY d) = Some c ∧ 0 < c.
Proof.
  intros Hwm Hcell Hi Hj.
  destruct (dda_init p x) as [d0|] eqn:Hd0.
  2:{ exfalso. unfold dda_init, cell_of in *.
      destruct (to_int (Vec2.x (Player.position p))); [|discriminate].
      destruct (to_int (Vec2.y (Player.position p))); discriminate. }
  destruct (dda_init_steps _ _ _ Hd0) as (Hc & Hsx & Hsy).
  rewrite Hcell in Hc. injection Hc as -> ->.
  assert (Hint : interior d0) by (unfold interior; auto).
  assert (Hb : to_border d0 <= 44).
  { unfold to_border, MAP_WIDTH, MAP_HEIGHT in *.
    destruct Hsx as [Hs | Hs], Hsy as [Hs' | Hs']; rewrite Hs, Hs'; simpl; lia. }
  destruct (dda_walk_reaches wm Hwm 43 d0 Hint) as (d & Hd & Hc); [lia|].
  exists d0, d. split; [reflexivity|]. split; [|assumption].
  intros fuel Hfuel.
  destruct (dda_walk_reaches wm Hwm fuel d0 Hint) as (d' & Hd' & _); [lia|].
  rewrite Hd'. f_equal. eapply dda_walk_more_fuel; eassumption.
Qed.

Lemma dda_walk_terminates_witness :
  bordered border_map
  ∧ cell_of (Player.position Player.init) = Some (5, 5)
  ∧ ∃ d0 d, dda_init Player.init 100 = Some d0 ∧
      (∀ fuel, (43 <= fuel)%nat → dda_walk fuel border_map d0 = Hit d) ∧
      ∃ c, cell border_map (mapX d) (mapY d) = Some c ∧ 0 < c.
Proof.
  assert (Hb : bordered border_map)
    by (apply bordered_b_sound; vm_compute; reflexivity).
  assert (Hc : cell_of (Player.position Player.init) = Some (5, 5))
    by (vm_compute; reflexivity).
  split; [exact Hb|]. split; [exact Hc|].
  apply (dda_walk_terminates border_map Player.init 100 5 5 Hb Hc);
    unfold MAP_WIDTH, MAP_HEIGHT; lia.
Defined.

(** A walk that is left of the grid and heads left stays there. *)
Lemma dda_walk_lost wm fuel : ∀ d,
  mapX d < 0 → stepX d <= 0 → ∀ d', dda_walk fuel wm d ≠ Hit d'.
Proof.
  induction fuel as [|fuel IH]; simpl; intros d Hx Hs d'; [discriminate|].
  destruct (dda_jump d) as [d1|] eqn:Hj; [|discriminate].
  assert (H1 : mapX d1 < 0 ∧ stepX d1 <= 0).
  { unfold dda_jump in Hj. destruct (F32.ltb _ _).
    - apply bind_Some in Hj as (mx & Hmx%as_int_Some & [= <-]). simpl. lia.
    - apply bind_Some in Hj as (my & _ & [= <-]). simpl. lia. }
  destruct H1 as [Hx1 Hs1].
  unfold dda_hit. replace (0 <=? mapX d1) with false by (symmetry; apply Z.leb_gt; lia).
  simpl. apply IH; assumption.
Qed.

(** C3 fails on the code.  After 41 ticks with [W] held the player stands in
    the border cell (0, 5), a position inside the grid; the walk of the
    centre ray from there steps to the cell (-1, 5), which the loop does not
    take for a hit, and no number of iterations ends it with a hit: it runs
    on until the cell index overflows. *)
Theorem ray_from_border_cell_never_hits L :
  ∃ p wm d0,
    observe camera L rnd_plain (replicate 41 (Tick holdW)) = Some (p, wm)
    ∧ cell_of (Player.position p) = Some (0, 5)
    ∧ dda_init p 100 = Some d0
    ∧ ∀ fuel d, dda_walk fuel wm d0 ≠ Hit d.
Proof.
  eexists. eexists. eexists. split; [vm_compute; reflexivity|].
  split; [vm_compute; reflexivity|].
  split; [vm_compute; reflexivity|].
  intros [|fuel] d; [discriminate|].
  cbn [dda_walk].
  match goal with |- context [dda_jump ?d0] =>
    let r := eval vm_compute in (dda_jump d0) in
    change (dda_jump d0) with r end.
  cbv iota beta.
  match goal with |- context [dda_hit ?w ?d1] =>
    let r := eval vm_compute in (dda_hit w d1) in
    change (dda_hit w d1) with r end.
  cbv iota beta.
  apply dda_walk_lost; vm_compute; [reflexivity|discriminate].
Qed.

(** ** The depth buffer *)

Lemma span_ok_all x : 0 <= x < RAY_WIDTH → span_ok x = true.
Proof.
  intros Hx.
  assert (H : forallb span_ok (Z.of_nat <$> seq 0 (Z.to_nat RAY_WIDTH)) = true)
    by (vm_compute; reflexivity).
  rewrite forallb_forall in H. apply H. apply in_map_iff.
  exists (Z.to_nat x). split; [lia|]. apply in_seq. lia.
Qed.

Lemma zwrite_Some zb i v :
  0 <= i → (Z.to_nat i < length zb)%nat → zwrite zb i v = Some (<[Z.to_nat i := v]> zb).
Proof.
  intros Hi Hl. unfold zwrite.
  replace (0 <=? i) with true by (symmetry; apply Z.leb_le; assumption).
  replace (Z.to_nat i <? length zb)%nat with true by (symmetry; apply Nat.ltb_lt; assumption).
  reflexivity.
Qed.

Lemma store_depth_S n limit v sx zb :
  store_depth (S n) limit v sx zb =
    if F32.ltb (F32.of_Z sx) limit then
      if SCREEN_WIDTH <=? sx then Some zb
      else zwrite zb sx v ≫= store_depth n limit v (sx + 1)
    else Some zb.
Proof. reflexivity. Qed.

(** The inner loop of view column [x] stores into the screen columns
    [4x .. 4x+3] and into no other. *)
Lemma store_depth_span x v zb :
  0 <= x < RAY_WIDTH → length zb = Z.to_nat SCREEN_WIDTH →
  ∃ first, to_int (F32.mul (F32.of_Z x) RAY_SCALE) = Some first ∧
    store_depth (Z.to_nat SCREEN_WIDTH) (F32.mul (F32.of_Z (x + 1)) RAY_SCALE) v first zb
    = Some (span_written x v zb).
Proof.
  intros Hx Hl. pose proof (span_ok_all x Hx) as Hok. unfold span_ok in Hok.
  unfold RAY_WIDTH, SCREEN_WIDTH in Hx. change (Z.quot 800 4) with 200 in Hx.
  destruct (to_int _) as [first|]; [|discriminate]. exists first. split; [reflexivity|].
  apply andb_true_iff in Hok as [Hok Hend]. apply andb_true_iff in Hok as [Hfirst Hin].
  apply Z.eqb_eq in Hfirst. subst first. apply negb_true_iff in Hend.
  cbn [forallb] in Hin. rewrite !andb_true_iff in Hin.
  destruct Hin as (H0 & H1 & H2 & H3 & _). rewrite Z.add_0_r in H0.
  change (Z.to_nat SCREEN_WIDTH) with (S (S (S (S (S 795))))) in *.
  assert (Hw : ∀ i z, 4 * x <= i < 4 * x + 4 → length z = length zb →
             zwrite z i v = Some (<[Z.to_nat i := v]> z)).
  { intros i z Hi Hz. apply zwrite_Some; lia. }
  assert (Hs : ∀ i, 4 * x <= i < 4 * x + 4 → (SCREEN_WIDTH <=? i) = false).
  { intros i Hi. apply Z.leb_gt. unfold SCREEN_WIDTH. lia. }
  generalize 795%nat as n. intros n. unfold span_written.
  rewrite store_depth_S, H0, (Hs (4 * x)), (Hw (4 * x)) by (reflexivity || lia).
  cbn [mbind option_bind].
  rewrite store_depth_S, H1, (Hs (4 * x + 1)), (Hw (4 * x + 1))
    by (rewrite ?length_insert; reflexivity || lia).
  cbn [mbind option_bind]. replace (4 * x + 1 + 1) with (4 * x + 2) by lia.
  rewrite store_depth_S, H2, (Hs (4 * x + 2)), (Hw (4 * x + 2))
    by (rewrite ?length_insert; reflexivity || lia).
  cbn [mbind option_bind]. replace (4 * x + 2 + 1) with (4 * x + 3) by lia.
  rewrite store_depth_S, H3, (Hs (4 * x + 3)), (Hw (4 * x + 3))
    by (rewrite ?length_insert; reflexivity || lia).
  cbn [mbind option_bind]. replace (4 * x + 3 + 1) with (4 * x + 4) by lia.
  rewrite store_depth_S, Hend. reflexivity.
Qed.

Lemma span_written_length x v zb : length (span_written x v zb) = length zb.
Proof. unfold span_written. rewrite !length_insert. reflexivity. Qed.

Lemma span_written_lookup x v zb sx :
  0 <= x → (Z.to_nat (4 * x + 3) < length zb)%nat → 0 <= sx →
  span_written x v zb !! Z.to_nat sx =
    if (4 * x <=? sx) && (sx <? 4 * x + 4) then Some v else zb !! Z.to_nat sx.
Proof.
  intros Hx Hl Hsx. unfold span_written.
  destruct ((4 * x <=? sx) && (sx <? 4 * x + 4)) eqn:E.
  - apply andb_true_iff in E as [E1%Z.leb_le E2%Z.ltb_lt].
    assert (Hc : sx = 4 * x ∨ sx = 4 * x + 1 ∨ sx = 4 * x + 2 ∨ sx = 4 * x + 3) by lia.
    destruct Hc as [-> | [-> | [-> | ->]]].
    + rewrite !list_lookup_insert_ne by lia.
      apply list_lookup_insert_eq. lia.
    + rewrite !list_lookup_insert_ne by lia.
      apply list_lookup_insert_eq. rewrite !length_insert. lia.
    + rewrite !list_lookup_insert_ne by lia.
      apply list_lookup_insert_eq. rewrite !length_insert. lia.
    + apply list_lookup_insert_eq. rewrite !length_insert. lia.
  - apply andb_false_iff in E.
    rewrite !list_lookup_insert_ne; [reflexivity|..];
      destruct E as [E%Z.leb_gt | E%Z.ltb_ge]; lia.
Qed.

Lemma render_column_span fuel wm p x zb zb' :
  0 <= x < RAY_WIDTH → length zb = Z.to_nat SCREEN_WIDTH →
  render_column fuel wm p x zb = Some zb' →
  ∃ s, castRay fuel wm p x = Some s ∧ zb' = span_written x (perpWallDist s) zb.
Proof.
  intros Hx Hl H. unfold render_column in H.
  apply bind_Some in H as (s & Hs & H). exists s. split; [assumption|].
  destruct (store_depth_span x (perpWallDist s) zb Hx Hl) as (first & Hf & Hst).
  rewrite Hf in H. cbn [mbind option_bind] in H. congruence.
Qed.

(** After the view columns [x .. x+n-1], the screen columns they cover hold
    the distance of their view column, and the others are as before. *)
Lemma render_columns_spec fuel wm p : ∀ n x zb zb',
  0 <= x → x + Z.of_nat n <= RAY_WIDTH → length zb = Z.to_nat SCREEN_WIDTH →
  render_columns fuel wm p n x zb = Some zb' →
  length zb' = Z.to_nat SCREEN_WIDTH ∧
  ∀ sx, 0 <= sx →
    if (4 * x <=? sx) && (sx <? 4 * (x + Z.of_nat n))
    then ∃ s, castRay fuel wm p (sx / 4) = Some s ∧ zb' !! Z.to_nat sx = Some (perpWallDist s)
    else zb' !! Z.to_nat sx = zb !! Z.to_nat sx.
Proof.
  induction n as [|n IH]; intros x zb zb' Hx Hn Hl H.
  - injection H as <-. split; [assumption|]. intros sx Hsx.
    replace ((4 * x <=? sx) && (sx <? 4 * (x + Z.of_nat 0))) with false; [reflexivity|].
    symmetry. apply andb_false_iff. rewrite Z.leb_gt, Z.ltb_ge. lia.
  - cbn [render_columns] in H. apply bind_Some in H as (zb1 & H1 & H).
    apply render_column_span in H1 as (s & Hs & ->); [|lia|assumption].
    apply IH in H as [Hl' Hspec]; [|lia|lia|rewrite span_written_length; assumption].
    split; [assumption|]. intros sx Hsx. specialize (Hspec sx Hsx).
    unfold RAY_WIDTH, SCREEN_WIDTH in *. change (Z.quot 800 4) with 200 in *.
    change (Z.to_nat 800) with 800%nat in *.
    rewrite span_written_lookup in Hspec by lia.
    destruct ((4 * (x + 1) <=? sx) && (sx <? 4 * (x + 1 + Z.of_nat n))) eqn:E1.
    + apply andb_true_iff in E1 as [E1%Z.leb_le E2%Z.ltb_lt].
      replace ((4 * x <=? sx) && (sx <? 4 * (x + Z.of_nat (S n)))) with true; [assumption|].
      symmetry. apply andb_true_iff. rewrite Z.leb_le, Z.ltb_lt. lia.
    + apply andb_false_iff in E1.
      destruct ((4 * x <=? sx) && (sx <? 4 * x + 4)) eqn:E2.
      * apply andb_true_iff in E2 as [E2%Z.leb_le E3%Z.ltb_lt].
        replace ((4 * x <=? sx) && (sx <? 4 * (x + Z.of_nat (S n)))) with true.
        2:{ symmetry. apply andb_true_iff. rewrite Z.leb_le, Z.ltb_lt. lia. }
        exists s. replace (sx / 4) with x by (apply Z.div_unique with (sx - 4 * x); lia).
        auto.
      * apply andb_false_iff in E2.
        replace ((4 * x <=? sx) && (sx <? 4 * (x + Z.of_nat (S n)))) with false; [assumption|].
        symmetry. apply andb_false_iff. rewrite Z.leb_gt, Z.ltb_ge.
        destruct E1 as [E1%Z.leb_gt | E1%Z.ltb_ge], E2 as [E2%Z.leb_gt | E2%Z.ltb_ge]; lia.
Qed.

Lemma castRay_Some fuel wm p x s :
  castRay fuel wm p x = Some s →
  ∃ d0 d, dda_init p x = Some d0 ∧ dda_walk fuel wm d0 = Hit d ∧ slice_of p x d = Some s.
Proof.
  unfold castRay. intros H. apply bind_Some in H as (d0 & Hd0 & H).
  destruct (dda_walk fuel wm d0) as [d| |] eqn:Hw; try discriminate. eauto.
Qed.

Lemma slice_of_perp p x d s :
  slice_of p x d = Some s → perpWallDist s = F32.max (raw_perp d) f0_05.
Proof.
  unfold slice_of. intros H. apply bind_Some in H as (lh & _ & H).
  apply bind_Some in H as (tx & _ & [= <-]). reflexivity.
Qed.

(** A walk that has ended at a wall ends there under any larger bound. *)
Lemma dda_walk_mono wm : ∀ n m d d',
  (n ≤ m)%nat → dda_walk n wm d = Hit d' → dda_walk m wm d = Hit d'.
Proof.
  induction n as [|n IH]; intros m d d' Hnm H; [discriminate|].
  destruct m as [|m]; [lia|]. cbn [dda_walk] in *.
  destruct (dda_jump d) as [d1|]; [|discriminate].
  destruct (dda_hit wm d1) as [[|]|]; [assumption| |discriminate].
  apply IH with (m := m) in H; [assumption|lia].
Qed.

Lemma castRay_mono n m wm p x s :
  (n ≤ m)%nat → castRay n wm p x = Some s → castRay m wm p x = Some s.
Proof.
  intros Hnm H. apply castRay_Some in H as (d0 & d & Hd0 & Hw & Hs).
  unfold castRay. rewrite Hd0. cbn [mbind option_bind].
  rewrite (dda_walk_mono wm n m d0 d Hnm Hw). exact Hs.
Qed.

Lemma castRay_intro fuel wm p x d0 d s :
  dda_init p x = Some d0 → dda_walk fuel wm d0 = Hit d → slice_of p x d = Some s →
  castRay fuel wm p x = Some s.
Proof.
  intros Hd0 Hw Hs. unfold castRay. rewrite Hd0. cbn [mbind option_bind].
  rewrite Hw. exact Hs.
Qed.

Lemma render_columns_mono n m wm p : ∀ k x zb zb',
  (n ≤ m)%nat →
  render_columns n wm p k x zb = Some zb' → render_columns m wm p k x zb = Some zb'.
Proof.
  induction k as [|k IH]; intros x zb zb' Hnm H; [exact H|].
  cbn [render_columns] in *. apply bind_Some in H as (zb1 & H1 & H).
  unfold render_column in H1. apply bind_Some in H1 as (s & Hs & H1).
  unfold render_column. rewrite (castRay_mono n m wm p x s Hnm Hs).
  cbn [mbind option_bind]. rewrite H1. cbn [mbind option_bind].
  apply IH; assumption.
Qed.

(** The loop over the view columns ends when each of its ray casts does. *)
Lemma render_columns_Some fuel wm p : ∀ k x zb,
  0 <= x → x + Z.of_nat k <= RAY_WIDTH → length zb = Z.to_nat SCREEN_WIDTH →
  (∀ x', x <= x' < x + Z.of_nat k → is_Some (castRay fuel wm p x')) →
  is_Some (render_columns fuel wm p k x zb).
Proof.
  induction k as [|k IH]; intros x zb Hx Hk Hl H; [eexists; reflexivity|].
  cbn [render_columns]. destruct (H x ltac:(lia)) as [s Hs].
  destruct (store_depth_span x (perpWallDist s) zb ltac:(lia) Hl) as (first & Hf & Hst).
  unfold render_column. rewrite Hs. cbn [mbind option_bind].
  rewrite Hf. cbn [mbind option_bind]. rewrite Hst. cbn [mbind option_bind].
  apply IH; [lia|lia|rewrite span_written_length; exact Hl|].
  intros x' Hx'. apply H. lia.
Qed.

(** The wall pass ends exactly when the ray cast of every view column
    does. *)
Lemma wall_pass_Some fuel g :
  is_Some (wall_pass fuel g) ↔
  ∀ x, 0 <= x < RAY_WIDTH →
    is_Some (castRay fuel (Game.worldMap g) (Game.player g) x).
Proof.
  assert (Hw : Z.of_nat (Z.to_nat RAY_WIDTH) = 200) by reflexivity.
  unfold wall_pass. split.
  - intros [zb H] x Hx.
    apply render_columns_spec in H as [_ H];
      [|lia|rewrite Hw; vm_compute; discriminate|apply length_replicate].
    specialize (H (4 * x) ltac:(lia)).
    replace ((4 * 0 <=? 4 * x) && (4 * x <? 4 * (0 + Z.of_nat (Z.to_nat RAY_WIDTH))))
      with true in H.
    2:{ symmetry. apply andb_true_iff. rewrite Z.leb_le, Z.ltb_lt, Hw.
        change RAY_WIDTH with 200 in Hx. lia. }
    destruct H as (s & Hs & _).
    replace (4 * x / 4) with x in Hs by (rewrite Z.mul_comm, Z.div_mul; lia).
    eexists. exact Hs.
  - intros H. apply render_columns_Some;
      [lia|rewrite Hw; vm_compute; discriminate|apply length_replicate|].
    intros x Hx. apply H. rewrite Hw in Hx. change RAY_WIDTH with 200. lia.
Qed.

(** C4, as the code has it.  The wall pass starts from a depth buffer whose
    800 slots all hold [FLT_MAX], the largest finite float.  It ends
    exactly when, for every view column, the int conversions of the
    camera's position are defined, the DDA walk ends at a wall, and the int
    conversions of the line height and of the texture column are defined;
    a larger bound on the iterations of the walks then gives the same
    buffer.  The buffer it leaves has 800 slots, and every screen column
    [sx] holds the distance the DDA walk of view column [sx / 4] computed,
    the running distance on the hit axis minus that axis' delta, raised to
    0.05 by [std::max]. *)
Theorem depth_buffer_holds_wall_distance fuel g :
  wall_pass fuel g =
    render_columns fuel (Game.worldMap g) (Game.player g) (Z.to_nat RAY_WIDTH) 0
                   (replicate (Z.to_nat SCREEN_WIDTH) F32.FLT_MAX)
  ∧ (is_Some (wall_pass fuel g) ↔
       ∀ x, 0 <= x < RAY_WIDTH →
         ∃ d0 d s, dda_init (Game.player g) x = Some d0
           ∧ dda_walk fuel (Game.worldMap g) d0 = Hit d
           ∧ slice_of (Game.player g) x d = Some s)
  ∧ ∀ zBuffer, wall_pass fuel g = Some zBuffer →
      (∀ fuel', (fuel ≤ fuel')%nat → wall_pass fuel' g = Some zBuffer)
      ∧ length zBuffer = Z.to_nat SCREEN_WIDTH
      ∧ ∀ sx, 0 <= sx < SCREEN_WIDTH →
          ∃ d0 d, dda_init (Game.player g) (sx / 4) = Some d0
            ∧ dda_walk fuel (Game.worldMap g) d0 = Hit d
            ∧ zBuffer !! Z.to_nat sx =
                Some (F32.max (if side d =? 0
                               then F32.sub (sideDistX d) (deltaDistX d)
                               else F32.sub (sideDistY d) (deltaDistY d))
                              f0_05).
Proof.
  split; [reflexivity|]. split.
  - rewrite wall_pass_Some. split; intros H x Hx.
    + destruct (H x Hx) as [s Hs]. apply castRay_Some in Hs as (d0 & d & ?). eauto.
    + destruct (H x Hx) as (d0 & d & s & Hd0 & Hw & Hs).
      exists s. eapply castRay_intro; eassumption.
  - intros zBuffer H. split.
    { intros fuel' Hf. unfold wall_pass in *. eapply render_columns_mono; eassumption. }
    unfold wall_pass in H.
    apply render_columns_spec in H as [Hl H];
      [|lia|unfold RAY_WIDTH; rewrite Z2Nat.id; [lia|vm_compute; discriminate]
       |apply length_replicate].
    split; [exact Hl|]. intros sx Hsx.
    specialize (H sx ltac:(lia)).
    replace ((4 * 0 <=? sx) && (sx <? 4 * (0 + Z.of_nat (Z.to_nat RAY_WIDTH))))
      with true in H.
    2:{ symmetry. apply andb_true_iff. rewrite Z.leb_le, Z.ltb_lt.
        unfold SCREEN_WIDTH in Hsx. change (Z.of_nat (Z.to_nat RAY_WIDTH)) with 200. lia. }
    destruct H as (s & Hs & Hz). apply castRay_Some in Hs as (d0 & d & Hd0 & Hw & Hs).
    apply slice_of_perp in Hs. exists d0, d.
    split; [exact Hd0|]. split; [exact Hw|].
    rewrite Hz, Hs. unfold raw_perp. reflexivity.
Qed.

Lemma depth_buffer_holds_wall_distance_witness :
  (∃ g zb d0 d,
     run libm_at_one strafe_then_wait (new_game libm_at_one rnd_wall) = Some g
     ∧ wall_pass 50 g = Some zb
     ∧ wall_pass 1000 g = Some zb
     ∧ dda_init (Game.player g) 180 = Some d0
     ∧ dda_walk 50 (Game.worldMap g) d0 = Hit d
     ∧ side d = 1
     ∧ F32.ltb f0_05 (F32.sub (sideDistY d) (deltaDistY d)) = true
     ∧ zb !! 720%nat = Some (F32.sub (sideDistY d) (deltaDistY d)))
  ∧ (∃ g zb d0 d,
       run libm_at_one (replicate 40 (Tick holdW)) (new_game libm_at_one rnd_plain) = Some g
       ∧ wall_pass 50 g = Some zb
       ∧ dda_init (Game.player g) 100 = Some d0
       ∧ dda_walk 50 (Game.worldMap g) d0 = Hit d
       ∧ side d = 0
       ∧ F32.ltb (F32.sub (sideDistX d) (deltaDistX d)) f0_05 = true
       ∧ zb !! 400%nat = Some f0_05).
Proof.
  split.
  - eexists. eexists. eexists. eexists.
    split; [vm_compute; reflexivity|].
    match goal with |- ?A ∧ _ => assert (H : A) by (vm_compute; reflexivity) end.
    split; [exact H|].
    match type of H with wall_pass 50 ?g = Some ?zb =>
      destruct (depth_buffer_holds_wall_distance 50 g) as (_ & _ & Hres);
      destruct (Hres zb H) as (Hmono & _ & Hsx) end.
    split; [apply Hmono; lia|].
    destruct (Hsx 720 ltac:(unfold SCREEN_WIDTH; lia)) as (d0 & d & Hd0 & Hw & Hz).
    vm_compute in Hd0. injection Hd0 as <-.
    vm_compute in Hw. injection Hw as <-.
    split; [vm_compute; reflexivity|].
    split; [vm_compute; reflexivity|].
    split; [reflexivity|].
    split; [vm_compute; reflexivity|].
    etransitivity; [exact Hz|]. vm_compute. reflexivity.
  - eexists. eexists. eexists. eexists.
    split; [vm_compute; reflexivity|].
    match goal with |- ?A ∧ _ => assert (H : A) by (vm_compute; reflexivity) end.
    split; [exact H|].
    match type of H with wall_pass 50 ?g = Some ?zb =>
      destruct (depth_buffer_holds_wall_distance 50 g) as (_ & _ & Hres);
      destruct (Hres zb H) as (_ & _ & Hsx) end.
    destruct (Hsx 400 ltac:(unfold SCREEN_WIDTH; lia)) as (d0 & d & Hd0 & Hw & Hz).
    vm_compute in Hd0. injection Hd0 as <-.
    vm_compute in Hw. injection Hw as <-.
    split; [vm_compute; reflexivity|].
    split; [vm_compute; reflexivity|].
    split; [reflexivity|].
    split; [vm_compute; reflexivity|].
    etransitivity; [exact Hz|]. vm_compute. reflexivity.
Defined.

(** C4, as the specification has it, fails: a slot of the cleared buffer
    holds a finite value, below +infinity.  And there is not always a state
    after the pass: for the camera that 41 ticks with [W] held have taken
    into the border cell (0, 5), the walk of the centre ray ends at no
    wall, and the pass does not end, whatever the bound on the
    iterations. *)
Lemma reset_value_is_finite :
  clear_zBuffer !! 0%nat = Some F32.FLT_MAX
  ∧ F32.FLT_MAX ≠ S754_infinity false
  ∧ F32.ltb F32.FLT_MAX (S754_infinity false) = true
  ∧ ∃ g, run libm_at_one (replicate 41 (Tick holdW)) (new_game libm_at_one rnd_plain)
         = Some g
       ∧ ∀ fuel, wall_pass fuel g = None.
Proof.
  split; [reflexivity|]. split; [discriminate|]. split; [reflexivity|].
  eexists. split; [vm_compute; reflexivity|].
  intros fuel.
  apply eq_None_not_Some. intros Hs.
  apply wall_pass_Some with (x := 100) in Hs; [|vm_compute; split; [discriminate|reflexivity]].
  destruct Hs as [s Hs]. apply castRay_Some in Hs as (d0 & d & Hd0 & Hw & _).
  vm_compute in Hd0. injection Hd0 as <-.
  destruct fuel as [|fuel]; [discriminate|].
  cbn [dda_walk] in Hw.
  match type of Hw with context [dda_jump ?d0] =>
    let r := eval vm_compute in (dda_jump d0) in
    change (dda_jump d0) with r in Hw end.
  cbv iota beta in Hw.
  match type of Hw with context [dda_hit ?w ?d1] =>
    let r := eval vm_compute in (dda_hit w d1) in
    change (dda_hit w d1) with r in Hw end.
  cbv iota beta in Hw.
  revert Hw. apply dda_walk_lost; vm_compute; [reflexivity|discriminate].
Qed.

(** ** The texture column *)

Lemma mirror_texX_cases ray d tx :
  mirror_texX ray d tx =
    if ((side d =? 0) && F32.gtb (Vec2.x ray) F32.zero)
       || ((side d =? 1) && F32.ltb (Vec2.y ray) F32.zero)
    then CELL_SIZE - tx - 1 else tx.
Proof.
  unfold mirror_texX. destruct (side d =? 0) eqn:E0.
  - apply Z.eqb_eq in E0. rewrite E0. simpl.
    destruct (F32.gtb (Vec2.x ray) F32.zero); reflexivity.
  - simpl. destruct (side d =? 1); simpl; [|reflexivity].
    destruct (F32.ltb (Vec2.y ray) F32.zero); reflexivity.
Qed.

(** C9, as the code has it.  For every wall hit, the texture column is taken
    from the fractional part of the hit position along the axis that was not
    stepped ([y] for a side-0 hit, [x] for a side-1 hit), and it is replaced
    by [CELL_SIZE - texX - 1] exactly when the hit is on side 0 and the ray
    travels towards positive [x], or on side 1 and the ray travels towards
    negative [y]. *)
Theorem texture_column_mirroring fuel wm p x s :
  castRay fuel wm p x = Some s →
  ∃ d0 d tx,
    dda_init p x = Some d0 ∧ dda_walk fuel wm d0 = Hit d ∧ hitSide s = side d
    ∧ (let pos := Player.position p in
       let ray := rayDir p x in
       let wallX := if side d =? 0
                    then F32.add (Vec2.y pos) (F32.mul (perpWallDist s) (Vec2.y ray))
                    else F32.add (Vec2.x pos) (F32.mul (perpWallDist s) (Vec2.x ray)) in
       to_int (F32.mul (F32.sub wallX (F32.floor wallX)) (F32.of_Z CELL_SIZE)) = Some tx)
    ∧ texX s =
        if ((side d =? 0) && F32.gtb (Vec2.x (rayDir p x)) F32.zero)
           || ((side d =? 1) && F32.ltb (Vec2.y (rayDir p x)) F32.zero)
        then CELL_SIZE - tx - 1 else tx.
Proof.
  intros H. apply castRay_Some in H as (d0 & d & Hd0 & Hw & Hs).
  unfold slice_of in Hs. apply bind_Some in Hs as (lh & _ & Hs).
  apply bind_Some in Hs as (tx & Htx & [= <-]).
  exists d0, d, tx. cbn [hitSide texX perpWallDist].
  repeat split; try assumption. apply mirror_texX_cases.
Qed.

Lemma texture_column_mirroring_witness :
  ∃ s, castRay 50 border_map Player.init 0 = Some s
    ∧ ∃ d0 d tx,
        dda_init Player.init 0 = Some d0 ∧ dda_walk 50 border_map d0 = Hit d
        ∧ hitSide s = side d
        ∧ (let pos := Player.position Player.init in
           let ray := rayDir Player.init 0 in
           let wallX := if side d =? 0
                        then F32.add (Vec2.y pos) (F32.mul (perpWallDist s) (Vec2.y ray))
                        else F32.add (Vec2.x pos) (F32.mul (perpWallDist s) (Vec2.x ray)) in
           to_int (F32.mul (F32.sub wallX (F32.floor wallX)) (F32.of_Z CELL_SIZE)) = Some tx)
        ∧ texX s =
            if ((side d =? 0) && F32.gtb (Vec2.x (rayDir Player.init 0)) F32.zero)
               || ((side d =? 1) && F32.ltb (Vec2.y (rayDir Player.init 0)) F32.zero)
            then CELL_SIZE - tx - 1 else tx.
Proof.
  eexists. split; [vm_compute; reflexivity|].
  apply (texture_column_mirroring 50 border_map Player.init 0).
  vm_compute. reflexivity.
Defined.

(** C9, as the specification has it, fails: in the frame after
    [strafe_then_wait], the ray of view column 180 is stopped by a step in
    [y] (side 1) while it travels towards positive [y], and its texture
    column is not mirrored. *)
Lemma side1_positive_ray_not_mirrored :
  ∃ p wm d0 d s tx,
    (∀ L, observe camera L rnd_wall strafe_then_wait = Some (p, wm))
    ∧ dda_init p 180 = Some d0 ∧ dda_walk 50 wm d0 = Hit d
    ∧ castRay 50 wm p 180 = Some s
    ∧ side d = 1 ∧ stepY d = 1 ∧ F32.gtb (Vec2.y (rayDir p 180)) F32.zero = true
    ∧ texX_raw p (rayDir p 180) d = Some tx
    ∧ texX s = tx ∧ tx ≠ CELL_SIZE - tx - 1.
Proof.
  do 6 eexists. split; [intros L; vm_compute; reflexivity|].
  do 8 (split; [vm_compute; reflexivity|]).
  vm_compute. discriminate.
Qed.

(** ** Sprites against the depth buffer *)

(** The bounds of the three counted loops are enough: more iterations give
    the same result. *)
Lemma store_depth_fuel limit v : ∀ n m sx zb,
  SCREEN_WIDTH - sx <= Z.of_nat n → SCREEN_WIDTH - sx <= Z.of_nat m →
  store_depth n limit v sx zb = store_depth m limit v sx zb.
Proof.
  assert (Hend : ∀ k sx zb, SCREEN_WIDTH - sx <= 0 →
            store_depth k limit v sx zb = Some zb).
  { intros [|k] sx zb Hsx; simpl; [reflexivity|].
    destruct (F32.ltb _ limit); [|reflexivity].
    replace (SCREEN_WIDTH <=? sx) with true by (symmetry; apply Z.leb_le; lia).
    reflexivity. }
  induction n as [|n IH]; intros m sx zb Hn Hm.
  - rewrite (Hend m) by lia. reflexivity.
  - destruct m as [|m]; [rewrite (Hend (S n)) by lia; reflexivity|].
    simpl. destruct (F32.ltb _ limit); [|reflexivity].
    destruct (SCREEN_WIDTH <=? sx); [reflexivity|].
    destruct (zwrite zb sx v) as [zb1|]; [|reflexivity]. simpl. apply IH; lia.
Qed.

Lemma column_stores_fuel s x tx : 1 <= step s → ∀ n m y,
  drawEndY s - y <= Z.of_nat n → drawEndY s - y <= Z.of_nat m →
  column_stores n s x tx y = column_stores m s x tx y.
Proof.
  intros Hstep.
  assert (Hend : ∀ k y, drawEndY s - y <= 0 → column_stores k s x tx y = Some []).
  { intros [|k] y Hy; simpl; [reflexivity|].
    replace (y <? drawEndY s) with false by (symmetry; apply Z.ltb_ge; lia).
    reflexivity. }
  induction n as [|n IH]; intros m y Hn Hm.
  - rewrite (Hend m) by lia. reflexivity.
  - destruct m as [|m]; [rewrite (Hend (S n)) by lia; reflexivity|].
    simpl. destruct (y <? drawEndY s); [|reflexivity].
    rewrite (IH m (y + step s)) by lia. reflexivity.
Qed.

Lemma sprite_stores_fuel zb s : 1 <= step s → ∀ n m x,
  drawEndX s - x <= Z.of_nat n → drawEndX s - x <= Z.of_nat m →
  sprite_stores n zb s x = sprite_stores m zb s x.
Proof.
  intros Hstep.
  assert (Hend : ∀ k x, drawEndX s - x <= 0 → sprite_stores k zb s x = Some []).
  { intros [|k] x Hx; simpl; [reflexivity|].
    replace (x <? drawEndX s) with false by (symmetry; apply Z.ltb_ge; lia).
    reflexivity. }
  induction n as [|n IH]; intros m x Hn Hm.
  - rewrite (Hend m) by lia. reflexivity.
  - destruct m as [|m]; [rewrite (Hend (S n)) by lia; reflexivity|].
    simpl. destruct (x <? drawEndX s); [|reflexivity].
    rewrite (IH m (x + step s)) by lia. reflexivity.
Qed.

Lemma column_of_pixel x y :
  0 <= x < SCREEN_WIDTH → column (y * SCREEN_WIDTH + x) = x.
Proof.
  intros Hx. unfold column. rewrite Z.add_comm, Z.mod_add by (unfold SCREEN_WIDTH; lia).
  apply Z.mod_small. assumption.
Qed.

Lemma pixel_stores_columns s x y tx l :
  pixel_stores s x y tx = Some l → 0 <= x < SCREEN_WIDTH →
  ∀ w, In w l → store_from s x (column (index w)).
Proof.
  unfold pixel_stores, store_from. intros H Hx w Hw.
  apply bind_Some in H as (ty & _ & H). apply bind_Some in H as (t & _ & H).
  destruct (Z.land t 0xFF000000 =? 0); injection H as <-; [contradiction|].
  destruct Hw as [<-|Hw].
  - left. apply column_of_pixel; assumption.
  - destruct (1 <? step s) eqn:Hstep; [|contradiction]. apply Z.ltb_lt in Hstep.
    apply in_app_or in Hw as [Hw|Hw]; [|apply in_app_or in Hw as [Hw|Hw]].
    + destruct ((x + 1 <? drawEndX s) && (x + 1 <? SCREEN_WIDTH)) eqn:E; [|contradiction].
      apply andb_true_iff in E as [_ E%Z.ltb_lt]. destruct Hw as [<-|[]]. right.
      split; [assumption|]. cbn [index]. rewrite <- Z.add_assoc.
      apply column_of_pixel. lia.
    + destruct ((y + 1 <? drawEndY s) && (y + 1 <? SCREEN_HEIGHT)); [|contradiction].
      destruct Hw as [<-|[]]. left. apply column_of_pixel; assumption.
    + destruct ((x + 1 <? drawEndX s) && (y + 1 <? drawEndY s)
                && (x + 1 <? SCREEN_WIDTH) && (y + 1 <? SCREEN_HEIGHT)) eqn:E;
        [|contradiction].
      apply andb_true_iff in E as [E _]. apply andb_true_iff in E as [_ E%Z.ltb_lt].
      destruct Hw as [<-|[]]. right.
      split; [assumption|]. cbn [index]. rewrite <- Z.add_assoc.
      apply column_of_pixel. lia.
Qed.

Lemma column_stores_columns s x tx n : ∀ y l,
  column_stores n s x tx y = Some l → 0 <= x < SCREEN_WIDTH →
  ∀ w, In w l → store_from s x (column (index w)).
Proof.
  induction n as [|n IH]; simpl; intros y l H Hx w Hw.
  - injection H as <-. contradiction.
  - destruct (y <? drawEndY s); [|injection H as <-; contradiction].
    apply bind_Some in H as (here & Hhere & H).
    apply bind_Some in H as (rest & Hrest & [= <-]).
    apply in_app_or in Hw as [Hw|Hw]; [|eapply IH; eassumption].
    destruct ((y <? 0) || (SCREEN_HEIGHT <=? y)).
    + injection Hhere as <-. contradiction.
    + eapply pixel_stores_columns; eassumption.
Qed.

Lemma sprite_column_columns zb s x l :
  sprite_column zb s x = Some l → ∀ w, In w l →
  ∃ depth, 0 <= x < SCREEN_WIDTH ∧ zb !! Z.to_nat x = Some depth
    ∧ F32.gtb (transformY s) depth = false
    ∧ store_from s x (column (index w)).
Proof.
  unfold sprite_column. intros H w Hw.
  destruct ((x <? 0) || (SCREEN_WIDTH <=? x)) eqn:Hb; [injection H as <-; contradiction|].
  apply orb_false_iff in Hb as [Hx0%Z.ltb_ge Hx1%Z.leb_gt].
  apply bind_Some in H as (depth & Hd & H).
  destruct (F32.gtb (transformY s) depth) eqn:Hocc; [injection H as <-; contradiction|].
  apply bind_Some in H as (tx & _ & H).
  exists depth. repeat split; try assumption.
  eapply column_stores_columns; [eassumption|lia|assumption].
Qed.

Lemma sprite_stores_columns zb s n : ∀ x0 l,
  sprite_stores n zb s x0 = Some l → ∀ w, In w l →
  ∃ x depth, 0 <= x < SCREEN_WIDTH ∧ zb !! Z.to_nat x = Some depth
    ∧ F32.gtb (transformY s) depth = false
    ∧ store_from s x (column (index w)).
Proof.
  induction n as [|n IH]; simpl; intros x0 l H w Hw.
  - injection H as <-. contradiction.
  - destruct (x0 <? drawEndX s); [|injection H as <-; contradiction].
    apply bind_Some in H as (here & Hhere & H).
    apply bind_Some in H as (rest & Hrest & [= <-]).
    apply in_app_or in Hw as [Hw|Hw]; [|eapply IH; eassumption].
    exists x0. eapply sprite_column_columns; eassumption.
Qed.

(** X4.  Every store the sprite pass makes for an enemy goes to a column
    that was sampled and passed the depth test ([transformY > zBuffer[x]] is
    false there), or, with the coarse step 2, to the right neighbour of
    such a column. *)
Theorem sprite_stores_pass_depth_test zb p e stores w :
  draw_sprite zb p e = Some stores → In w stores →
  ∃ s x depth,
    project p e = Some (Some s)
    ∧ 0 <= x < SCREEN_WIDTH ∧ zb !! Z.to_nat x = Some depth
    ∧ F32.gtb (transformY s) depth = false
    ∧ (column (index w) = x ∨ (step s = 2 ∧ column (index w) = x + 1)).
Proof.
  unfold draw_sprite. intros H Hw.
  destruct (Enemy.isDead e); [injection H as <-; contradiction|].
  apply bind_Some in H as (ps & Hps & H).
  destruct ps as [s|]; [|injection H as <-; contradiction].
  destruct (sprite_stores_columns _ _ _ _ _ H w Hw) as (x & depth & Hx & Hd & Hocc & Hfrom).
  exists s, x, depth. repeat split; try assumption; try apply Hx.
  destruct Hfrom as [Hc | [Hstep Hc]]; [left; assumption|right].
  split; [|assumption].
  unfold project in Hps. destruct (F32.leb _ f0_1); [discriminate|].
  apply bind_Some in Hps as (ssx & _ & Hps). apply bind_Some in Hps as (size & _ & Hps).
  destruct (_ || _) in Hps; [discriminate|]. injection Hps as <-.
  cbn [step] in *. destruct (Z.quot SCREEN_HEIGHT 2 <? _); [reflexivity|lia].
Qed.

Lemma sprite_stores_pass_depth_test_witness :
  ∃ stores,
    draw_sprite far_walls far_player far_enemy = Some stores
    ∧ In {| index := 237985; texel := 2298413056 |} stores
    ∧ ∃ s x depth,
        project far_player far_enemy = Some (Some s)
        ∧ 0 <= x < SCREEN_WIDTH ∧ far_walls !! Z.to_nat x = Some depth
        ∧ F32.gtb (transformY s) depth = false
        ∧ (column 237985 = x ∨ (step s = 2 ∧ column 237985 = x + 1)).
Proof.
  eexists.
  match goal with |- ?A ∧ _ => assert (H : A) by (vm_compute; reflexivity) end.
  split; [exact H|]. split; [left; reflexivity|].
  exact (sprite_stores_pass_depth_test far_walls far_player far_enemy _
           {| index := 237985; texel := 2298413056 |} H (or_introl eq_refl)).
Defined.

(** C1 fails on the code.  In the frame after [strafe_then_wait] the sprite
    is 302 pixels high, so it is drawn with the coarse step.  At column 703
    the wall is farther than the sprite and the column is drawn; its
    neighbour 704 belongs to the next view column, where the wall is nearer
    than the sprite ([transformY > zBuffer[704]]), and the sprite pass still
    stores into column 704: the gap-filling stores at [x + 1] are made
    without the depth test. *)
Theorem sprite_drawn_over_nearer_wall L :
  observe (occlusion_report 703) L rnd_wall strafe_then_wait = Some (Some (false, true))
  ∧ observe (occlusion_report 704) L rnd_wall strafe_then_wait = Some (Some (true, true)).
Proof. split; vm_compute; reflexivity. Qed.


(** * Further properties of the code *)

(** ** Tables and world generation *)

Lemma angle_index_range angle i : angle_index angle = Some i → 0 <= i < ANGLE_TABLE_SIZE.
Proof.
  unfold angle_index. intros H. apply bind_Some in H as (q & _ & [= <-]).
  unfold ANGLE_TABLE_SIZE.
  pose proof (Z.rem_bound_abs q 1024 ltac:(lia)) as Hb.
  destruct (Z.rem q 1024 <? 0) eqn:E; [apply Z.ltb_lt in E|apply Z.ltb_ge in E]; lia.
Qed.

Lemma initTrigTables_lookup L i :
  0 <= i < ANGLE_TABLE_SIZE →
  (initTrigTables L).1 !! Z.to_nat i = Some (sinf L (table_angle i))
  ∧ (initTrigTables L).2 !! Z.to_nat i = Some (cosf L (table_angle i)).
Proof.
  intros Hi. unfold initTrigTables. cbn [fst snd].
  rewrite !list_lookup_fmap.
  assert (H : seq 0 (Z.to_nat ANGLE_TABLE_SIZE) !! Z.to_nat i = Some (Z.to_nat i)).
  { apply lookup_seq. unfold ANGLE_TABLE_SIZE in *. lia. }
  rewrite H. cbn [fmap option_fmap option_map]. rewrite Z2Nat.id by lia. auto.
Qed.

(** What no event changes. *)
Lemma dispatch_fixed L ev g g' :
  dispatch L ev g = Some g' →
  Game.worldMap g' = Game.worldMap g
  ∧ Game.sinTable g' = Game.sinTable g ∧ Game.cosTable g' = Game.cosTable g.
Proof.
  destruct ev as [i|c|]; cbn [dispatch].
  - destruct (Game.gameOver g) eqn:Hover.
    + rewrite update_over by assumption. intros [= <-]. auto.
    + intros H. apply update_running in H as (p & pes & es & _ & _ & _ & ->); auto.
  - intros [= <-]. unfold on_lbuttondown. destruct (Game.mouseCaptured g); auto.
  - intros [= <-]. auto.
Qed.

Lemma run_fixed L evs : ∀ g g',
  run L evs g = Some g' →
  Game.worldMap g' = Game.worldMap g
  ∧ Game.sinTable g' = Game.sinTable g ∧ Game.cosTable g' = Game.cosTable g.
Proof.
  induction evs as [|ev evs IH]; intros g g'; cbn [run].
  - intros [= <-]. auto.
  - intros H. apply bind_Some in H as (g1 & H1 & H).
    destruct (IH _ _ H) as (-> & -> & ->). apply dispatch_fixed with L ev. assumption.
Qed.

(** X5.  In every state the program can reach, the two tables are the ones
    [initTrigTables] filled.  Whenever the index computation of [fastSin]
    and [fastCos] is defined, the index is a slot of the table and the call
    returns the C library's sine, or cosine, of that slot's angle: a lookup
    never reads outside a table. *)
Theorem trig_lookup_stays_in_table L g angle i :
  reachable L g → angle_index angle = Some i →
  0 <= i < ANGLE_TABLE_SIZE
  ∧ fastSin (Game.sinTable g) angle = Some (sinf L (table_angle i))
  ∧ fastCos (Game.cosTable g) angle = Some (cosf L (table_angle i)).
Proof.
  intros (rnd & evs & _ & Hrun) H.
  apply run_fixed in Hrun as (_ & -> & ->).
  pose proof (angle_index_range _ _ H) as Hi. split; [assumption|].
  unfold fastSin, fastCos. rewrite H. cbn [mbind option_bind].
  apply initTrigTables_lookup. assumption.
Qed.

Lemma reachable_new L rnd : rand_ok rnd → reachable L (new_game L rnd).
Proof. intros H. exists rnd, []. split; [assumption|reflexivity]. Qed.

Lemma trig_lookup_stays_in_table_witness :
  reachable libm_at_one (new_game libm_at_one rnd_plain)
  ∧ angle_index (F32.of_Z (-1)) = Some 862
  ∧ 0 <= 862 < ANGLE_TABLE_SIZE
  ∧ fastSin (Game.sinTable (new_game libm_at_one rnd_plain)) (F32.of_Z (-1))
    = Some (sinf libm_at_one (table_angle 862))
  ∧ fastCos (Game.cosTable (new_game libm_at_one rnd_plain)) (F32.of_Z (-1))
    = Some (cosf libm_at_one (table_angle 862)).
Proof.
  assert (Hr : reachable libm_at_one (new_game libm_at_one rnd_plain))
    by (apply reachable_new, rnd_plain_ok).
  assert (Hi : angle_index (F32.of_Z (-1)) = Some 862) by (vm_compute; reflexivity).
  split; [exact Hr|]. split; [exact Hi|].
  exact (trig_lookup_stays_in_table libm_at_one _ _ _ Hr Hi).
Defined.

(** *** The grid *)

Lemma cell_border_map i j :
  0 <= i < MAP_WIDTH → 0 <= j < MAP_HEIGHT → cell border_map i j = Some (border_cell i j).
Proof.
  intros Hi Hj. unfold cell.
  replace ((0 <=? i) && (i <? MAP_WIDTH) && (0 <=? j) && (j <? MAP_HEIGHT)) with true
    by (symmetry; unfold MAP_WIDTH, MAP_HEIGHT in *; repeat (apply andb_true_intro; split); lia).
  unfold border_map, Grid. rewrite list_lookup_fmap.
  rewrite (proj2 (lookup_seq 0 (Z.to_nat MAP_WIDTH) (Z.to_nat i) (Z.to_nat i)))
    by (unfold MAP_WIDTH in *; lia).
  cbn [fmap option_fmap option_map mbind option_bind].
  rewrite list_lookup_fmap.
  rewrite (proj2 (lookup_seq 0 (Z.to_nat MAP_HEIGHT) (Z.to_nat j) (Z.to_nat j)))
    by (unfold MAP_HEIGHT in *; lia).
  cbn [fmap option_fmap option_map]. rewrite !Z2Nat.id by lia. reflexivity.
Qed.

Lemma cell_set_cell wm x y v i j c :
  0 <= x → 0 <= y → cell wm i j = Some c →
  cell (set_cell wm x y v) i j = Some (if (i =? x) && (j =? y) then v else c).
Proof.
  intros Hx Hy. unfold cell, set_cell, Grid.
  destruct ((0 <=? i) && (i <? MAP_WIDTH) && (0 <=? j) && (j <? MAP_HEIGHT)) eqn:Hin;
    [|discriminate].
  intros H. apply bind_Some in H as (row & Hrow & Hc).
  assert (0 <= i ∧ 0 <= j) as [Hi Hj].
  { apply andb_prop in Hin as [Hin _]. apply andb_prop in Hin as [Hin Hj'].
    apply andb_prop in Hin as [Hi' _]. lia. }
  destruct (i =? x) eqn:Eix.
  - apply Z.eqb_eq in Eix. subst x.
    rewrite list_lookup_alter_eq, Hrow. cbn [fmap option_fmap option_map mbind option_bind andb].
    destruct (j =? y) eqn:Ejy.
    + apply Z.eqb_eq in Ejy. subst y. apply list_lookup_insert_eq.
      apply lookup_lt_Some in Hc. assumption.
    + apply Z.eqb_neq in Ejy. rewrite list_lookup_insert_ne by lia. assumption.
  - apply Z.eqb_neq in Eix. rewrite list_lookup_alter_ne by lia.
    rewrite Hrow. cbn [mbind option_bind andb]. assumption.
Qed.

Lemma away_3 x : 1 <= x <= MAP_WIDTH - 2 →
  away x (Vec2.x (Player.position Player.init)) 3 = (x <? 2) || (8 <? x)
  ∧ away x (Vec2.y (Player.position Player.init)) 3 = (x <? 2) || (8 <? x).
Proof.
  intros Hx.
  assert (H : forallb (λ x, Bool.eqb (away x (Vec2.x (Player.position Player.init)) 3)
                                      ((x <? 2) || (8 <? x))
                            && Bool.eqb (away x (Vec2.y (Player.position Player.init)) 3)
                                        ((x <? 2) || (8 <? x)))
                      (Z.of_nat <$> seq 1 22) = true) by (vm_compute; reflexivity).
  rewrite forallb_forall in H. specialize (H x).
  destruct (andb_prop _ _ (H ltac:(apply in_map_iff; exists (Z.to_nat x); split;
    [lia|apply in_seq; unfold MAP_WIDTH in *; lia]))) as [H1 H2].
  apply Bool.eqb_prop in H1, H2. auto.
Qed.

Lemma away_5 x : 2 <= x <= MAP_WIDTH - 3 →
  away x (Vec2.x (Player.position Player.init)) 5 = (10 <? x)
  ∧ away x (Vec2.y (Player.position Player.init)) 5 = (10 <? x).
Proof.
  intros Hx.
  assert (H : forallb (λ x, Bool.eqb (away x (Vec2.x (Player.position Player.init)) 5)
                                      (10 <? x)
                            && Bool.eqb (away x (Vec2.y (Player.position Player.init)) 5)
                                        (10 <? x))
                      (Z.of_nat <$> seq 2 20) = true) by (vm_compute; reflexivity).
  rewrite forallb_forall in H. specialize (H x).
  destruct (andb_prop _ _ (H ltac:(apply in_map_iff; exists (Z.to_nat x); split;
    [lia|apply in_seq; unfold MAP_WIDTH in *; lia]))) as [H1 H2].
  apply Bool.eqb_prop in H1, H2. auto.
Qed.

Lemma grid_ok_border_map : grid_ok border_map.
Proof.
  intros i j Hi Hj. exists (border_cell i j). split; [apply cell_border_map; assumption|].
  unfold cell_ok, border_cell, MAP_WIDTH, MAP_HEIGHT in *.
  destruct (i =? 0) eqn:E1; destruct (j =? 0) eqn:E2;
    destruct (i =? 24 - 1) eqn:E3; destruct (j =? 24 - 1) eqn:E4; cbn [orb]; lia.
Qed.

Lemma place_walls_ok rnd : rand_ok rnd → ∀ n k wm,
  grid_ok wm → grid_ok (place_walls rnd Player.init k n wm).
Proof.
  intros Hrnd. induction n as [|n IH]; intros k wm Hwm; cbn [place_walls]; [assumption|].
  apply IH.
  set (x := Z.rem (rnd k) (MAP_WIDTH - 2) + 1).
  set (y := Z.rem (rnd (S k)) (MAP_HEIGHT - 2) + 1).
  assert (Hx : 1 <= x <= MAP_WIDTH - 2).
  { pose proof (Z.rem_bound_pos (rnd k) (MAP_WIDTH - 2) (Hrnd k)).
    unfold x, MAP_WIDTH in *. lia. }
  assert (Hy : 1 <= y <= MAP_WIDTH - 2).
  { pose proof (Z.rem_bound_pos (rnd (S k)) (MAP_HEIGHT - 2) (Hrnd (S k))).
    unfold y, MAP_WIDTH, MAP_HEIGHT in *. lia. }
  rewrite (proj1 (away_3 x Hx)), (proj2 (away_3 y Hy)).
  destruct ((x <? 2) || (8 <? x) || ((y <? 2) || (8 <? y))) eqn:Hfar; [|assumption].
  intros i j Hi Hj. destruct (Hwm i j Hi Hj) as (c & Hc & Hok).
  eexists. split; [apply cell_set_cell; [lia|lia|eassumption]|].
  destruct ((i =? x) && (j =? y)) eqn:Hhere; [|assumption].
  apply andb_prop in Hhere as [->%Z.eqb_eq ->%Z.eqb_eq].
  unfold cell_ok. split; [auto|]. split; [auto|].
  intros Hx' Hy'. exfalso.
  apply orb_prop in Hfar as [Hfar|Hfar]; apply orb_prop in Hfar as [Hfar|Hfar]; lia.
Qed.

(** X6.  In every state the program can reach, the grid is as the
    constructor drew it: every cell holds 0 or 1, the border cells hold 1,
    and the cells within three of the player's spawn cell (5, 5) along both
    axes hold 0.  No event changes the grid. *)
Theorem world_map_invariant L g i j :
  reachable L g → 0 <= i < MAP_WIDTH → 0 <= j < MAP_HEIGHT →
  ∃ c, cell (Game.worldMap g) i j = Some c
    ∧ (c = 0 ∨ c = 1)
    ∧ (i = 0 ∨ j = 0 ∨ i = MAP_WIDTH - 1 ∨ j = MAP_HEIGHT - 1 → c = 1)
    ∧ (2 <= i <= 8 → 2 <= j <= 8 → c = 0).
Proof.
  intros (rnd & evs & Hrnd & Hrun) Hi Hj.
  apply run_fixed in Hrun as (-> & _ & _).
  exact (place_walls_ok rnd Hrnd 50 0%nat border_map grid_ok_border_map i j Hi Hj).
Qed.

Lemma world_map_invariant_witness :
  reachable libm_at_one (new_game libm_at_one rnd_wall)
  ∧ ∃ c, cell (Game.worldMap (new_game libm_at_one rnd_wall)) 4 10 = Some c
      ∧ (c = 0 ∨ c = 1)
      ∧ (4 = 0 ∨ 10 = 0 ∨ 4 = MAP_WIDTH - 1 ∨ 10 = MAP_HEIGHT - 1 → c = 1)
      ∧ (2 <= 4 <= 8 → 2 <= 10 <= 8 → c = 0).
Proof.
  assert (Hr : reachable libm_at_one (new_game libm_at_one rnd_wall)).
  { apply reachable_new. intros k. unfold rnd_wall.
    repeat match goal with |- context [if ?b then _ else _] => destruct b end; lia. }
  split; [exact Hr|].
  apply (world_map_invariant libm_at_one _ 4 10 Hr); unfold MAP_WIDTH, MAP_HEIGHT; lia.
Defined.

(** *** The enemies *)

Lemma place_enemies_spawned rnd : rand_ok rnd → ∀ n k,
  Forall spawned (place_enemies rnd Player.init k n).
Proof.
  intros Hrnd. induction n as [|n IH]; intros k; cbn [place_enemies]; [constructor|].
  apply Forall_app. split; [|apply IH].
  set (x := Z.rem (rnd k) (MAP_WIDTH - 4) + 2).
  set (y := Z.rem (rnd (S k)) (MAP_HEIGHT - 4) + 2).
  assert (Hx : 2 <= x <= MAP_WIDTH - 3).
  { pose proof (Z.rem_bound_pos (rnd k) (MAP_WIDTH - 4) (Hrnd k)).
    unfold x, MAP_WIDTH in *. lia. }
  assert (Hy : 2 <= y <= MAP_WIDTH - 3).
  { pose proof (Z.rem_bound_pos (rnd (S k)) (MAP_HEIGHT - 4) (Hrnd (S k))).
    unfold y, MAP_WIDTH, MAP_HEIGHT in *. lia. }
  rewrite (proj1 (away_5 x Hx)), (proj2 (away_5 y Hy)).
  destruct ((10 <? x) || (10 <? y)) eqn:Hfar; [|constructor].
  constructor; [|constructor]. exists x, y.
  split; [assumption|]. split; [exact Hy|]. split; [|reflexivity].
  apply orb_prop in Hfar as [Hfar|Hfar]; lia.
Qed.

(** X7.  The constructor places at most five enemies, each as
    [Enemy(x, y)] on an integer cell between 2 and 21 on both axes that is
    more than five cells from the player's spawn cell along an axis. *)
Theorem enemies_spawn_away_from_player L rnd :
  rand_ok rnd →
  (length (Game.enemies (new_game L rnd)) <= 5)%nat
  ∧ Forall (λ e, ∃ x y, 2 <= x <= MAP_WIDTH - 3 ∧ 2 <= y <= MAP_HEIGHT - 3
                   ∧ (11 <= x ∨ 11 <= y)
                   ∧ e = Enemy.new (F32.of_Z x) (F32.of_Z y))
           (Game.enemies (new_game L rnd)).
Proof.
  intros Hrnd. split.
  - exact (place_enemies_length rnd Player.init 5 100).
  - exact (place_enemies_spawned rnd Hrnd 5 100%nat).
Qed.

Lemma enemies_spawn_away_from_player_witness :
  rand_ok rnd_three
  ∧ Game.enemies (new_game libm_at_one rnd_three)
    = replicate 3 (Enemy.new (F32.of_Z 11) (F32.of_Z 5))
  ∧ Forall (λ e, ∃ x y, 2 <= x <= MAP_WIDTH - 3 ∧ 2 <= y <= MAP_HEIGHT - 3
                   ∧ (11 <= x ∨ 11 <= y)
                   ∧ e = Enemy.new (F32.of_Z x) (F32.of_Z y))
           (Game.enemies (new_game libm_at_one rnd_three)).
Proof.
  split; [exact rnd_three_ok|]. split; [vm_compute; reflexivity|].
  exact (proj2 (enemies_spawn_away_from_player libm_at_one rnd_three rnd_three_ok)).
Defined.

Lemma enemy_update_fields p wm e e' :
  Enemy.update p wm e = Some e' →
  Enemy.speed e' = Enemy.speed e ∧ Enemy.health e' = Enemy.health e
  ∧ Enemy.isDead e' = Enemy.isDead e.
Proof.
  unfold Enemy.update. destruct (Enemy.isDead e) eqn:Hd; [intros [= <-]; auto|].
  destruct (F32.gtb _ f0_5); [|intros [= <-]; auto].
  intros H. apply bind_Some in H as (okx & _ & H). apply bind_Some in H as (oky & _ & H).
  injection H as <-. destruct okx, oky; cbn; auto.
Qed.

Lemma enemy_ok_update p wm e e' : Enemy.update p wm e = Some e' → enemy_ok e → enemy_ok e'.
Proof.
  intros H. apply enemy_update_fields in H as (Hs & Hh & Hd).
  unfold enemy_ok. rewrite Hs, Hh, Hd. auto.
Qed.

Lemma enemy_ok_damage e e' :
  Enemy.isDead e = false → damage e = Some e' → enemy_ok e → enemy_ok e'.
Proof.
  intros Hlive H (Hs & (k & Hk & Hh) & Hd). unfold damage in H.
  apply bind_Some in H as (h & Hint & [= <-]). apply as_int_Some in Hint as [-> _].
  rewrite Hlive in Hd. symmetry in Hd. apply Z.leb_gt in Hd.
  unfold enemy_ok. cbn. split; [assumption|]. split.
  - exists (k - 1). lia.
  - rewrite Hlive. destruct (Enemy.health e - 10 <=? 0); reflexivity.
Qed.

Lemma update_enemies_ok wm es : ∀ p r,
  update_enemies wm p es = Some r → Forall enemy_ok es → Forall enemy_ok r.2.
Proof.
  induction es as [|e es IH]; intros p r; cbn [update_enemies].
  - intros [= <-] _. constructor.
  - intros H Hok. apply bind_Some in H as (e' & He & H).
    apply bind_Some in H as (p' & _ & H). apply bind_Some in H as (r' & Hr & [= <-]).
    inversion Hok; subst. constructor; eauto using enemy_ok_update.
Qed.

Lemma shootWeapon_ok L p es : ∀ es',
  shootWeapon L p es = Some es' → Forall enemy_ok es → Forall enemy_ok es'.
Proof.
  induction es as [|e es IH]; intros es'; cbn [shootWeapon].
  - intros [= <-] _. constructor.
  - intros H Hok. inversion Hok; subst.
    destruct (Enemy.isDead e) eqn:Hd.
    + apply fmap_Some in H as (r & Hr & ->). constructor; eauto.
    + destruct (in_sights L p e).
      * apply bind_Some in H as (e' & He & [= <-]). constructor; eauto using enemy_ok_damage.
      * apply fmap_Some in H as (r & Hr & ->). constructor; eauto.
Qed.

Lemma enemies_inv_dispatch L ev g g' :
  dispatch L ev g = Some g' → Forall enemy_ok (Game.enemies g) →
  length (Game.enemies g') = length (Game.enemies g) ∧ Forall enemy_ok (Game.enemies g').
Proof.
  destruct ev as [i|c|]; cbn [dispatch].
  - destruct (Game.gameOver g) eqn:Hover.
    + rewrite update_over by assumption. intros [= <-]. auto.
    + intros H Hok.
      apply update_running in H as (p & pes & es & _ & Hpes & Hes & ->); [|assumption].
      cbn [Game.enemies].
      assert (H1 : length pes.2 = length (Game.enemies g) ∧ Forall enemy_ok pes.2).
      { destruct Hpes as [-> | Hpes]; [auto|]. split.
        - destruct pes as [q qs]. apply update_enemies_bounds in Hpes. apply Hpes.
        - eapply update_enemies_ok; eassumption. }
      destruct H1 as [Hl Hok']. destruct Hes as [-> | Hes]; [auto|]. split.
      * apply shootWeapon_length in Hes. congruence.
      * eapply shootWeapon_ok; eassumption.
  - intros [= <-]. unfold on_lbuttondown. destruct (Game.mouseCaptured g); auto.
  - intros [= <-]. auto.
Qed.

Lemma place_enemies_ok rnd p n : ∀ k, Forall enemy_ok (place_enemies rnd p k n).
Proof.
  induction n as [|n IH]; intros k; cbn [place_enemies]; [constructor|].
  apply Forall_app. split; [|apply IH].
  destruct (_ || _); constructor; [|constructor].
  split; [reflexivity|]. split; [exists 5; cbn; lia|reflexivity].
Qed.

(** X8.  After any events the game has as many enemies as it started
    with; each has the speed 0.03 and a health of 0, 10, ..., 50, and is
    dead exactly when its health is 0: five hits kill an enemy, and the
    health of an enemy never goes below 0. *)
Theorem enemy_health_invariant L rnd evs g :
  run L evs (new_game L rnd) = Some g →
  length (Game.enemies g) = length (Game.enemies (new_game L rnd))
  ∧ Forall (λ e, Enemy.speed e = f0_03
                 ∧ (∃ k, 0 <= k <= 5 ∧ Enemy.health e = 10 * k)
                 ∧ Enemy.isDead e = (Enemy.health e <=? 0))
           (Game.enemies g).
Proof.
  assert (Hnew : Forall enemy_ok (Game.enemies (new_game L rnd)))
    by apply place_enemies_ok.
  revert Hnew. generalize (new_game L rnd). revert g.
  induction evs as [|ev evs IH]; intros g g0 Hok; cbn [run].
  - intros [= <-]. auto.
  - intros H. apply bind_Some in H as (g1 & H1 & H).
    destruct (enemies_inv_dispatch _ _ _ _ H1 Hok) as [Hl Hok1].
    destruct (IH _ _ Hok1 H) as [Hl' Hok']. split; [congruence|assumption].
Qed.

Lemma enemy_health_invariant_witness :
  ∃ g, run libm_zero (replicate 5 (Tick fire)) (new_game libm_zero rnd_three) = Some g
    ∧ (λ e, (Enemy.health e, Enemy.isDead e)) <$> Game.enemies g
      = [(0, true); (50, false); (50, false)]
    ∧ length (Game.enemies g) = length (Game.enemies (new_game libm_zero rnd_three))
    ∧ Forall (λ e, Enemy.speed e = f0_03
                   ∧ (∃ k, 0 <= k <= 5 ∧ Enemy.health e = 10 * k)
                   ∧ Enemy.isDead e = (Enemy.health e <=? 0))
             (Game.enemies g).
Proof.
  eexists.
  match goal with |- ?A ∧ _ => assert (H : A) by (vm_compute; reflexivity) end.
  split; [exact H|]. split; [vm_compute; reflexivity|].
  exact (enemy_health_invariant libm_zero rnd_three _ _ H).
Defined.

(** *** One tick, stage by stage *)

Lemma update_stages L i g g' :
  Game.gameOver g = false → update L i g = Some g' →
  ∃ p1 p2 p3 p4 p5 pes es,
    when (keyW i) (movePlayer (Game.worldMap g) F32.one F32.zero) (Game.player g) = Some p1
    ∧ when (keyS i) (movePlayer (Game.worldMap g) (F32.of_Z (-1)) F32.zero) p1 = Some p2
    ∧ when (keyA i) (movePlayer (Game.worldMap g) F32.zero (F32.of_Z (-1))) p2 = Some p3
    ∧ when (keyD i) (movePlayer (Game.worldMap g) F32.zero F32.one) p3 = Some p4
    ∧ when (Game.mouseCaptured g)
        (λ p, dxi ← as_int ((cursor i).1 - (Game.lastMousePos g).1);
              Player.rotate (Game.sinTable g) (Game.cosTable g)
                            (F32.mul (F32.neg (F32.of_Z dxi)) f0_01) p) p4 = Some p5
    ∧ (if Z.rem (Game.frameCount g + 1) 2 =? 0 then update_enemies (Game.worldMap g) p5 (Game.enemies g)
       else Some (p5, Game.enemies g)) = Some pes
    ∧ (if lbutton i && Player.hasWeapon pes.1 then shootWeapon L pes.1 pes.2
       else Some pes.2) = Some es
    ∧ g' = Game.mk pes.1 es (Game.worldMap g) (Game.lastMousePos g) (Game.mouseCaptured g)
                   (Player.health pes.1 <=? 0) (Game.frameCount g + 1)
                   (Game.sinTable g) (Game.cosTable g).
Proof.
  intros Hrun. unfold update. rewrite Hrun. intros H.
  apply bind_Some in H as (p1 & H1 & H). apply bind_Some in H as (p2 & H2 & H).
  apply bind_Some in H as (p3 & H3 & H). apply bind_Some in H as (p4 & H4 & H).
  apply bind_Some in H as (p5 & H5 & H). apply bind_Some in H as (fc & Hfc & H).
  apply bind_Some in H as (pes & Hpes & H). apply bind_Some in H as (es & Hes & H).
  injection H as <-. apply as_int_Some in Hfc as [-> _].
  exists p1, p2, p3, p4, p5, pes, es. repeat (split; [assumption|]).
  f_equal. destruct (Player.health pes.1 <=? 0); reflexivity.
Qed.

Lemma movePlayer_heading wm f s p p' :
  movePlayer wm f s p = Some p' → same_heading p p' ∧ same_kit p p'.
Proof.
  unfold movePlayer. intros H.
  apply bind_Some in H as (okx & _ & H). apply bind_Some in H as (oky & _ & H).
  injection H as <-. destruct okx, oky; repeat split.
Qed.

Lemma rotate_position st ct a p p' :
  Player.rotate st ct a p = Some p' →
  Player.position p' = Player.position p ∧ same_kit p p'.
Proof.
  unfold Player.rotate. intros H.
  apply bind_Some in H as (c & _ & H). apply bind_Some in H as (s & _ & H).
  injection H as <-. repeat split.
Qed.

Lemma update_enemies_player wm es : ∀ p r,
  update_enemies wm p es = Some r →
  Player.position r.1 = Player.position p ∧ same_heading p r.1 ∧ same_kit p r.1.
Proof.
  induction es as [|e es IH]; intros p r; cbn [update_enemies].
  - intros [= <-]. repeat split.
  - intros H. apply bind_Some in H as (e' & _ & H).
    apply bind_Some in H as (p' & Hp' & H). apply bind_Some in H as (r' & Hr & [= <-]).
    apply IH in Hr as (Hpos & [Hd Hpl] & Hm & Hr & Hw). cbn [fst].
    assert (Hp : Player.position p' = Player.position p
                 ∧ same_heading p p' ∧ same_kit p p').
    { destruct (in_contact p e').
      - apply fmap_Some in Hp' as (h & _ & ->). repeat split.
      - injection Hp' as <-. repeat split. }
    destruct Hp as (Hpos' & [Hd' Hpl'] & Hm' & Hr' & Hw').
    unfold same_heading, same_kit. repeat split; congruence.
Qed.

Lemma damage_position e e' : damage e = Some e' → Enemy.position e' = Enemy.position e.
Proof. unfold damage. intros H. apply bind_Some in H as (h & _ & [= <-]). reflexivity. Qed.

Lemma shootWeapon_positions L p es : ∀ es',
  shootWeapon L p es = Some es' → Enemy.position <$> es' = Enemy.position <$> es.
Proof.
  induction es as [|e es IH]; intros es'; cbn [shootWeapon].
  - intros [= <-]. reflexivity.
  - intros H. destruct (Enemy.isDead e).
    + apply fmap_Some in H as (r & Hr & ->). cbn. f_equal. auto.
    + destruct (in_sights L p e).
      * apply bind_Some in H as (e' & He & [= <-]). cbn. f_equal. apply damage_position, He.
      * apply fmap_Some in H as (r & Hr & ->). cbn. f_equal. auto.
Qed.

Lemma odd_rem z : Z.odd z = true → (Z.rem z 2 =? 0) = false.
Proof.
  intros H. apply Z.eqb_neq. intros Hr.
  pose proof (Z.quot_rem' z 2) as Hz. rewrite Hr, Z.add_0_r in Hz.
  rewrite Hz, Z.odd_mul in H. discriminate.
Qed.

(** X9.  On a tick that makes the frame counter odd no enemy moves and the
    player loses no health; when the fire button is up the enemies are
    unchanged. *)
Theorem enemies_rest_on_odd_frames L i g g' :
  Game.gameOver g = false → update L i g = Some g' →
  Z.odd (Game.frameCount g') = true →
  Player.health (Game.player g') = Player.health (Game.player g)
  ∧ Enemy.position <$> Game.enemies g' = Enemy.position <$> Game.enemies g
  ∧ (lbutton i = false → Game.enemies g' = Game.enemies g).
Proof.
  intros Hover Hup.
  destruct (update_running L i g g' Hover Hup) as (p & _ & _ & [Hp _] & _).
  destruct (update_stages L i g g' Hover Hup)
    as (p1 & p2 & p3 & p4 & p5 & pes & es & H1 & H2 & H3 & H4 & H5 & Hpes & Hes & ->).
  cbn [Game.frameCount Game.player Game.enemies]. intros Hodd.
  rewrite (odd_rem _ Hodd) in Hpes. injection Hpes as <-. cbn [fst snd] in *.
  assert (Hh : Player.health p5 = Player.health (Game.player g)).
  { assert (Hm : ∀ c f s a a', when c (movePlayer (Game.worldMap g) f s) a = Some a' →
                  same_vitals a a').
    { intros c f s a a'. apply when_Some; [apply same_vitals_refl|apply movePlayer_vitals]. }
    apply Hm in H1 as [H1 _], H2 as [H2 _], H3 as [H3 _], H4 as [H4 _].
    assert (H5' : same_vitals p4 p5).
    { revert H5. apply when_Some; [apply same_vitals_refl|].
      intros x y Hxy. apply bind_Some in Hxy as (dx & _ & Hxy).
      eapply rotate_vitals; eauto. }
    destruct H5' as [H5' _]. congruence. }
  split; [assumption|]. split.
  - destruct (lbutton i && Player.hasWeapon p5); [|congruence].
    eapply shootWeapon_positions; eassumption.
  - intros Hb. rewrite Hb in Hes. cbn in Hes. congruence.
Qed.

Lemma enemies_rest_on_odd_frames_witness :
  ∃ g g',
    run libm_zero (replicate 2 (Tick fire)) (new_game libm_zero rnd_three) = Some g
    ∧ Game.gameOver g = false
    ∧ update libm_zero fire g = Some g'
    ∧ Z.odd (Game.frameCount g') = true
    ∧ Enemy.health <$> Game.enemies g = [30; 50; 50]
    ∧ Enemy.health <$> Game.enemies g' = [20; 50; 50]
    ∧ Player.health (Game.player g') = Player.health (Game.player g)
    ∧ Enemy.position <$> Game.enemies g' = Enemy.position <$> Game.enemies g.
Proof.
  eexists. eexists.
  match goal with |- ?A ∧ _ => assert (H : A) by (vm_compute; reflexivity) end.
  split; [exact H|].
  match goal with |- ?A ∧ ?B ∧ _ => assert (Hover : A) by (vm_compute; reflexivity);
    assert (Hup : B) by (vm_compute; reflexivity) end.
  split; [exact Hover|]. split; [exact Hup|].
  match goal with |- ?A ∧ _ => assert (Hodd : A) by (vm_compute; reflexivity) end.
  split; [exact Hodd|].
  split; [vm_compute; reflexivity|]. split; [vm_compute; reflexivity|].
  pose proof (enemies_rest_on_odd_frames libm_zero fire _ _ Hover Hup Hodd) as (Hh & Hp & _).
  split; [exact Hh|exact Hp].
Defined.

(** X10.  What one call of [Game::update] leaves alone: the direction and
    the plane of the camera when the mouse is not captured; the position
    when none of W, S, A, D is down; and always the two speeds, the weapon,
    the capture flag and the reference point of the mouse. *)
Theorem keys_move_and_mouse_turns L i g g' :
  update L i g = Some g' →
  (Game.mouseCaptured g = false →
     Player.direction (Game.player g') = Player.direction (Game.player g)
     ∧ Player.plane (Game.player g') = Player.plane (Game.player g))
  ∧ (keyW i = false → keyS i = false → keyA i = false → keyD i = false →
     Player.position (Game.player g') = Player.position (Game.player g))
  ∧ Player.moveSpeed (Game.player g') = Player.moveSpeed (Game.player g)
  ∧ Player.rotSpeed (Game.player g') = Player.rotSpeed (Game.player g)
  ∧ Player.hasWeapon (Game.player g') = Player.hasWeapon (Game.player g)
  ∧ Game.mouseCaptured g' = Game.mouseCaptured g
  ∧ Game.lastMousePos g' = Game.lastMousePos g.
Proof.
  destruct (Game.gameOver g) eqn:Hover.
  { rewrite update_over by assumption. intros [= <-]. repeat split. }
  intros Hup.
  destruct (update_stages L i g g' Hover Hup)
    as (p1 & p2 & p3 & p4 & p5 & pes & es & H1 & H2 & H3 & H4 & H5 & Hpes & Hes & ->).
  cbn [Game.player Game.mouseCaptured Game.lastMousePos].
  assert (Hm : ∀ c f s a a', when c (movePlayer (Game.worldMap g) f s) a = Some a' →
                same_heading a a' ∧ same_kit a a'
                ∧ (c = false → a' = a)).
  { intros c f s a a'. destruct c; cbn [when].
    - intros H. apply movePlayer_heading in H as [Hh Hk].
      split; [exact Hh|]. split; [exact Hk|]. intros [=].
    - intros [= <-]. repeat split. }
  apply Hm in H1 as ([Hd1 Hl1] & (Hm1 & Hr1 & Hw1) & Hk1).
  apply Hm in H2 as ([Hd2 Hl2] & (Hm2 & Hr2 & Hw2) & Hk2).
  apply Hm in H3 as ([Hd3 Hl3] & (Hm3 & Hr3 & Hw3) & Hk3).
  apply Hm in H4 as ([Hd4 Hl4] & (Hm4 & Hr4 & Hw4) & Hk4).
  assert (H5' : Player.position p5 = Player.position p4 ∧ same_kit p4 p5
                ∧ (Game.mouseCaptured g = false → p5 = p4)).
  { destruct (Game.mouseCaptured g); cbn [when] in H5.
    - apply bind_Some in H5 as (dx & _ & H5). apply rotate_position in H5 as [Hp Hk].
      split; [exact Hp|]. split; [exact Hk|]. intros [=].
    - injection H5 as <-. repeat split. }
  destruct H5' as (Hpos5 & (Hm5 & Hr5 & Hw5) & Hk5).
  assert (H6 : Player.position pes.1 = Player.position p5
               ∧ same_heading p5 pes.1 ∧ same_kit p5 pes.1).
  { destruct (Z.rem _ 2 =? 0).
    - eapply update_enemies_player; eassumption.
    - injection Hpes as <-. repeat split. }
  destruct H6 as (Hpos6 & [Hd6 Hl6] & Hm6 & Hr6 & Hw6).
  split; [|split; [|repeat split; congruence]].
  - intros Hcap. specialize (Hk5 Hcap). subst p5. split; congruence.
  - intros HW HS HA HD.
    rewrite (Hk1 HW), (Hk2 HS), (Hk3 HA), (Hk4 HD) in *. congruence.
Qed.

Lemma keys_move_and_mouse_turns_witness :
  ∃ g', update libm_at_one holdW (new_game libm_at_one rnd_plain) = Some g'
    ∧ Game.mouseCaptured (new_game libm_at_one rnd_plain) = false
    ∧ Player.position (Game.player g') = Vec2.mk (F32.lit 49 10) (F32.of_Z 5)
    ∧ Player.direction (Game.player g') = Player.direction Player.init
    ∧ Player.plane (Game.player g') = Player.plane Player.init.
Proof.
  eexists.
  match goal with |- ?A ∧ _ => assert (H : A) by (vm_compute; reflexivity) end.
  split; [exact H|]. split; [reflexivity|]. split; [vm_compute; reflexivity|].
  exact (proj1 (keys_move_and_mouse_turns libm_at_one holdW _ _ H) eq_refl).
Defined.

(** *** Contact damage *)

Lemma in_contact_position p p' e :
  Player.position p' = Player.position p → in_contact p' e = in_contact p e.
Proof. intros H. unfold in_contact. rewrite H. reflexivity. Qed.

Lemma contacts_position p p' es :
  Player.position p' = Player.position p → contacts p' es = contacts p es.
Proof.
  intros H. unfold contacts. f_equal. f_equal.
  induction es as [|e es IH]; cbn [List.filter]; [reflexivity|].
  rewrite (in_contact_position p p' e H), IH. reflexivity.
Qed.

(** X11.  The enemy loop of a tick leaves the player's position alone,
    updates each enemy against it, and takes from the player's health one
    point for each living enemy that is nearer than 0.5 after its move. *)
Theorem contact_costs_one_point_per_enemy wm es : ∀ p p' es',
  update_enemies wm p es = Some (p', es') →
  Player.position p' = Player.position p
  ∧ Player.health p' = Player.health p - contacts p es'
  ∧ Forall2 (λ e e', Enemy.update p wm e = Some e') es es'.
Proof.
  induction es as [|e es IH]; intros p p' es'; cbn [update_enemies].
  - intros [= <- <-]. unfold contacts. cbn. split; [reflexivity|]. split; [lia|constructor].
  - intros H. apply bind_Some in H as (e' & He & H).
    apply bind_Some in H as (p1 & Hp1 & H). apply bind_Some in H as ([p2 es2] & Hr & H).
    cbn [fst snd] in H. injection H as <- <-.
    apply IH in Hr as (Hpos & Hh & Hall).
    assert (H1 : Player.position p1 = Player.position p
                 ∧ Player.health p1 = Player.health p - (if in_contact p e' then 1 else 0)).
    { destruct (in_contact p e').
      - apply fmap_Some in Hp1 as (h & Hh1 & ->). apply as_int_Some in Hh1 as [-> _].
        split; reflexivity.
      - injection Hp1 as <-. split; [reflexivity|lia]. }
    destruct H1 as [Hpos1 Hh1].
    split; [congruence|]. split.
    + rewrite Hh, Hh1, (contacts_position p p1 es2 Hpos1).
      unfold contacts. cbn [List.filter]. destruct (in_contact p e'); cbn [length]; lia.
    + constructor; [assumption|].
      eapply Forall2_impl; [exact Hall|]. cbn. intros a b Hab.
      rewrite <- Hab. unfold Enemy.update. rewrite Hpos1. reflexivity.
Qed.

Lemma contact_costs_one_point_per_enemy_witness :
  ∃ p' es',
    update_enemies border_map (Game.player brink) (Game.enemies brink) = Some (p', es')
    ∧ contacts (Game.player brink) es' = 1
    ∧ Player.health p' = Player.health (Game.player brink) - contacts (Game.player brink) es'.
Proof.
  eexists. eexists.
  match goal with |- ?A ∧ _ => assert (H : A) by (vm_compute; reflexivity) end.
  split; [exact H|]. split; [vm_compute; reflexivity|].
  exact (proj1 (proj2 (contact_costs_one_point_per_enemy _ _ _ _ _ H))).
Defined.

(** *** The sprite pass stays on the screen *)

Lemma on_screen_bounds w : on_screen w → 0 <= index w < SCREEN_WIDTH * SCREEN_HEIGHT.
Proof. intros (x & y & Hx & Hy & ->). unfold SCREEN_WIDTH, SCREEN_HEIGHT in *. lia. Qed.

Lemma on_screen_at x y t :
  0 <= x < SCREEN_WIDTH → 0 <= y < SCREEN_HEIGHT →
  on_screen {| index := y * SCREEN_WIDTH + x; texel := t |}.
Proof. intros Hx Hy. exists x, y. auto. Qed.

Lemma pixel_stores_screen s x y tx l :
  pixel_stores s x y tx = Some l → 0 <= x < SCREEN_WIDTH → 0 <= y < SCREEN_HEIGHT →
  Forall (λ w, on_screen w ∧ opaque (texel w)) l.
Proof.
  unfold pixel_stores. intros H Hx Hy.
  apply bind_Some in H as (ty & _ & H). apply bind_Some in H as (t & _ & H).
  destruct (Z.land t 0xFF000000 =? 0) eqn:Ht; injection H as <-; [constructor|].
  apply Z.eqb_neq in Ht.
  constructor; [split; [apply on_screen_at; assumption|exact Ht]|].
  destruct (1 <? step s); [|constructor].
  repeat (apply Forall_app; split).
  - destruct ((x + 1 <? drawEndX s) && (x + 1 <? SCREEN_WIDTH)) eqn:E; [|constructor].
    apply andb_prop in E as [_ E%Z.ltb_lt].
    repeat constructor; [|exact Ht]. exists (x + 1), y. cbn. repeat split; lia.
  - destruct ((y + 1 <? drawEndY s) && (y + 1 <? SCREEN_HEIGHT)) eqn:E; [|constructor].
    apply andb_prop in E as [_ E%Z.ltb_lt].
    repeat constructor; [|exact Ht]. exists x, (y + 1). cbn. repeat split; lia.
  - destruct ((x + 1 <? drawEndX s) && (y + 1 <? drawEndY s)
              && (x + 1 <? SCREEN_WIDTH) && (y + 1 <? SCREEN_HEIGHT)) eqn:E; [|constructor].
    apply andb_prop in E as [E Ey%Z.ltb_lt]. apply andb_prop in E as [_ Ex%Z.ltb_lt].
    repeat constructor; [|exact Ht]. exists (x + 1), (y + 1). cbn. repeat split; lia.
Qed.

Lemma column_stores_screen s x tx n : ∀ y l,
  column_stores n s x tx y = Some l → 0 <= x < SCREEN_WIDTH →
  Forall (λ w, on_screen w ∧ opaque (texel w)) l.
Proof.
  induction n as [|n IH]; intros y l; cbn [column_stores].
  - intros [= <-] _. constructor.
  - destruct (y <? drawEndY s); [|intros [= <-] _; constructor].
    intros H Hx. apply bind_Some in H as (here & Hhere & H).
    apply bind_Some in H as (rest & Hrest & [= <-]).
    apply Forall_app. split; [|eapply IH; eassumption].
    destruct ((y <? 0) || (SCREEN_HEIGHT <=? y)) eqn:Hy.
    + injection Hhere as <-. constructor.
    + apply orb_false_elim in Hy as [Hy1%Z.ltb_ge Hy2%Z.leb_gt].
      eapply pixel_stores_screen; [eassumption|assumption|lia].
Qed.

Lemma sprite_column_screen zb s x l :
  sprite_column zb s x = Some l → Forall (λ w, on_screen w ∧ opaque (texel w)) l.
Proof.
  unfold sprite_column.
  destruct ((x <? 0) || (SCREEN_WIDTH <=? x)) eqn:Hx; [intros [= <-]; constructor|].
  apply orb_false_elim in Hx as [Hx1%Z.ltb_ge Hx2%Z.leb_gt].
  intros H. apply bind_Some in H as (depth & _ & H).
  destruct (F32.gtb (transformY s) depth); [injection H as <-; constructor|].
  apply bind_Some in H as (tx & _ & H).
  eapply column_stores_screen; [eassumption|lia].
Qed.

Lemma sprite_stores_screen zb s n : ∀ x l,
  sprite_stores n zb s x = Some l → Forall (λ w, on_screen w ∧ opaque (texel w)) l.
Proof.
  induction n as [|n IH]; intros x l; cbn [sprite_stores].
  - intros [= <-]. constructor.
  - destruct (x <? drawEndX s); [|intros [= <-]; constructor].
    intros H. apply bind_Some in H as (here & Hhere & H).
    apply bind_Some in H as (rest & Hrest & [= <-]).
    apply Forall_app. split; [eapply sprite_column_screen|eapply IH]; eassumption.
Qed.

Lemma draw_sprite_screen zb p e l :
  draw_sprite zb p e = Some l → Forall (λ w, on_screen w ∧ opaque (texel w)) l.
Proof.
  unfold draw_sprite. destruct (Enemy.isDead e); [intros [= <-]; constructor|].
  intros H. apply bind_Some in H as ([s|] & _ & H).
  - eapply sprite_stores_screen; eassumption.
  - injection H as <-. constructor.
Qed.

Lemma mapM_Forall {A B} (f : A → option (list B)) (P : B → Prop) :
  (∀ a l, f a = Some l → Forall P l) →
  ∀ xs ls, mapM f xs = Some ls → Forall P (concat ls).
Proof.
  intros Hf. induction xs as [|a xs IH]; intros ls; cbn [mapM].
  - intros [= <-]. constructor.
  - intros H. apply bind_Some in H as (l & Hl & H).
    apply bind_Some in H as (ls' & Hls & [= <-]). cbn [concat].
    apply Forall_app. split; eauto.
Qed.

(** X12.  Every store of the sprite pass goes to a pixel of the 800 x 600
    frame buffer, and its texel has a non-zero alpha byte: a transparent
    texel is never stored. *)
Theorem sprites_stay_on_screen zb g stores :
  renderSprites zb g = Some stores →
  Forall (λ w, (∃ x y, 0 <= x < SCREEN_WIDTH ∧ 0 <= y < SCREEN_HEIGHT
                 ∧ index w = y * SCREEN_WIDTH + x)
               ∧ 0 <= index w < SCREEN_WIDTH * SCREEN_HEIGHT
               ∧ Z.land (texel w) 0xFF000000 ≠ 0) stores.
Proof.
  unfold renderSprites. intros H. apply fmap_Some in H as (ls & Hls & ->).
  eapply Forall_impl.
  - eapply mapM_Forall; [|exact Hls]. intros a l. apply draw_sprite_screen.
  - cbn. intros w [Hw Ht]. split; [exact Hw|]. split; [apply on_screen_bounds, Hw|exact Ht].
Qed.

Lemma sprites_stay_on_screen_witness :
  ∃ stores,
    renderSprites far_walls far_game = Some stores
    ∧ In {| index := 237985; texel := 2298413056 |} stores
    ∧ Forall (λ w, (∃ x y, 0 <= x < SCREEN_WIDTH ∧ 0 <= y < SCREEN_HEIGHT
                     ∧ index w = y * SCREEN_WIDTH + x)
                   ∧ 0 <= index w < SCREEN_WIDTH * SCREEN_HEIGHT
                   ∧ Z.land (texel w) 0xFF000000 ≠ 0) stores.
Proof.
  eexists.
  match goal with |- ?A ∧ _ => assert (H : A) by (vm_compute; reflexivity) end.
  split; [exact H|]. split; [cbn; tauto|].
  exact (sprites_stay_on_screen far_walls far_game _ H).
Defined.

(** *** Which enemies are drawn *)

Lemma insert_far_perm a l : insert_far a l ≡ₚ a :: l.
Proof.
  induction l as [|b l IH]; cbn [insert_far]; [reflexivity|].
  destruct (F32.gtb b.1 a.1); [|reflexivity].
  rewrite IH. apply Permutation_swap.
Qed.

Lemma sort_far_perm l : sort_far l ≡ₚ l.
Proof.
  unfold sort_far. induction l as [|a l IH]; cbn [foldr]; [reflexivity|].
  rewrite insert_far_perm, IH. reflexivity.
Qed.

Lemma spriteOrder_visible p es : (spriteOrder p es).*2 = List.filter (visible p) es.
Proof.
  unfold spriteOrder, visible. induction es as [|e es IH]; [reflexivity|].
  cbn [omap list_omap List.filter].
  destruct (F32.gtb (sprite_dist p e) f400_0 || Enemy.isDead e); cbn; [|f_equal]; exact IH.
Qed.

Lemma mapM_fmap {A B C} (f : B → option C) (h : A → B) (l : list A) :
  mapM (λ a, f (h a)) l = mapM f (h <$> l).
Proof.
  induction l as [|a l IH]; [reflexivity|]. cbn [mapM fmap list_fmap]. rewrite IH. reflexivity.
Qed.

(** X13.  The sprite pass draws the living enemies whose squared distance
    from the player is not above 400, each of them once, in some order,
    and no other enemy. *)
Theorem each_visible_enemy_is_drawn_once zb g :
  ∃ order,
    order ≡ₚ List.filter (visible (Game.player g)) (Game.enemies g)
    ∧ renderSprites zb g
      = (λ stores, concat stores) <$> mapM (draw_sprite zb (Game.player g)) order.
Proof.
  exists ((sort_far (spriteOrder (Game.player g) (Game.enemies g))).*2). split.
  - rewrite sort_far_perm. rewrite spriteOrder_visible. reflexivity.
  - unfold renderSprites. rewrite <- mapM_fmap. reflexivity.
Qed.

(** *** The wall slice *)

Lemma trunc_positive_sign f z : positive_sign f → trunc f = Some z → 0 <= z.
Proof.
  destruct f as [s|s| |s m e]; cbn [positive_sign trunc]; try discriminate.
  - intros _ [= <-]. lia.
  - intros -> [= <-]. cbn [cond_Zopp].
    destruct (0 <=? e); [apply Z.shiftl_nonneg|apply Z.shiftr_nonneg]; lia.
Qed.

Lemma binary_round_aux_sign prec emax s m e l z :
  trunc (binary_round_aux prec emax s m e l) = Some z → s = false → 0 <= z.
Proof.
  unfold binary_round_aux.
  destruct (shr_fexp prec emax m e l) as [mrs' e'].
  destruct (shr_fexp prec emax _ e' loc_Exact) as [mrs'' e''].
  destruct (shr_m mrs'') as [|q|q]; cbn [trunc]; try discriminate.
  - intros [= <-]. lia.
  - destruct (e'' <=? emax - prec); cbn [trunc]; [|discriminate].
    intros [= <-] ->. cbn [cond_Zopp].
    destruct (0 <=? e''); [apply Z.shiftl_nonneg|apply Z.shiftr_nonneg]; lia.
Qed.

Lemma f0_05_bits : f0_05 = S754_finite false 13421773 (-28).
Proof. vm_compute. reflexivity. Qed.

Lemma clamp_positive raw :
  F32.max raw f0_05 = S754_nan
  ∨ positive_sign (F32.max raw f0_05) ∧ F32.ltb (F32.max raw f0_05) f0_05 = false.
Proof.
  unfold F32.max. destruct (F32.ltb raw f0_05) eqn:Hlt.
  - right. split; [rewrite f0_05_bits; reflexivity|vm_compute; reflexivity].
  - rewrite f0_05_bits in Hlt.
    destruct raw as [[|]|[|]| |[|] m e];
      try (unfold F32.ltb, SFltb, SFcompare in Hlt; cbv beta iota in Hlt; discriminate Hlt);
      auto; right; (split; [reflexivity|]); rewrite f0_05_bits; exact Hlt.
Qed.

Lemma line_height_nonneg perp lh :
  positive_sign perp → to_int (F32.div (F32.of_Z SCREEN_HEIGHT) perp) = Some lh → 0 <= lh.
Proof.
  intros Hp H. unfold to_int in H. apply bind_Some in H as (z & Hz & Hint).
  apply as_int_Some in Hint as [-> _].
  change (F32.of_Z SCREEN_HEIGHT) with (S754_finite false 9830400 (-14)) in Hz.
  destruct perp as [s|s| |s m e]; cbn [positive_sign] in Hp; try contradiction; subst s.
  - discriminate Hz.
  - cbn in Hz. injection Hz as <-. lia.
  - unfold F32.div, SFdiv in Hz.
    destruct (SFdiv_core_binary _ _ _ _ _ _) as [[mz ez] lz].
    eapply binary_round_aux_sign; [exact Hz|reflexivity].
Qed.

Lemma dda_jump_side d d' : dda_jump d = Some d' → side d' = 0 ∨ side d' = 1.
Proof.
  unfold dda_jump. destruct (F32.ltb _ _); intros H;
    apply bind_Some in H as (m & _ & [= <-]); cbn; auto.
Qed.

Lemma dda_walk_side wm n : ∀ d d', dda_walk n wm d = Hit d' → side d' = 0 ∨ side d' = 1.
Proof.
  induction n as [|n IH]; intros d d'; cbn [dda_walk]; [discriminate|].
  destruct (dda_jump d) as [d1|] eqn:Hj; [|discriminate].
  destruct (dda_hit wm d1) as [[|]|]; [|apply IH|discriminate].
  intros [= <-]. eapply dda_jump_side; eassumption.
Qed.

Lemma slice_of_fits p x d s :
  slice_of p x d = Some s →
  F32.ltb (perpWallDist s) f0_05 = false
  ∧ 0 <= lineHeight s <= 10 * SCREEN_HEIGHT
  ∧ 0 <= drawStart s <= SCREEN_HEIGHT / 2
  ∧ SCREEN_HEIGHT / 2 <= drawEnd s < SCREEN_HEIGHT
  ∧ drawEnd s - drawStart s <= lineHeight s
  ∧ hitSide s = side d.
Proof.
  unfold slice_of. intros H. apply bind_Some in H as (lh & Hlh & H).
  apply bind_Some in H as (tx & _ & [= <-]). cbn.
  unfold clamp_perp in *.
  destruct (clamp_positive (raw_perp d)) as [Hnan | (Hpos & Hlt)].
  { rewrite Hnan in Hlh. discriminate Hlh. }
  pose proof (line_height_nonneg _ _ Hpos Hlh) as H0.
  split; [exact Hlt|].
  unfold SCREEN_HEIGHT in *.
  set (h := Z.min lh (600 * 10)).
  assert (Hh : 0 <= h <= 6000) by (unfold h; lia).
  clearbody h.
  pose proof (Z.quot_pos h 2 ltac:(lia) ltac:(lia)) as Hq.
  pose proof (Z.quot_opp_l h 2 ltac:(lia)) as Hopp. rewrite Hopp.
  assert (Hq2 : 2 * Z.quot h 2 <= h).
  { pose proof (Z.quot_rem' h 2). pose proof (Z.rem_bound_pos h 2 ltac:(lia) ltac:(lia)). lia. }
  change (Z.quot 600 2) with 300. change (600 / 2) with 300.
  destruct (- Z.quot h 2 + 300 <? 0) eqn:E1; [apply Z.ltb_lt in E1|apply Z.ltb_ge in E1];
    destruct (600 <=? Z.quot h 2 + 300) eqn:E2;
    [apply Z.leb_le in E2|apply Z.leb_gt in E2|apply Z.leb_le in E2|apply Z.leb_gt in E2];
    repeat split; lia.
Qed.

(** X14.  Whenever the ray of a view column yields a slice, the distance
    is not below 0.05, the line height lies between 0 and 6000, [drawStart]
    between 0 and 300, [drawEnd] between 300 and 599, the slice has at most
    [lineHeight] rows, and the side is 0 or 1. *)
Theorem wall_slice_fits_the_screen fuel wm p x s :
  castRay fuel wm p x = Some s →
  F32.ltb (perpWallDist s) f0_05 = false
  ∧ 0 <= lineHeight s <= 10 * SCREEN_HEIGHT
  ∧ 0 <= drawStart s <= SCREEN_HEIGHT / 2
  ∧ SCREEN_HEIGHT / 2 <= drawEnd s < SCREEN_HEIGHT
  ∧ drawEnd s - drawStart s <= lineHeight s
  ∧ (hitSide s = 0 ∨ hitSide s = 1).
Proof.
  intros H. apply castRay_Some in H as (d0 & d & _ & Hwalk & Hs).
  apply slice_of_fits in Hs as (H1 & H2 & H3 & H4 & H5 & H6).
  repeat (split; [assumption|]). rewrite H6. eapply dda_walk_side; eassumption.
Qed.

Lemma wall_slice_fits_the_screen_witness :
  ∃ s, castRay 50 border_map Player.init 100 = Some s
    ∧ lineHeight s = 150 ∧ drawStart s = 225 ∧ drawEnd s = 375
    ∧ F32.ltb (perpWallDist s) f0_05 = false
    ∧ 0 <= lineHeight s <= 10 * SCREEN_HEIGHT
    ∧ 0 <= drawStart s <= SCREEN_HEIGHT / 2
    ∧ SCREEN_HEIGHT / 2 <= drawEnd s < SCREEN_HEIGHT
    ∧ drawEnd s - drawStart s <= lineHeight s
    ∧ (hitSide s = 0 ∨ hitSide s = 1).
Proof.
  eexists.
  match goal with |- ?A ∧ _ => assert (H : A) by (vm_compute; reflexivity) end.
  split; [exact H|]. do 3 (split; [reflexivity|]).
  exact (wall_slice_fits_the_screen 50 border_map Player.init 100 _ H).
Defined.

(** *** The pixels of the wall pass *)

Lemma mapM_In_r {A B} (f : A → option B) : ∀ l k,
  mapM f l = Some k → ∀ y, In y k → ∃ x, In x l ∧ f x = Some y.
Proof.
  induction l as [|a l IH]; intros k; cbn [mapM].
  - intros [= <-] y [].
  - intros H. apply bind_Some in H as (b & Hb & H).
    apply bind_Some in H as (k' & Hk & [= <-]).
    intros y [<- | Hy]; [exists a; split; [left; reflexivity|assumption]|].
    destruct (IH _ Hk y Hy) as (x & Hx & Hfx). exists x. split; [right|]; assumption.
Qed.

Lemma mapM_In_l {A B} (f : A → option B) : ∀ l k,
  mapM f l = Some k → ∀ x, In x l → ∃ y, In y k ∧ f x = Some y.
Proof.
  induction l as [|a l IH]; intros k; cbn [mapM].
  - intros _ x [].
  - intros H. apply bind_Some in H as (b & Hb & H).
    apply bind_Some in H as (k' & Hk & [= <-]).
    intros x [<- | Hx]; [exists b; split; [left; reflexivity|assumption]|].
    destruct (IH _ Hk x Hx) as (y & Hy & Hfx). exists y. split; [right|]; assumption.
Qed.

Lemma In_seqZ m n k : In k (seqZ m n) ↔ m <= k < m + n.
Proof. rewrite <- list_elem_of_In. apply elem_of_seqZ. Qed.

Lemma wall_pixel_index s c y w : wall_pixel s c y = Some w → index w = y * SCREEN_WIDTH + c.
Proof.
  unfold wall_pixel. intros H. apply bind_Some in H as (ty & _ & H).
  apply bind_Some in H as (t & _ & H). apply bind_Some in H as (t' & _ & [= <-]). reflexivity.
Qed.

Lemma paint_column_painted s c l :
  paint_column s c = Some l →
  0 <= drawStart s → drawStart s <= drawEnd s < SCREEN_HEIGHT →
  (∀ w, In w l → painted s c w)
  ∧ (∀ y, 0 <= y < SCREEN_HEIGHT → y ≠ drawEnd s →
       ∃ w, In w l ∧ index w = y * SCREEN_WIDTH + c).
Proof.
  unfold paint_column. intros H Hds Hde.
  apply bind_Some in H as (wall & Hwall & [= <-]). split.
  - intros w Hw. rewrite !in_app_iff in Hw. destruct Hw as [Hw | [Hw | Hw]].
    + destruct (mapM_In_r _ _ _ Hwall w Hw) as (y & Hy%In_seqZ & Hp).
      exists y. split; [lia|]. split; [lia|]. split; [eapply wall_pixel_index, Hp|]. lia.
    + apply in_map_iff in Hw as (y & <- & Hy%In_seqZ).
      exists y. cbn. split; [lia|]. split; [lia|]. split; [reflexivity|]. split; [reflexivity|lia].
    + apply in_map_iff in Hw as (y & <- & Hy%In_seqZ).
      exists y. cbn. split; [lia|]. split; [lia|]. split; [reflexivity|]. split; [lia|reflexivity].
  - intros y Hy Hne.
    destruct (Z_lt_le_dec y (drawStart s)) as [Hlt | Hge].
    + exists {| index := y * SCREEN_WIDTH + c; texel := ceilingColor |}.
      split; [|reflexivity]. rewrite !in_app_iff. right. left.
      apply in_map_iff. exists y. split; [reflexivity|]. apply In_seqZ. lia.
    + destruct (Z_lt_le_dec y (drawEnd s)) as [Hlt | Hge'].
      * destruct (mapM_In_l _ _ _ Hwall y) as (w & Hw & Hp); [apply In_seqZ; lia|].
        exists w. split; [rewrite !in_app_iff; left; assumption|].
        eapply wall_pixel_index, Hp.
      * exists {| index := y * SCREEN_WIDTH + c; texel := floorColor |}.
        split; [|reflexivity]. rewrite !in_app_iff. right. right.
        apply in_map_iff. exists y. split; [reflexivity|]. apply In_seqZ. lia.
Qed.

Lemma paint_span_S n limit s sx :
  paint_span (S n) limit s sx =
    if F32.ltb (F32.of_Z sx) limit then
      if SCREEN_WIDTH <=? sx then Some []
      else if sx <? 0 then None
      else here ← paint_column s sx;
           rest ← paint_span n limit s (sx + 1);
           Some (here ++ rest)
    else Some [].
Proof. reflexivity. Qed.

(** The inner loop of view column [x] paints the screen columns
    [4x .. 4x+3], one after the other. *)
Lemma paint_span_columns x s l :
  0 <= x < RAY_WIDTH →
  (first ← to_int (F32.mul (F32.of_Z x) RAY_SCALE);
   paint_span (Z.to_nat SCREEN_WIDTH) (F32.mul (F32.of_Z (x + 1)) RAY_SCALE) s first)
  = Some l →
  ∃ l0 l1 l2 l3,
    paint_column s (4 * x) = Some l0 ∧ paint_column s (4 * x + 1) = Some l1
    ∧ paint_column s (4 * x + 2) = Some l2 ∧ paint_column s (4 * x + 3) = Some l3
    ∧ l = l0 ++ l1 ++ l2 ++ l3.
Proof.
  intros Hx. pose proof (span_ok_all x Hx) as Hok. unfold span_ok in Hok.
  unfold RAY_WIDTH, SCREEN_WIDTH in Hx. change (Z.quot 800 4) with 200 in Hx.
  destruct (to_int _) as [first|]; [|discriminate]. cbn [mbind option_bind].
  apply andb_true_iff in Hok as [Hok Hend]. apply andb_true_iff in Hok as [Hfirst Hin].
  apply Z.eqb_eq in Hfirst. subst first. apply negb_true_iff in Hend.
  cbn [forallb] in Hin. rewrite !andb_true_iff in Hin.
  destruct Hin as (H0 & H1 & H2 & H3 & _). rewrite Z.add_0_r in H0.
  change (Z.to_nat SCREEN_WIDTH) with (S (S (S (S (S 795))))).
  assert (Hs : ∀ i, 4 * x <= i < 4 * x + 4 → (SCREEN_WIDTH <=? i) = false).
  { intros i Hi. apply Z.leb_gt. unfold SCREEN_WIDTH. lia. }
  assert (Hn : ∀ i, 4 * x <= i < 4 * x + 4 → (i <? 0) = false).
  { intros i Hi. apply Z.ltb_ge. lia. }
  generalize 795%nat as n. intros n.
  rewrite paint_span_S, H0, (Hs (4 * x)), (Hn (4 * x)) by lia.
  intros H. apply bind_Some in H as (l0 & Hl0 & H). apply bind_Some in H as (r0 & H & [= <-]).
  rewrite paint_span_S, H1, (Hs (4 * x + 1)), (Hn (4 * x + 1)) in H by lia.
  apply bind_Some in H as (l1 & Hl1 & H). apply bind_Some in H as (r1 & H & [= <-]).
  replace (4 * x + 1 + 1) with (4 * x + 2) in H by lia.
  rewrite paint_span_S, H2, (Hs (4 * x + 2)), (Hn (4 * x + 2)) in H by lia.
  apply bind_Some in H as (l2 & Hl2 & H). apply bind_Some in H as (r2 & H & [= <-]).
  replace (4 * x + 2 + 1) with (4 * x + 3) in H by lia.
  rewrite paint_span_S, H3, (Hs (4 * x + 3)), (Hn (4 * x + 3)) in H by lia.
  apply bind_Some in H as (l3 & Hl3 & H). apply bind_Some in H as (r3 & H & [= <-]).
  replace (4 * x + 3 + 1) with (4 * x + 4) in H by lia.
  rewrite paint_span_S, Hend in H. injection H as <-.
  exists l0, l1, l2, l3. rewrite app_nil_r. auto.
Qed.

(** The slice of view column [x] and the four screen columns painted
    with it. *)
Lemma paint_view_column_columns fuel wm p x stores :
  0 <= x < RAY_WIDTH → paint_view_column fuel wm p x = Some stores →
  ∃ s, castRay fuel wm p x = Some s
    ∧ 0 <= drawStart s ∧ drawStart s <= drawEnd s < SCREEN_HEIGHT
    ∧ ∃ l0 l1 l2 l3,
        paint_column s (4 * x) = Some l0 ∧ paint_column s (4 * x + 1) = Some l1
        ∧ paint_column s (4 * x + 2) = Some l2 ∧ paint_column s (4 * x + 3) = Some l3
        ∧ stores = l0 ++ l1 ++ l2 ++ l3.
Proof.
  intros Hx H. unfold paint_view_column in H. apply bind_Some in H as (s & Hs & H).
  exists s. split; [assumption|].
  apply castRay_Some in Hs as (d0 & d & _ & _ & Hs).
  apply slice_of_fits in Hs as (_ & _ & Hds & Hde & _).
  split; [lia|]. split; [lia|].
  apply paint_span_columns in H; assumption.
Qed.

(** X15.  For a view column [x] the wall pass stores into the screen
    columns [4x .. 4x+3] only, at rows of the screen, with the ceiling
    colour above the slice and the floor colour below it; and in each of
    these columns it stores into every row but the row [drawEnd], which the
    wall loop stops short of and the floor loop starts after. *)
Theorem walls_paint_every_row_but_one fuel wm p x stores :
  0 <= x < RAY_WIDTH → paint_view_column fuel wm p x = Some stores →
  ∃ s, castRay fuel wm p x = Some s
    ∧ (∀ w, In w stores →
         ∃ c y, 4 * x <= c < 4 * x + 4 ∧ 0 <= y < SCREEN_HEIGHT ∧ y ≠ drawEnd s
           ∧ index w = y * SCREEN_WIDTH + c
           ∧ (y < drawStart s → texel w = ceilingColor)
           ∧ (drawEnd s < y → texel w = floorColor))
    ∧ (∀ c y, 4 * x <= c < 4 * x + 4 → 0 <= y < SCREEN_HEIGHT → y ≠ drawEnd s →
         ∃ w, In w stores ∧ index w = y * SCREEN_WIDTH + c).
Proof.
  intros Hx H.
  destruct (paint_view_column_columns _ _ _ _ _ Hx H)
    as (s & Hs & Hds & Hb & l0 & l1 & l2 & l3 & H0 & H1 & H2 & H3 & ->).
  exists s. split; [assumption|].
  destruct (paint_column_painted _ _ _ H0 Hds Hb) as [A0 B0].
  destruct (paint_column_painted _ _ _ H1 Hds Hb) as [A1 B1].
  destruct (paint_column_painted _ _ _ H2 Hds Hb) as [A2 B2].
  destruct (paint_column_painted _ _ _ H3 Hds Hb) as [A3 B3].
  split.
  - intros w Hw. rewrite !in_app_iff in Hw.
    destruct Hw as [Hw | [Hw | [Hw | Hw]]];
      [apply A0 in Hw; exists (4 * x)|apply A1 in Hw; exists (4 * x + 1)
      |apply A2 in Hw; exists (4 * x + 2)|apply A3 in Hw; exists (4 * x + 3)];
      destruct Hw as (y & Hy & Hne & Hi & Hc & Hf); exists y;
      (split; [lia|]); auto.
  - intros c y Hc Hy Hne.
    assert (Hcase : c = 4 * x ∨ c = 4 * x + 1 ∨ c = 4 * x + 2 ∨ c = 4 * x + 3) by lia.
    destruct Hcase as [-> | [-> | [-> | ->]]];
      [destruct (B0 y Hy Hne) as (w & Hw & Hi)|destruct (B1 y Hy Hne) as (w & Hw & Hi)
      |destruct (B2 y Hy Hne) as (w & Hw & Hi)|destruct (B3 y Hy Hne) as (w & Hw & Hi)];
      exists w; (split; [|exact Hi]); rewrite !in_app_iff; auto.
Qed.

Lemma walls_paint_every_row_but_one_witness :
  0 <= 100 < RAY_WIDTH
  ∧ ∃ stores,
      paint_view_column 50 border_map Player.init 100 = Some stores
      ∧ existsb (λ w, index w =? 375 * SCREEN_WIDTH + 400) stores = false
      ∧ ∃ s, castRay 50 border_map Player.init 100 = Some s
          ∧ (∀ w, In w stores →
               ∃ c y, 4 * 100 <= c < 4 * 100 + 4 ∧ 0 <= y < SCREEN_HEIGHT ∧ y ≠ drawEnd s
                 ∧ index w = y * SCREEN_WIDTH + c
                 ∧ (y < drawStart s → texel w = ceilingColor)
                 ∧ (drawEnd s < y → texel w = floorColor))
          ∧ (∀ c y, 4 * 100 <= c < 4 * 100 + 4 → 0 <= y < SCREEN_HEIGHT → y ≠ drawEnd s →
               ∃ w, In w stores ∧ index w = y * SCREEN_WIDTH + c).
Proof.
  assert (Hx : 0 <= 100 < RAY_WIDTH) by (vm_compute; split; [discriminate|reflexivity]).
  split; [exact Hx|]. eexists.
  match goal with |- ?A ∧ _ => assert (H : A) by (vm_compute; reflexivity) end.
  split; [exact H|]. split; [vm_compute; reflexivity|].
  exact (walls_paint_every_row_but_one 50 border_map Player.init 100 _ Hx H).
Defined.

(** *** The head-up display *)

Lemma shown_app a b i :
  shown (a ++ b) i = match shown b i with Some t => Some t | None => shown a i end.
Proof.
  induction a as [|w a IH]; cbn [shown app]; [destruct (shown b i); reflexivity|].
  rewrite IH. destruct (shown b i); reflexivity.
Qed.

Lemma shown_None l i : (∀ w, w ∈ l → index w ≠ i) → shown l i = None.
Proof.
  induction l as [|w l IH]; intros H; cbn [shown]; [reflexivity|].
  rewrite IH by (intros v Hv; apply H; right; exact Hv).
  destruct (index w =? i) eqn:E; [|reflexivity].
  apply Z.eqb_eq in E. exfalso. apply (H w); [left|exact E].
Qed.

Lemma shown_Some_in l i t :
  shown l i = Some t → ∃ w, w ∈ l ∧ index w = i ∧ texel w = t.
Proof.
  induction l as [|w l IH]; cbn [shown]; [discriminate|].
  destruct (shown l i) as [u|].
  - intros [= ->]. destruct (IH eq_refl) as (v & Hv & Hi & Ht).
    exists v. split; [right; exact Hv|auto].
  - destruct (index w =? i) eqn:E; [|discriminate].
    intros [= <-]. apply Z.eqb_eq in E. exists w. split; [left|auto].
Qed.

Lemma shown_None_inv l i : shown l i = None → ∀ w, w ∈ l → index w ≠ i.
Proof.
  induction l as [|w l IH]; cbn [shown]; intros H v Hv; [inversion Hv|].
  destruct (shown l i) as [u|]; [discriminate|].
  destruct (index w =? i) eqn:E; [discriminate|]. apply Z.eqb_neq in E.
  apply elem_of_cons in Hv as [-> | Hv]; [exact E|apply IH; [reflexivity|exact Hv]].
Qed.

Lemma shown_const l i c :
  (∃ w, w ∈ l ∧ index w = i) → (∀ w, w ∈ l → index w = i → texel w = c) →
  shown l i = Some c.
Proof.
  intros (v & Hv & Hi) Hc. destruct (shown l i) as [t|] eqn:Hl.
  - apply shown_Some_in in Hl as (w & Hw & Hwi & <-). f_equal. apply Hc; assumption.
  - exfalso. eapply shown_None_inv; eassumption.
Qed.

Lemma elem_of_fill_rect w x0 x1 y0 y1 c :
  w ∈ fill_rect x0 x1 y0 y1 c ↔
  ∃ x y, x0 <= x < x1 ∧ y0 <= y < y1 ∧ w = {| index := y * SCREEN_WIDTH + x; texel := c |}.
Proof.
  unfold fill_rect. rewrite list_elem_of_bind. split.
  - intros (y & Hw & Hy%elem_of_seqZ). apply list_elem_of_bind in Hw as (x & Hw & Hx%elem_of_seqZ).
    apply list_elem_of_singleton in Hw. exists x, y. split; [lia|]. split; [lia|exact Hw].
  - intros (x & y & Hx & Hy & ->). exists y. split; [|apply elem_of_seqZ; lia].
    apply list_elem_of_bind. exists x. split; [|apply elem_of_seqZ; lia].
    apply list_elem_of_singleton. reflexivity.
Qed.

(** A pixel of the rectangle shows its colour, any other pixel nothing. *)
Lemma shown_fill_rect x0 x1 y0 y1 c x y :
  0 <= x0 → x1 <= SCREEN_WIDTH → 0 <= x < SCREEN_WIDTH →
  shown (fill_rect x0 x1 y0 y1 c) (y * SCREEN_WIDTH + x)
  = if (x0 <=? x) && (x <? x1) && (y0 <=? y) && (y <? y1) then Some c else None.
Proof.
  intros H0 H1 Hx.
  destruct ((x0 <=? x) && (x <? x1) && (y0 <=? y) && (y <? y1)) eqn:E.
  - apply andb_prop in E as [E E4%Z.ltb_lt]. apply andb_prop in E as [E E3%Z.leb_le].
    apply andb_prop in E as [E1%Z.leb_le E2%Z.ltb_lt].
    apply shown_const.
    + eexists. split; [apply elem_of_fill_rect; exists x, y; eauto|reflexivity].
    + intros w (x' & y' & _ & _ & ->)%elem_of_fill_rect _. reflexivity.
  - apply shown_None. intros w (x' & y' & Hx' & Hy' & ->)%elem_of_fill_rect. cbn.
    unfold SCREEN_WIDTH in *. intros Heq.
    assert (x' = x ∧ y' = y) as [-> ->] by lia.
    apply not_true_iff_false in E. apply E.
    repeat (apply andb_true_intro; split); lia.
Qed.

Lemma fill_rect_on_screen x0 x1 y0 y1 c :
  0 <= x0 → x1 <= SCREEN_WIDTH → 0 <= y0 → y1 <= SCREEN_HEIGHT →
  Forall on_screen (fill_rect x0 x1 y0 y1 c).
Proof.
  intros. apply Forall_forall. intros w (x & y & Hx & Hy & ->)%elem_of_fill_rect.
  apply on_screen_at; lia.
Qed.

Lemma elem_of_crosshair w :
  w ∈ crosshair ↔
  ∃ x y, ((y = 300 ∧ 390 <= x <= 410) ∨ (x = 400 ∧ 290 <= y <= 310))
    ∧ w = {| index := y * SCREEN_WIDTH + x; texel := 0xFFFFFFFF |}.
Proof.
  unfold crosshair. rewrite elem_of_app, !list_elem_of_bind.
  change (Z.quot SCREEN_WIDTH 2) with 400. change (Z.quot SCREEN_HEIGHT 2) with 300.
  unfold SCREEN_WIDTH, SCREEN_HEIGHT. split.
  - intros [(x & Hw & Hx%elem_of_seqZ) | (y & Hw & Hy%elem_of_seqZ)].
    + destruct ((0 <=? x) && (x <? 800)); [|inversion Hw].
      apply list_elem_of_singleton in Hw. exists x, 300. split; [left; lia|exact Hw].
    + destruct ((0 <=? y) && (y <? 600)); [|inversion Hw].
      apply list_elem_of_singleton in Hw. exists 400, y. split; [right; lia|exact Hw].
  - intros (x & y & [[-> Hx] | [-> Hy]] & ->).
    + left. exists x. split; [|apply elem_of_seqZ; lia].
      replace ((0 <=? x) && (x <? 800)) with true
        by (symmetry; apply andb_true_intro; split; lia).
      apply list_elem_of_singleton. reflexivity.
    + right. exists y. split; [|apply elem_of_seqZ; lia].
      replace ((0 <=? y) && (y <? 600)) with true
        by (symmetry; apply andb_true_intro; split; lia).
      apply list_elem_of_singleton. reflexivity.
Qed.

Lemma shown_crosshair x y :
  0 <= x < SCREEN_WIDTH →
  shown crosshair (y * SCREEN_WIDTH + x)
  = if (y =? 300) && (390 <=? x) && (x <=? 410) || (x =? 400) && (290 <=? y) && (y <=? 310)
    then Some 0xFFFFFFFF else None.
Proof.
  intros Hx.
  destruct ((y =? 300) && (390 <=? x) && (x <=? 410)
            || (x =? 400) && (290 <=? y) && (y <=? 310)) eqn:E.
  - apply shown_const.
    + eexists. split; [apply elem_of_crosshair; exists x, y; split; [|reflexivity]|reflexivity].
      apply orb_prop in E as [E|E]; apply andb_prop in E as [E E3%Z.leb_le];
        apply andb_prop in E as [E1%Z.eqb_eq E2%Z.leb_le]; [left|right]; lia.
    + intros w (x' & y' & _ & ->)%elem_of_crosshair _. reflexivity.
  - apply shown_None. intros w (x' & y' & Hc & ->)%elem_of_crosshair. cbn.
    unfold SCREEN_WIDTH in *. intros Heq.
    assert (x' = x ∧ y' = y) as [-> ->] by lia.
    apply not_true_iff_false in E. apply E. apply orb_true_intro.
    destruct Hc as [[-> Hc] | [-> Hc]]; [left|right];
      repeat (apply andb_true_intro; split); lia.
Qed.

Lemma crosshair_on_screen : Forall on_screen crosshair.
Proof.
  apply Forall_forall. intros w (x & y & Hc & ->)%elem_of_crosshair.
  apply on_screen_at; unfold SCREEN_WIDTH, SCREEN_HEIGHT; lia.
Qed.

Lemma as_int_in z : INT_MIN <= z <= INT_MAX → as_int z = Some z.
Proof.
  intros H. unfold as_int, in_int.
  replace ((INT_MIN <=? z) && (z <=? INT_MAX)) with true; [reflexivity|].
  symmetry. apply andb_true_intro. split; apply Z.leb_le; lia.
Qed.

Lemma hud_inv_dispatch L ev g g' : dispatch L ev g = Some g' → hud_inv g → hud_inv g'.
Proof.
  destruct ev as [i|c|]; cbn [dispatch].
  - destruct (Game.gameOver g) eqn:Hover.
    + rewrite update_over by assumption. intros [= <-]. auto.
    + intros H [_ Hw].
      apply update_running in H as (p & pes & es & [_ Hp] & Hpes & _ & ->); [|assumption].
      split; [reflexivity|]. cbn [Game.player].
      destruct Hpes as [-> | Hpes]; [cbn; congruence|].
      apply update_enemies_player in Hpes as (_ & _ & _ & _ & Hw'). congruence.
  - intros [= <-]. unfold on_lbuttondown. destruct (Game.mouseCaptured g); auto.
  - intros [= <-]. auto.
Qed.

Lemma hud_inv_reachable L g : reachable L g → hud_inv g.
Proof.
  intros (rnd & evs & _ & Hrun).
  assert (H0 : hud_inv (new_game L rnd)) by (split; reflexivity).
  revert Hrun H0. generalize (new_game L rnd). revert g.
  induction evs as [|ev evs IH]; intros g g0; cbn [run].
  - intros [= <-]. auto.
  - intros H H0. apply bind_Some in H as (g1 & H1 & H).
    eapply IH; [exact H|]. eapply hud_inv_dispatch; eassumption.
Qed.

Lemma health_reachable L g : reachable L g → -4 <= Player.health (Game.player g) <= 100.
Proof.
  intros (rnd & evs & _ & Hrun).
  apply (health_inv_run L evs _ _ (health_inv_new L rnd) Hrun).
Qed.

Lemma renderHUD_Some g :
  -4 <= Player.health (Game.player g) <= 100 →
  renderHUD g =
    Some (fill_rect 20 220 560 580 0xFF222222
          ++ fill_rect 20 (20 + 2 * Player.health (Game.player g)) 560 580 0xFF00FF00
          ++ (if Player.hasWeapon (Game.player g) then crosshair else [])
          ++ (if Game.gameOver g then fill_rect 310 490 300 340 0xFFFF0000 else [])).
Proof.
  intros Hh. unfold renderHUD.
  rewrite as_int_in by (unfold INT_MIN, INT_MAX; lia). cbn [mbind option_bind].
  replace (Player.health (Game.player g) * 200)
    with (2 * Player.health (Game.player g) * 100) by lia.
  rewrite Z.quot_mul by lia. reflexivity.
Qed.

Lemma renderHUD_on_screen g stores :
  -4 <= Player.health (Game.player g) <= 100 → renderHUD g = Some stores →
  Forall on_screen stores.
Proof.
  intros Hh Hs. rewrite (renderHUD_Some g Hh) in Hs.
  assert (Hst : stores =
            fill_rect 20 220 560 580 0xFF222222
            ++ fill_rect 20 (20 + 2 * Player.health (Game.player g)) 560 580 0xFF00FF00
            ++ (if Player.hasWeapon (Game.player g) then crosshair else [])
            ++ (if Game.gameOver g then fill_rect 310 490 300 340 0xFFFF0000 else []))
    by congruence.
  rewrite Hst. clear Hs Hst.
  apply Forall_app; split; [|apply Forall_app; split; [|apply Forall_app; split]].
  - apply fill_rect_on_screen; unfold SCREEN_WIDTH, SCREEN_HEIGHT; lia.
  - apply fill_rect_on_screen; unfold SCREEN_WIDTH, SCREEN_HEIGHT; lia.
  - destruct (Player.hasWeapon _); [apply crosshair_on_screen|constructor].
  - destruct (Game.gameOver g); [|constructor].
    apply fill_rect_on_screen; unfold SCREEN_WIDTH, SCREEN_HEIGHT; lia.
Qed.

(** X16.  In every state the program can reach, [renderHUD] is defined and
    stores on the screen only; in the health bar (columns 20 to 219, rows
    560 to 579) it leaves green in the columns below [20 + 2 * health] and
    the background colour in the others: two columns for a point of
    health, and none when the health is 0 or less. *)
Theorem health_bar_is_two_pixels_per_point L g :
  reachable L g →
  ∃ stores, renderHUD g = Some stores
    ∧ Forall (λ w, ∃ x y, 0 <= x < SCREEN_WIDTH ∧ 0 <= y < SCREEN_HEIGHT
                     ∧ index w = y * SCREEN_WIDTH + x) stores
    ∧ ∀ x y, 20 <= x < 220 → SCREEN_HEIGHT - 40 <= y < SCREEN_HEIGHT - 20 →
        shown stores (y * SCREEN_WIDTH + x)
        = Some (if x <? 20 + 2 * Player.health (Game.player g)
                then 0xFF00FF00 else 0xFF222222).
Proof.
  intros Hr. pose proof (health_reachable L g Hr) as Hh.
  eexists. split; [apply renderHUD_Some; exact Hh|]. split.
  - apply (renderHUD_on_screen g); [exact Hh|apply renderHUD_Some; exact Hh].
  - intros x y Hx Hy. unfold SCREEN_HEIGHT in Hy.
    assert (Hx' : 0 <= x < SCREEN_WIDTH) by (unfold SCREEN_WIDTH; lia).
    rewrite !shown_app.
    assert (Hbanner : shown (if Game.gameOver g then fill_rect 310 490 300 340 0xFFFF0000
                             else []) (y * SCREEN_WIDTH + x) = None).
    { destruct (Game.gameOver g); [|reflexivity].
      rewrite shown_fill_rect by (unfold SCREEN_WIDTH; lia).
      replace (y <? 340) with false by (symmetry; apply Z.ltb_ge; lia).
      rewrite andb_false_r. reflexivity. }
    assert (Hcross : shown (if Player.hasWeapon (Game.player g) then crosshair else [])
                           (y * SCREEN_WIDTH + x) = None).
    { destruct (Player.hasWeapon _); [|reflexivity].
      rewrite shown_crosshair by exact Hx'.
      replace (y =? 300) with false by (symmetry; apply Z.eqb_neq; lia).
      replace (y <=? 310) with false by (symmetry; apply Z.leb_gt; lia).
      rewrite andb_false_r. reflexivity. }
    rewrite Hbanner, Hcross.
    rewrite !shown_fill_rect by (unfold SCREEN_WIDTH; lia).
    replace (20 <=? x) with true by (symmetry; apply Z.leb_le; lia).
    replace (x <? 220) with true by (symmetry; apply Z.ltb_lt; lia).
    replace (560 <=? y) with true by (symmetry; apply Z.leb_le; lia).
    replace (y <? 580) with true by (symmetry; apply Z.ltb_lt; lia).
    cbn [andb]. rewrite andb_true_r.
    destruct (x <? 20 + 2 * Player.health (Game.player g)); reflexivity.
Qed.

Lemma health_bar_is_two_pixels_per_point_witness :
  rand_ok rnd_three
  ∧ ∃ g, run libm_at_one (replicate 434 (Tick idle)) (new_game libm_at_one rnd_three) = Some g
    ∧ Player.health (Game.player g) = -2
    ∧ ∃ stores, renderHUD g = Some stores
      ∧ Forall (λ w, ∃ x y, 0 <= x < SCREEN_WIDTH ∧ 0 <= y < SCREEN_HEIGHT
                       ∧ index w = y * SCREEN_WIDTH + x) stores
      ∧ ∀ x y, 20 <= x < 220 → SCREEN_HEIGHT - 40 <= y < SCREEN_HEIGHT - 20 →
          shown stores (y * SCREEN_WIDTH + x)
          = Some (if x <? 20 + 2 * Player.health (Game.player g)
                  then 0xFF00FF00 else 0xFF222222).
Proof.
  split; [exact rnd_three_ok|]. eexists.
  match goal with |- ?A ∧ _ => assert (H : A) by (vm_compute; reflexivity) end.
  split; [exact H|]. split; [reflexivity|].
  apply (health_bar_is_two_pixels_per_point libm_at_one).
  exact (ex_intro _ rnd_three (ex_intro _ _ (conj rnd_three_ok H))).
Defined.

(** X17.  In every state the program can reach, the game is over exactly
    when the player's health is 0 or less.  In the rectangle of the banner
    (columns 310 to 489, rows 300 to 339) [renderHUD] then leaves red; with
    health left it leaves white on the crosshair, which is always drawn,
    and stores nowhere else in the rectangle. *)
Theorem banner_shows_when_health_is_gone L g :
  reachable L g →
  Game.gameOver g = (Player.health (Game.player g) <=? 0)
  ∧ ∃ stores, renderHUD g = Some stores
    ∧ ∀ x y, 310 <= x < 490 → 300 <= y < 340 →
        shown stores (y * SCREEN_WIDTH + x)
        = if Player.health (Game.player g) <=? 0 then Some 0xFFFF0000
          else if (y =? 300) && (x <=? 410) && (390 <=? x) || (x =? 400) && (y <=? 310)
               then Some 0xFFFFFFFF
               else None.
Proof.
  intros Hr. pose proof (health_reachable L g Hr) as Hh.
  destruct (hud_inv_reachable L g Hr) as [Hover Hw].
  split; [exact Hover|].
  eexists. split; [rewrite (renderHUD_Some g Hh), Hw, Hover; reflexivity|].
  intros x y Hx Hy.
  assert (Hx' : 0 <= x < SCREEN_WIDTH) by (unfold SCREEN_WIDTH; lia).
  rewrite !shown_app.
  assert (Hbar : ∀ x1 c, x1 <= 220 →
            shown (fill_rect 20 x1 560 580 c) (y * SCREEN_WIDTH + x) = None).
  { intros x1 c Hx1. rewrite shown_fill_rect by (unfold SCREEN_WIDTH; lia).
    replace (560 <=? y) with false by (symmetry; apply Z.leb_gt; lia).
    rewrite andb_false_r. reflexivity. }
  rewrite !Hbar by lia.
  destruct (Player.health (Game.player g) <=? 0).
  - rewrite shown_fill_rect by (unfold SCREEN_WIDTH; lia).
    replace ((310 <=? x) && (x <? 490) && (300 <=? y) && (y <? 340)) with true; [reflexivity|].
    symmetry. repeat (apply andb_true_intro; split); lia.
  - cbn [shown]. rewrite shown_crosshair by exact Hx'.
    replace (290 <=? y) with true by (symmetry; apply Z.leb_le; lia).
    rewrite andb_true_r.
    rewrite <- (andb_assoc (y =? 300)), (andb_comm (390 <=? x)), andb_assoc.
    destruct (_ || _); reflexivity.
Qed.

Lemma banner_shows_when_health_is_gone_witness :
  rand_ok rnd_three
  ∧ ∃ g,
      run libm_at_one (replicate 434 (Tick idle)) (new_game libm_at_one rnd_three) = Some g
      ∧ Player.health (Game.player g) = -2
      ∧ Game.gameOver g = (Player.health (Game.player g) <=? 0)
      ∧ ∃ stores, renderHUD g = Some stores
        ∧ ∀ x y, 310 <= x < 490 → 300 <= y < 340 →
            shown stores (y * SCREEN_WIDTH + x)
            = if Player.health (Game.player g) <=? 0 then Some 0xFFFF0000
              else if (y =? 300) && (x <=? 410) && (390 <=? x) || (x =? 400) && (y <=? 310)
                   then Some 0xFFFFFFFF
                   else None.
Proof.
  split; [exact rnd_three_ok|]. eexists.
  match goal with |- ?A ∧ _ => assert (H : A) by (vm_compute; reflexivity) end.
  split; [exact H|]. split; [reflexivity|].
  apply (banner_shows_when_health_is_gone libm_at_one).
  exact (ex_intro _ rnd_three (ex_intro _ _ (conj rnd_three_ok H))).
Defined.

(** *** The sprite pass reads inside its arrays *)

Lemma project_ok p e s : project p e = Some (Some s) → sprite_ok s.
Proof.
  unfold project. destruct (F32.leb _ f0_1); [discriminate|].
  intros H. apply bind_Some in H as (ssx & _ & H). apply bind_Some in H as (size & _ & H).
  unfold SCREEN_HEIGHT, SCREEN_WIDTH in H.
  change (Z.quot 600 2) with 300 in H. change (600 * 2) with 1200 in H.
  change (800 * 2) with 1600 in H.
  set (sh := if 1200 <? Z.abs size then 1200 else Z.abs size) in H.
  set (sw := if 1600 <? Z.abs size then 1600 else Z.abs size) in H.
  assert (Hsh : 0 <= sh) by (unfold sh; destruct (1200 <? Z.abs size); lia).
  assert (Hsw : 0 <= sw) by (unfold sw; destruct (1600 <? Z.abs size); lia).
  clearbody sh sw.
  destruct (_ || _); [discriminate|]. injection H as <-.
  unfold sprite_ok. cbn.
  rewrite !(Z.quot_opp_l _ 2) by lia.
  pose proof (Z.quot_pos sh 2 Hsh ltac:(lia)) as Hqh.
  pose proof (Z.quot_pos sw 2 Hsw ltac:(lia)) as Hqw.
  assert (2 * Z.quot sh 2 <= sh).
  { pose proof (Z.quot_rem' sh 2). pose proof (Z.rem_bound_pos sh 2 Hsh ltac:(lia)). lia. }
  assert (2 * Z.quot sw 2 <= sw).
  { pose proof (Z.quot_rem' sw 2). pose proof (Z.rem_bound_pos sw 2 Hsw ltac:(lia)). lia. }
  repeat match goal with |- context [if ?b then _ else _] => destruct b eqn:? end;
    rewrite ?Z.ltb_lt, ?Z.ltb_ge, ?Z.leb_le, ?Z.leb_gt in *; repeat split; lia.
Qed.

Lemma texture_at_Some tx ty :
  0 <= tx < CELL_SIZE → 0 <= ty < CELL_SIZE → is_Some (texture_at (ty * CELL_SIZE + tx)).
Proof.
  intros Hx Hy. unfold texture_at, CELL_SIZE in *.
  replace (0 <=? ty * 64 + tx) with true by (symmetry; apply Z.leb_le; lia).
  apply lookup_lt_is_Some.
  replace (length textureEnemy) with 4096%nat by (vm_compute; reflexivity). lia.
Qed.

Lemma quot_below a b n : 0 <= a < b → 0 < n → 0 <= Z.quot (a * n) b < n.
Proof.
  intros Ha Hn. split; [apply Z.quot_pos; nia|].
  apply Z.quot_lt_upper_bound; nia.
Qed.

Lemma pixel_stores_Some s x y tx :
  drawStartY s <= y < drawEndY s → drawEndY s - drawStartY s <= spriteHeight s →
  0 <= tx < CELL_SIZE → is_Some (pixel_stores s x y tx).
Proof.
  intros Hy Hh Htx. unfold pixel_stores, int_div.
  replace (spriteHeight s =? 0) with false by (symmetry; apply Z.eqb_neq; lia).
  cbn [mbind option_bind].
  destruct (texture_at_Some tx (Z.quot ((y - drawStartY s) * CELL_SIZE) (spriteHeight s)) Htx)
    as [t Ht]; [apply quot_below; unfold CELL_SIZE; lia|].
  rewrite Ht. cbn [mbind option_bind]. destruct (_ =? 0); eauto.
Qed.

Lemma column_stores_Some s x tx :
  1 <= step s → drawEndY s - drawStartY s <= spriteHeight s → 0 <= tx < CELL_SIZE →
  ∀ n y, drawStartY s <= y → is_Some (column_stores n s x tx y).
Proof.
  intros Hstep Hh Htx. induction n as [|n IH]; intros y Hy; cbn [column_stores]; [eauto|].
  destruct (y <? drawEndY s) eqn:E; [apply Z.ltb_lt in E|eauto].
  destruct (IH (y + step s) ltac:(lia)) as [rest ->].
  destruct ((y <? 0) || (SCREEN_HEIGHT <=? y)).
  - cbn. eauto.
  - destruct (pixel_stores_Some s x y tx ltac:(lia) Hh Htx) as [here ->]. cbn. eauto.
Qed.

Lemma sprite_column_Some zb s x :
  length zb = Z.to_nat SCREEN_WIDTH → sprite_ok s → drawStartX s <= x < drawEndX s →
  is_Some (sprite_column zb s x).
Proof.
  intros Hzb (Hstep & Hl & Hr & _ & Hh) Hx. unfold sprite_column.
  destruct ((x <? 0) || (SCREEN_WIDTH <=? x)) eqn:E; [eauto|].
  apply orb_false_elim in E as [E1%Z.ltb_ge E2%Z.leb_gt].
  destruct (lookup_lt_is_Some_2 zb (Z.to_nat x) ltac:(lia)) as [depth ->].
  cbn [mbind option_bind]. destruct (F32.gtb _ depth); [eauto|].
  unfold int_div.
  replace (spriteWidth s =? 0) with false by (symmetry; apply Z.eqb_neq; lia).
  cbn [mbind option_bind].
  apply column_stores_Some; [assumption..| |lia].
  apply quot_below; unfold CELL_SIZE; lia.
Qed.

Lemma sprite_stores_Some zb s :
  length zb = Z.to_nat SCREEN_WIDTH → sprite_ok s →
  ∀ n x, drawStartX s <= x → is_Some (sprite_stores n zb s x).
Proof.
  intros Hzb Hok. induction n as [|n IH]; intros x Hx; cbn [sprite_stores]; [eauto|].
  destruct (x <? drawEndX s) eqn:E; [apply Z.ltb_lt in E|eauto].
  destruct (IH (x + step s) ltac:(destruct Hok; lia)) as [rest ->].
  destruct (sprite_column_Some zb s x Hzb Hok ltac:(lia)) as [here ->]. cbn. eauto.
Qed.

(** X18.  With a depth buffer of 800 slots, drawing an enemy is defined
    whenever its projection is: the pixel loops never divide by zero and
    never read outside the enemy texture or the depth buffer. *)
Theorem sprite_pass_reads_in_bounds zb p e :
  length zb = Z.to_nat SCREEN_WIDTH → is_Some (project p e) →
  ∃ stores, draw_sprite zb p e = Some stores.
Proof.
  intros Hzb [ps Hps]. unfold draw_sprite. destruct (Enemy.isDead e); [eauto|].
  rewrite Hps. cbn [mbind option_bind]. destruct ps as [s|]; [|eauto].
  apply sprite_stores_Some; [assumption|eapply project_ok; eassumption|lia].
Qed.

Lemma sprite_pass_reads_in_bounds_witness :
  length far_walls = Z.to_nat SCREEN_WIDTH
  ∧ (∃ s, project far_player far_enemy = Some (Some s) ∧ spriteWidth s = 33)
  ∧ ∃ stores, draw_sprite far_walls far_player far_enemy = Some stores.
Proof.
  assert (Hl : length far_walls = Z.to_nat SCREEN_WIDTH) by apply length_replicate.
  split; [exact Hl|]. split.
  - eexists. split; [vm_compute; reflexivity|reflexivity].
  - apply (sprite_pass_reads_in_bounds far_walls far_player far_enemy Hl).
    eexists. vm_compute. reflexivity.
Defined.

(** *** Where the enemies are *)

Lemma grid_ok_bordered wm : grid_ok wm → bordered wm.
Proof.
  intros H i j Hi Hj. destruct (H i j Hi Hj) as (c & Hc & _ & Hb & _).
  exists c. split; [assumption|]. intros Hedge. rewrite (Hb Hedge). lia.
Qed.

Lemma grid_ok_reachable L g : reachable L g → grid_ok (Game.worldMap g).
Proof.
  intros (rnd & evs & Hrnd & Hrun). apply run_fixed in Hrun as (-> & _ & _).
  exact (place_walls_ok rnd Hrnd 50 0%nat border_map grid_ok_border_map).
Qed.

Lemma cell_Some_range wm i j c :
  cell wm i j = Some c → 0 <= i < MAP_WIDTH ∧ 0 <= j < MAP_HEIGHT.
Proof.
  unfold cell.
  destruct ((0 <=? i) && (i <? MAP_WIDTH) && (0 <=? j) && (j <? MAP_HEIGHT)) eqn:E;
    [|discriminate].
  apply andb_prop in E as [E E4%Z.ltb_lt]. apply andb_prop in E as [E E3%Z.leb_le].
  apply andb_prop in E as [E1%Z.leb_le E2%Z.ltb_lt]. lia.
Qed.

Lemma passable_inside wm fx fy :
  grid_ok wm → passable wm fx fy = Some true → inside (Vec2.mk fx fy).
Proof.
  intros Hwm H. unfold passable in H.
  apply bind_Some in H as (i & Hi & H). apply bind_Some in H as (j & Hj & H).
  apply bind_Some in H as (c & Hc & [= Hz%Z.eqb_eq]). subst c.
  exists i, j. unfold cell_of. cbn [Vec2.x Vec2.y]. rewrite Hi, Hj. split; [reflexivity|].
  destruct (cell_Some_range _ _ _ _ Hc) as [Hi' Hj']. destruct (Hwm i j Hi' Hj') as (c & Hc' & _ & Hb & _).
  rewrite Hc in Hc'. injection Hc' as <-.
  unfold MAP_WIDTH, MAP_HEIGHT in *.
  assert (¬ (i = 0 ∨ j = 0 ∨ i = 24 - 1 ∨ j = 24 - 1)) by (intros Hedge; apply Hb in Hedge; lia).
  lia.
Qed.

Lemma enemy_update_inside p wm e e' :
  grid_ok wm → Enemy.update p wm e = Some e' →
  inside (Enemy.position e) → inside (Enemy.position e').
Proof.
  intros Hwm. unfold Enemy.update. destruct (Enemy.isDead e); [intros [= <-]; auto|].
  destruct (F32.gtb _ f0_5); [|intros [= <-]; auto].
  generalize (F32.add (Vec2.x (Enemy.position e))
                (F32.mul (Vec2.x (Vec2.normalize
                   (Vec2.mk (F32.sub (Vec2.x (Player.position p)) (Vec2.x (Enemy.position e)))
                            (F32.sub (Vec2.y (Player.position p)) (Vec2.y (Enemy.position e))))))
                   (Enemy.speed e))) as nx.
  generalize (F32.add (Vec2.y (Enemy.position e))
                (F32.mul (Vec2.y (Vec2.normalize
                   (Vec2.mk (F32.sub (Vec2.x (Player.position p)) (Vec2.x (Enemy.position e)))
                            (F32.sub (Vec2.y (Player.position p)) (Vec2.y (Enemy.position e))))))
                   (Enemy.speed e))) as ny.
  intros ny nx. cbn [Vec2.x Vec2.y].
  intros H Hin. apply bind_Some in H as (okx & Hx & H).
  apply bind_Some in H as (oky & Hy & H). injection H as <-.
  destruct okx, oky; cbn [Enemy.position Enemy.set_position Vec2.x Vec2.y] in *;
    eauto using passable_inside.
Qed.

Lemma update_enemies_inside wm es : grid_ok wm → ∀ p r,
  update_enemies wm p es = Some r →
  Forall (λ e, inside (Enemy.position e)) es → Forall (λ e, inside (Enemy.position e)) r.2.
Proof.
  intros Hwm. induction es as [|e es IH]; intros p r; cbn [update_enemies].
  - intros [= <-] _. constructor.
  - intros H Hok. apply bind_Some in H as (e' & He & H).
    apply bind_Some in H as (p' & _ & H). apply bind_Some in H as (r' & Hr & [= <-]).
    inversion Hok; subst. constructor; eauto using enemy_update_inside.
Qed.

Lemma shootWeapon_inside L p es es' :
  shootWeapon L p es = Some es' →
  Forall (λ e, inside (Enemy.position e)) es → Forall (λ e, inside (Enemy.position e)) es'.
Proof.
  intros H%shootWeapon_positions Hin.
  apply (Forall_fmap Enemy.position inside). rewrite H.
  apply (Forall_fmap Enemy.position inside). exact Hin.
Qed.

Lemma spawned_inside e : spawned e → inside (Enemy.position e).
Proof.
  intros (x & y & Hx & Hy & _ & ->).
  assert (H : forallb (λ x, match to_int (F32.of_Z x) with Some z => z =? x | None => false end)
                      (Z.of_nat <$> seq 2 20) = true) by (vm_compute; reflexivity).
  rewrite forallb_forall in H.
  assert (Hc : ∀ z, 2 <= z <= MAP_WIDTH - 3 → to_int (F32.of_Z z) = Some z).
  { intros z Hz. specialize (H z).
    destruct (to_int (F32.of_Z z)) as [z'|].
    - f_equal. apply Z.eqb_eq. apply H. apply in_map_iff. exists (Z.to_nat z).
      split; [lia|]. apply in_seq. unfold MAP_WIDTH in *. lia.
    - discriminate H. apply in_map_iff. exists (Z.to_nat z).
      split; [lia|]. apply in_seq. unfold MAP_WIDTH in *. lia. }
  exists x, y. unfold cell_of. cbn. rewrite (Hc x Hx), (Hc y Hy).
  unfold MAP_WIDTH, MAP_HEIGHT in *. split; [reflexivity|lia].
Qed.

Lemma enemies_inside_dispatch L ev g g' :
  grid_ok (Game.worldMap g) → dispatch L ev g = Some g' →
  Forall (λ e, inside (Enemy.position e)) (Game.enemies g) →
  Forall (λ e, inside (Enemy.position e)) (Game.enemies g').
Proof.
  intros Hwm. destruct ev as [i|c|]; cbn [dispatch].
  - destruct (Game.gameOver g) eqn:Hover.
    + rewrite update_over by assumption. intros [= <-]. auto.
    + intros H Hok.
      apply update_running in H as (p & pes & es & _ & Hpes & Hes & ->); [|assumption].
      cbn [Game.enemies].
      assert (H1 : Forall (λ e, inside (Enemy.position e)) pes.2).
      { destruct Hpes as [-> | Hpes]; [auto|]. eapply update_enemies_inside; eassumption. }
      destruct Hes as [-> | Hes]; [auto|]. eapply shootWeapon_inside; eassumption.
  - intros [= <-]. unfold on_lbuttondown. destruct (Game.mouseCaptured g); auto.
  - intros [= <-]. auto.
Qed.

(** X19.  In every state the program can reach, each enemy stands in a
    cell off the border of the grid. *)
Theorem enemies_stay_off_the_border L g :
  reachable L g →
  Forall (λ e, ∃ i j, cell_of (Enemy.position e) = Some (i, j)
                 ∧ 1 <= i <= MAP_WIDTH - 2 ∧ 1 <= j <= MAP_HEIGHT - 2)
         (Game.enemies g).
Proof.
  intros (rnd & evs & Hrnd & Hrun).
  assert (H0 : Forall (λ e, inside (Enemy.position e)) (Game.enemies (new_game L rnd))).
  { eapply Forall_impl; [exact (place_enemies_spawned rnd Hrnd 5 100%nat)|].
    apply spawned_inside. }
  assert (Hwm : grid_ok (Game.worldMap (new_game L rnd))).
  { apply (grid_ok_reachable L). exists rnd, []. split; [assumption|reflexivity]. }
  revert Hrun H0 Hwm. generalize (new_game L rnd). revert g.
  induction evs as [|ev evs IH]; intros g g0; cbn [run].
  - intros [= <-]. auto.
  - intros H H0 Hwm. apply bind_Some in H as (g1 & H1 & H).
    eapply IH; [exact H|eapply enemies_inside_dispatch; eassumption|].
    apply dispatch_fixed in H1 as (-> & _). exact Hwm.
Qed.

Lemma enemies_stay_off_the_border_witness :
  rand_ok rnd_three
  ∧ ∃ g, run libm_at_one (replicate 434 (Tick idle)) (new_game libm_at_one rnd_three) = Some g
    ∧ cell_of <$> (Enemy.position <$> Game.enemies g) = replicate 3 (Some (5, 5))
    ∧ Forall (λ e, ∃ i j, cell_of (Enemy.position e) = Some (i, j)
                     ∧ 1 <= i <= MAP_WIDTH - 2 ∧ 1 <= j <= MAP_HEIGHT - 2)
             (Game.enemies g).
Proof.
  split; [exact rnd_three_ok|]. eexists.
  match goal with |- ?A ∧ _ => assert (H : A) by (vm_compute; reflexivity) end.
  split; [exact H|]. split; [vm_compute; reflexivity|].
  apply (enemies_stay_off_the_border libm_at_one).
  exact (ex_intro _ rnd_three (ex_intro _ _ (conj rnd_three_ok H))).
Defined.

(** *** Rays in a game that has run *)

(** X20.  In every state the program can reach in which the player stands
    in a cell off the border, the walk of every view column ends within 43
    iterations, on a cell that holds 1. *)
Theorem rays_end_at_a_wall_in_play L g i j x :
  reachable L g →
  player_cell g = Some (i, j) → 1 <= i <= MAP_WIDTH - 2 → 1 <= j <= MAP_HEIGHT - 2 →
  ∃ d0 d, dda_init (Game.player g) x = Some d0
    ∧ dda_walk 43 (Game.worldMap g) d0 = Hit d
    ∧ cell (Game.worldMap g) (mapX d) (mapY d) = Some 1.
Proof.
  intros Hr Hcell Hi Hj. pose proof (grid_ok_reachable L g Hr) as Hwm.
  unfold player_cell in Hcell.
  destruct (dda_init (Game.player g) x) as [d0|] eqn:Hd0.
  2:{ exfalso. unfold dda_init, cell_of in *.
      destruct (to_int (Vec2.x (Player.position (Game.player g)))); [|discriminate].
      destruct (to_int (Vec2.y (Player.position (Game.player g)))); discriminate. }
  destruct (dda_init_steps _ _ _ Hd0) as (Hc & Hsx & Hsy).
  rewrite Hcell in Hc. injection Hc as -> ->.
  assert (Hint : interior d0) by (unfold interior; auto).
  assert (Hb : to_border d0 <= 44).
  { unfold to_border, MAP_WIDTH, MAP_HEIGHT in *.
    destruct Hsx as [Hs | Hs], Hsy as [Hs' | Hs']; rewrite Hs, Hs'; simpl; lia. }
  destruct (dda_walk_reaches _ (grid_ok_bordered _ Hwm) 43 d0 Hint) as (d & Hd & c & Hc & Hpos);
    [lia|].
  exists d0, d. split; [reflexivity|]. split; [assumption|].
  destruct (cell_Some_range _ _ _ _ Hc) as [Hx Hy].
  destruct (Hwm (mapX d) (mapY d) Hx Hy) as (c' & Hc' & Hval & _).
  rewrite Hc in Hc'. injection Hc' as <-. rewrite Hc. f_equal. lia.
Qed.

Lemma rays_end_at_a_wall_in_play_witness :
  rand_ok rnd_plain
  ∧ ∃ g, run libm_at_one (replicate 40 (Tick holdW)) (new_game libm_at_one rnd_plain) = Some g
    ∧ player_cell g = Some (1, 5)
    ∧ ∃ d0 d, dda_init (Game.player g) 100 = Some d0
        ∧ dda_walk 43 (Game.worldMap g) d0 = Hit d
        ∧ cell (Game.worldMap g) (mapX d) (mapY d) = Some 1.
Proof.
  split; [exact rnd_plain_ok|]. eexists.
  match goal with |- ?A ∧ _ => assert (H : A) by (vm_compute; reflexivity) end.
  split; [exact H|].
  match goal with |- ?A ∧ _ => assert (Hc : A) by (vm_compute; reflexivity) end.
  split; [exact Hc|].
  apply (rays_end_at_a_wall_in_play libm_at_one _ 1 5 100
           (ex_intro _ rnd_plain (ex_intro _ _ (conj rnd_plain_ok H))) Hc);
    unfold MAP_WIDTH, MAP_HEIGHT; lia.
Defined.

(** *** A frame *)

Lemma shown_Some_app a b i t : shown b i = Some t → shown (a ++ b) i = Some t.
Proof. intros H. rewrite shown_app, H. reflexivity. Qed.

Lemma shown_app_None a b i : shown (a ++ b) i = None → shown a i = None.
Proof. rewrite shown_app. destruct (shown b i); [discriminate|auto]. Qed.

Lemma paint_walls_on_screen fuel g walls :
  paint_walls fuel g = Some walls → Forall on_screen walls.
Proof.
  unfold paint_walls. intros H. apply fmap_Some in H as (cols & Hcols & ->).
  apply List.Forall_forall. intros w Hw. apply in_concat in Hw as (col & Hcol & Hw).
  destruct (mapM_In_r _ _ _ Hcols col Hcol) as (x & Hx%In_seqZ & Hp).
  assert (Hx' : 0 <= x < RAY_WIDTH) by lia.
  destruct (paint_view_column_columns _ _ _ _ _ Hx' Hp)
    as (s & _ & Hds & Hb & l0 & l1 & l2 & l3 & H0 & H1 & H2 & H3 & ->).
  unfold RAY_WIDTH, SCREEN_WIDTH in Hx. change (Z.quot 800 4) with 200 in Hx.
  assert (Hp' : ∀ c l, paint_column s c = Some l → 0 <= c < SCREEN_WIDTH → In w l →
                  on_screen w).
  { intros c l Hl Hc Hin.
    destruct (proj1 (paint_column_painted _ _ _ Hl Hds Hb) w Hin) as (y & Hy & _ & Hi & _).
    exists c, y. auto. }
  rewrite !in_app_iff in Hw. unfold SCREEN_WIDTH in Hp'.
  destruct Hw as [Hw | [Hw | [Hw | Hw]]];
    [apply (Hp' _ _ H0)|apply (Hp' _ _ H1)|apply (Hp' _ _ H2)|apply (Hp' _ _ H3)];
    (lia || exact Hw).
Qed.

Lemma paint_walls_cover fuel g walls c y :
  paint_walls fuel g = Some walls → 0 <= c < SCREEN_WIDTH → 0 <= y < SCREEN_HEIGHT →
  ∃ s, castRay fuel (Game.worldMap g) (Game.player g) (c / 4) = Some s
    ∧ (y ≠ drawEnd s → ∃ w, In w walls ∧ index w = y * SCREEN_WIDTH + c).
Proof.
  unfold paint_walls. intros H Hc Hy. apply fmap_Some in H as (cols & Hcols & ->).
  unfold SCREEN_WIDTH in Hc.
  assert (Hx : 0 <= c / 4 < 200).
  { split; [apply Z.div_pos; lia|apply Z.div_lt_upper_bound; lia]. }
  destruct (mapM_In_l _ _ _ Hcols (c / 4)) as (col & Hcol & Hp).
  { apply In_seqZ. unfold RAY_WIDTH, SCREEN_WIDTH. change (Z.quot 800 4) with 200. lia. }
  assert (Hx' : 0 <= c / 4 < RAY_WIDTH).
  { unfold RAY_WIDTH, SCREEN_WIDTH. change (Z.quot 800 4) with 200. exact Hx. }
  destruct (paint_view_column_columns _ _ _ _ _ Hx' Hp)
    as (s & Hs & Hds & Hb & l0 & l1 & l2 & l3 & H0 & H1 & H2 & H3 & ->).
  exists s. split; [exact Hs|]. intros Hne.
  pose proof (Z.div_mod c 4 ltac:(lia)) as Hdm.
  pose proof (Z.mod_pos_bound c 4 ltac:(lia)) as Hm.
  assert (Hcase : c = 4 * (c / 4) ∨ c = 4 * (c / 4) + 1
                  ∨ c = 4 * (c / 4) + 2 ∨ c = 4 * (c / 4) + 3) by lia.
  assert (Hin : ∀ l, In l [l0; l1; l2; l3] → ∀ w, In w l → In w (concat cols)).
  { intros l Hl w Hw. apply in_concat. exists (l0 ++ l1 ++ l2 ++ l3).
    split; [exact Hcol|]. rewrite !in_app_iff.
    cbn in Hl. destruct Hl as [<- | [<- | [<- | [<- | []]]]]; auto. }
  destruct Hcase as [Hc' | [Hc' | [Hc' | Hc']]].
  - destruct (proj2 (paint_column_painted _ _ _ H0 Hds Hb) y Hy Hne) as (w & Hw & Hi).
    exists w. split; [eapply Hin; [|exact Hw]; cbn; auto|rewrite Hi; lia].
  - destruct (proj2 (paint_column_painted _ _ _ H1 Hds Hb) y Hy Hne) as (w & Hw & Hi).
    exists w. split; [eapply Hin; [|exact Hw]; cbn; auto|rewrite Hi; lia].
  - destruct (proj2 (paint_column_painted _ _ _ H2 Hds Hb) y Hy Hne) as (w & Hw & Hi).
    exists w. split; [eapply Hin; [|exact Hw]; cbn; auto|rewrite Hi; lia].
  - destruct (proj2 (paint_column_painted _ _ _ H3 Hds Hb) y Hy Hne) as (w & Hw & Hi).
    exists w. split; [eapply Hin; [|exact Hw]; cbn; auto|rewrite Hi; lia].
Qed.

(** X21.  A frame of a game the program can reach stores on the screen
    only.  A pixel no store of the frame goes to lies in the row [drawEnd]
    of its column's wall slice: every other pixel is repainted.  And what
    the head-up display shows at a pixel is what the frame shows there. *)
Theorem frame_repaints_all_but_one_row L fuel g stores :
  reachable L g → render fuel g = Some stores →
  Forall (λ w, ∃ x y, 0 <= x < SCREEN_WIDTH ∧ 0 <= y < SCREEN_HEIGHT
                 ∧ index w = y * SCREEN_WIDTH + x) stores
  ∧ (∀ c y, 0 <= c < SCREEN_WIDTH → 0 <= y < SCREEN_HEIGHT →
       shown stores (y * SCREEN_WIDTH + c) = None →
       ∃ s, castRay fuel (Game.worldMap g) (Game.player g) (c / 4) = Some s
         ∧ y = drawEnd s)
  ∧ (∃ hud, renderHUD g = Some hud
       ∧ ∀ i t, shown hud i = Some t → shown stores i = Some t).
Proof.
  intros Hr H. unfold render in H.
  apply bind_Some in H as (walls & Hwalls & H). apply bind_Some in H as (scene & Hscene & H).
  apply bind_Some in H as (hud & Hhud & [= <-]).
  unfold renderScene in Hscene. apply bind_Some in Hscene as (zb & _ & Hscene).
  apply bind_Some in Hscene as (sprites & Hsprites & [= <-]). cbn [snd].
  split; [|split].
  - change (Forall on_screen (walls ++ sprites ++ hud)).
    apply Forall_app; split; [|apply Forall_app; split].
    + eapply paint_walls_on_screen; eassumption.
    + unfold renderSprites in Hsprites. apply fmap_Some in Hsprites as (ls & Hls & ->).
      eapply Forall_impl.
      * eapply mapM_Forall; [|exact Hls]. intros a l. apply draw_sprite_screen.
      * cbn. intros w [Hw _]. exact Hw.
    + eapply renderHUD_on_screen; [eapply health_reachable|]; eassumption.
  - intros c y Hc Hy Hnone. apply shown_app_None in Hnone.
    destruct (paint_walls_cover _ _ _ c y Hwalls Hc Hy) as (s & Hs & Hcover).
    exists s. split; [exact Hs|].
    destruct (Z.eq_dec y (drawEnd s)) as [Heq | Hne]; [exact Heq|].
    destruct (Hcover Hne) as (w & Hw & Hi). exfalso.
    apply (shown_None_inv _ _ Hnone w); [apply list_elem_of_In; exact Hw|exact Hi].
  - exists hud. split; [exact Hhud|]. intros i t Ht.
    apply shown_Some_app. apply shown_Some_app. exact Ht.
Qed.

Lemma frame_repaints_all_but_one_row_witness :
  rand_ok rnd_plain
  ∧ ∃ g,
      run libm_at_one back_and_aside (new_game libm_at_one rnd_plain) = Some g
      ∧ player_cell g = Some (20, 12)
      ∧ ∃ stores, render 50 g = Some stores
        ∧ ∀ c y, 0 <= c < SCREEN_WIDTH → 0 <= y < SCREEN_HEIGHT →
            shown stores (y * SCREEN_WIDTH + c) = None →
            ∃ s, castRay 50 (Game.worldMap g) (Game.player g) (c / 4) = Some s
              ∧ y = drawEnd s.
Proof.
  split; [exact rnd_plain_ok|]. eexists.
  match goal with |- ?A ∧ _ => assert (H : A) by (vm_compute; reflexivity) end.
  split; [exact H|]. split; [vm_compute; reflexivity|].
  match goal with
  | |- ∃ stores, render 50 ?g = _ ∧ _ =>
      assert (Hdef : match render 50 g with Some _ => true | None => false end = true)
        by (vm_compute; reflexivity);
      destruct (render 50 g) as [stores|] eqn:Hs
  end.
  - exists stores. split; [reflexivity|].
    exact (proj1 (proj2 (frame_repaints_all_but_one_row libm_at_one 50 _ stores
                           (ex_intro _ rnd_plain (ex_intro _ _ (conj rnd_plain_ok H))) Hs))).
  - discriminate Hdef.
Defined.
